(** * Leave-one-out cross-validation of nested linear models

    A shallow embedding of the numerical cells of
    [linear_model_selection.ipynb]: the construction of the design matrix
    from the first [n_basis_vectors] basis vectors, the exclusion indices
    [np.r_[0:i-1, i+1:len(x)]], the refit with [np.linalg.lstsq] and the
    accumulation of the leave-one-out statistic.

    Conventions.
    - Python integers are [Z]; [float64] values are idealised as exact
      rationals [Q] (no rounding, no NaN, no infinities), compared with [==].
    - A raised Python exception is the [Raise] branch of [result]; the
      notebook has no [try], so [Raise] short-circuits every later step.
    - A 1-D ndarray is a [list Q]; a 2-D ndarray is a [matrix], a list of rows
      together with its number of columns (so that a matrix with no row still
      has a shape).
    - The cell is embedded twice: as pure functions on values, on which the
      numerical properties are stated, and as a program over a store of
      array objects, on which it is shown that no input is modified and
      that the program returns the value of the pure functions.
    - [np.linalg.lstsq] is a library call; the statistic is defined for any
      solver, and [lstsq] is the solver numpy documents, in exact
      arithmetic.
    - The other cells are embedded as far as they compute on arrays: the
      grid [x] and the observations [y], the list [basis_vectors], the
      dictionary that the sampling loop fills, and the reshape of the
      posterior chains. [np.sin], [np.pi], the noise and the sampler are
      parameters. *)

From Stdlib Require Import ZArith QArith Qabs Lia Lqa List Sorted.
From stdpp Require Import base list list_numbers gmap strings pretty.

Local Open Scope Z_scope.

(** ** Exceptions and the error monad *)

Inductive exn : Set :=
  | ValueError          (* wrong shapes, nothing to stack *)
  | IndexError          (* index out of bounds *)
  | LinAlgError         (* raised by [np.linalg] *)
  | ZeroDivisionError   (* [0 / 0] on Python numbers *)
  | TypeError           (* an object of the wrong kind *)
  | NameError.          (* a name bound to no object *)

Inductive result (A : Type) : Type :=
  | OK (a : A)
  | Raise (e : exn).
Arguments OK {A} a.
Arguments Raise {A} e.

Definition bind {A B} (r : result A) (k : A -> result B) : result B :=
  match r with
  | OK a => k a
  | Raise e => Raise e
  end.

Declare Scope result_scope.
Delimit Scope result_scope with result.
Notation "'let*' x ':=' r 'in' k" := (bind r (fun x => k))
  (at level 10, x pattern, r at level 100, k at level 200) : result_scope.
Local Open Scope result_scope.

Definition raises {A} (r : result A) : Prop := exists e, r = Raise e.

Definition succeeds {A} (r : result A) : Prop := exists a, r = OK a.

(** [for a in l: ...] with an early exit on the first exception. *)
Fixpoint traverse {A B} (f : A -> result B) (l : list A) : result (list B) :=
  match l with
  | [] => OK []
  | a :: l' =>
      let* b := f a in
      let* bs := traverse f l' in
      OK (b :: bs)
  end.

(** ** numpy primitives used by the notebook *)

Abbreviation vector := (list Q).

Record matrix : Type := Mat { ncols : nat; rows : list vector }.

Definition nrows (M : matrix) : nat := length (rows M).

(** Every row has [ncols] entries: the shape invariant of an ndarray. *)
Definition wf_matrix (M : matrix) : Prop :=
  Forall (fun r => length r = ncols M) (rows M).

(** [np.arange(start, stop)] on integers: empty when [stop <= start]. *)
Definition arange (start stop : Z) : list Z := seqZ start (stop - start).

(** [range(n)]. *)
Definition range (n : Z) : list Z := arange 0 n.

(** [a[i]] for one integer [i]: a negative index counts from the end, an
    index outside [-len, len) raises [IndexError]. *)
Definition getitem {A} (a : list A) (i : Z) : result A :=
  let n := Z.of_nat (length a) in
  if (i <? - n) || (n <=? i) then Raise IndexError
  else match a !! Z.to_nat (if i <? 0 then i + n else i) with
       | Some v => OK v
       | None => Raise IndexError
       end.

(** [a[indices]] for an integer index array (advanced indexing): a new
    array holding [a[j]] for each [j] of [indices], in order. *)
Definition getitems {A} (a : list A) (indices : list Z) : result (list A) :=
  traverse (getitem a) indices.

(** [M[indices, :]]: advanced indexing on the rows. *)
Definition getrows (M : matrix) (indices : list Z) : result matrix :=
  let* rs := getitems (rows M) indices in
  OK (Mat (ncols M) rs).

(** [M[i, :]]. *)
Definition row (M : matrix) (i : Z) : result vector := getitem (rows M) i.

(** Column [j] of [M], for the statements about the design matrix. *)
Definition column (M : matrix) (j : nat) : vector :=
  map (fun r => nth j r 0%Q) (rows M).

(** [l[:k]] on a Python list: a negative [k] counts from the end, and the
    bound is clamped to the length (a slice never raises). *)
Definition slice_to {A} (l : list A) (k : Z) : list A :=
  let n := Z.of_nat (length l) in
  firstn (Z.to_nat (if k <? 0 then Z.max 0 (n + k) else Z.min k n)) l.

(** [np.vstack(tup)] on 1-D arrays: each array becomes one row; raises
    [ValueError] on an empty sequence and on arrays of different lengths. *)
Definition vstack (tup : list vector) : result matrix :=
  match tup with
  | [] => Raise ValueError
  | v :: vs =>
      if forallb (fun w => Nat.eqb (length w) (length v)) vs
      then OK (Mat (length v) tup)
      else Raise ValueError
  end.

(** [M.T]. *)
Definition transpose (M : matrix) : matrix :=
  Mat (nrows M) (map (fun j => column M j) (seq 0 (ncols M))).

(** The sum of the products of the entries of [u] and [v]. *)
Fixpoint inner (u v : vector) : Q :=
  match u, v with
  | a :: u', b :: v' => (a * b + inner u' v')%Q
  | _, _ => 0%Q
  end.

(** [u @ v] on 1-D arrays: the inner product; [ValueError] on a length
    mismatch. *)
Definition matmul_vec (u v : vector) : result Q :=
  if Nat.eqb (length u) (length v) then OK (inner u v) else Raise ValueError.

(** ** The cell that computes the statistic *)

(** [np.vstack(basis_vectors[:n_basis_vectors]).T] *)
Definition design_matrix (basis_vectors : list vector) (n_basis_vectors : Z)
  : result matrix :=
  let* stacked := vstack (slice_to basis_vectors n_basis_vectors) in
  OK (transpose stacked).

(** [np.r_[0:i-1, i+1:len(x)]]: [np.r_] turns each slice into an [arange]
    and concatenates them. *)
Definition indices (i len_x : Z) : list Z :=
  arange 0 (i - 1) ++ arange (i + 1) len_x.

Section LOO.

(** The least-squares solver, [np.linalg.lstsq(a, b, rcond=-1)[0]]: a
    function of the values of its two arguments that returns a new array
    or raises. The statistic is defined for any such solver; [lstsq] below
    is the one numpy documents, in exact arithmetic. *)
Variable solver : matrix -> vector -> result vector.

(** The body of [for i in range(len(x))]: the squared difference between
    [y[i]] and the prediction of the model refitted on [indices]. *)
Definition loo_term (design_matrix : matrix) (x y : vector) (i : Z)
  : result Q :=
  let indices := indices i (Z.of_nat (length x)) in
  let* x_in := getitems x indices in
  let* y_in := getitems y indices in
  let* design_matrix_in := getrows design_matrix indices in
  let* betas := solver design_matrix_in y_in in
  let* r := row design_matrix i in
  let* y_out := matmul_vec r betas in
  let* y_i := getitem y i in
  OK ((y_i - y_out) ^ 2)%Q.

(** [loo_statistic += ...] over the remaining values of [i]. *)
Fixpoint loo_loop (design_matrix : matrix) (x y : vector)
    (loo_statistic : Q) (todo : list Z) : result Q :=
  match todo with
  | [] => OK loo_statistic
  | i :: todo' =>
      let* t := loo_term design_matrix x y i in
      loo_loop design_matrix x y (loo_statistic + t)%Q todo'
  end.

(** The statistic of one model: the loop, then [loo_statistic /= len(x)].
    With an empty [x] the loop body never runs and Python divides the
    integer [0] by [0]. *)
Definition loo_statistic (design_matrix : matrix) (x y : vector)
  : result Q :=
  let len_x := Z.of_nat (length x) in
  let* s := loo_loop design_matrix x y 0%Q (range len_x) in
  if len_x =? 0 then Raise ZeroDivisionError
  else OK (s / inject_Z len_x)%Q.

(** The whole cell: one statistic per [n_basis_vectors] in
    [range(1, len(basis_vectors) + 1)], in the order they are printed. *)
Definition loo_cell (basis_vectors : list vector) (x y : vector)
  : result (list (Z * Q)) :=
  traverse
    (fun n_basis_vectors =>
       let* design_matrix := design_matrix basis_vectors n_basis_vectors in
       let* loo := loo_statistic design_matrix x y in
       OK (n_basis_vectors, loo))
    (arange 1 (Z.of_nat (length basis_vectors) + 1)).

End LOO.

(** ** [np.linalg.lstsq] in exact arithmetic

    numpy documents [lstsq(a, b)] as returning the vector [x] that minimises
    [||b - a x||], and among several minimisers the one of least norm; it
    raises [LinAlgError] when [a] and [b] do not have the same number of
    rows, and has no error for fewer rows than columns or for dependent
    columns. Over [Q] that vector is [a^+ b], computed here from a rank
    factorisation [a = C F] as [F^T (F F^T)^-1 (C^T C)^-1 C^T b]. The
    singular-value cut-off [rcond] has no counterpart in exact arithmetic.

    With [rcond=-1] numpy decides the rank in floating point, against
    machine precision: on a matrix with dependent columns rounding can leave
    a singular value above the cut-off, and the weights returned are then
    not those of least norm. What is proved of [lstsq] speaks for the code
    where the columns are independent, where the observations are
    reproduced exactly, or where only the shape of the result is used. The
    [LinAlgError] that numpy raises when its iteration does not converge is
    not modelled. *)

Definition entry (r : vector) (j : nat) : Q := nth j r 0%Q.

Definition vscale (c : Q) (v : vector) : vector := map (Qmult c) v.

Definition vsub (u v : vector) : vector :=
  map (fun p => (fst p - snd p)%Q) (combine u v).

(** Subtract from [r] the multiple of the pivot row [p] that clears column
    [j] ([p] has a [1] there). *)
Definition eliminate (j : nat) (p r : vector) : vector :=
  vsub r (vscale (entry r j) p).

(** The first row with a non-zero entry in column [j], and the other rows. *)
Fixpoint find_pivot (j : nat) (rs : list vector)
  : option (vector * list vector) :=
  match rs with
  | [] => None
  | r :: rs' =>
      if Qeq_bool (entry r j) 0 then
        match find_pivot j rs' with
        | Some (p, others) => Some (p, r :: others)
        | None => None
        end
      else Some (r, rs')
  end.

(** Gauss-Jordan elimination over the columns [js]: [reduced] holds the
    pivot rows found so far with their pivot column, [todo] the rows not yet
    used as a pivot. Returns both at the end. *)
Fixpoint gauss_jordan (js : list nat) (reduced : list (nat * vector))
    (todo : list vector) : list (nat * vector) * list vector :=
  match js with
  | [] => (reduced, todo)
  | j :: js' =>
      match find_pivot j todo with
      | None => gauss_jordan js' reduced todo
      | Some (p, others) =>
          let p' := vscale (/ entry p j) p in
          gauss_jordan js'
            (map (fun cr => (fst cr, eliminate j p' (snd cr))) reduced
               ++ [(j, p')])
            (map (eliminate j p') others)
      end
  end.

(** The non-zero rows of the reduced row echelon form of the first [n]
    columns, each with its pivot column. *)
Definition rref (n : nat) (rs : list vector) : list (nat * vector) :=
  fst (gauss_jordan (seq 0 n) [] rs).

(** The rows [g_i ++ [c_i]] of the system [G z = c]. *)
Definition augment (G : list vector) (c : vector) : list vector :=
  map (fun gc => fst gc ++ [snd gc]) (combine G c).

(** The solution of the square system [G z = c], for [G] invertible: the
    last column of the reduced augmented system. *)
Definition solve (G : list vector) (c : vector) : vector :=
  let n := length G in
  map (fun cr => entry (snd cr) n) (rref n (augment G c)).

(** The Gram matrix of a list of vectors. *)
Definition gram (vs : list vector) : list vector :=
  map (fun u => map (fun v => inner u v) vs) vs.

(** [np.linalg.lstsq(a, b, rcond=-1)[0]]. That the vector returned is the
    minimiser of least norm is proved below ([lstsq_entries]). *)
Definition lstsq (a : matrix) (b : vector) : result vector :=
  if negb (Nat.eqb (nrows a) (length b)) then Raise LinAlgError
  else
    let R := rref (ncols a) (rows a) in
    let F := map snd R in
    let C := map (fun cr => column a (fst cr)) R in
    let u := map (fun c => inner c b) C in
    let v := solve (gram C) u in
    let w := solve (gram F) v in
    OK (map (fun j => inner w (map (fun f => entry f j) F))
            (seq 0 (ncols a))).


(** ** The same cell over a store of objects

    The pure functions above compute on values. To speak about what the
    cell does to the arrays it is given, the arrays live in a store: a name
    is bound to a location, several names (and the entries of the list
    [basis_vectors]) may be bound to the same one, and an assignment to an
    element would replace the object at a location. Every numpy call of the
    cell builds a new array: advanced indexing copies, [np.r_], [np.vstack]
    and [lstsq] return fresh arrays, [.T] and [M[i, :]] make a new array
    object over data that the cell never writes. Numbers are immutable and
    stay values. *)

Definition loc := positive.

Inductive obj : Type :=
  | Array (v : vector)          (* ndarray of floats, one dimension *)
  | Array2 (M : matrix)         (* ndarray of floats, two dimensions *)
  | IndexArray (js : list Z)    (* ndarray of integers *)
  | PyList (items : list loc).  (* Python list of references *)

Definition prog (A : Type) : Type := gmap loc obj -> result (A * gmap loc obj).

Definition ret {A} (a : A) : prog A := fun h => OK (a, h).

Definition pbind {A B} (p : prog A) (k : A -> prog B) : prog B :=
  fun h =>
    match p h with
    | OK (a, h') => k a h'
    | Raise e => Raise e
    end.

Declare Scope prog_scope.
Delimit Scope prog_scope with prog.
Notation "x <- p ;; k" := (pbind p (fun x => k))
  (at level 100, p at next level, right associativity) : prog_scope.

(** A pure step that may raise. *)
Definition lift {A} (r : result A) : prog A :=
  fun h => match r with OK a => OK (a, h) | Raise e => Raise e end.

(** A new object, at a location that is not in use. *)
Definition alloc (o : obj) : prog loc :=
  fun h => let l := fresh (dom h) in OK (l, <[l := o]> h).

(** The in-place update [a[...] = v]: the object at [l] is replaced. *)
Definition assign (l : loc) (o : obj) : prog unit :=
  fun h =>
    match h !! l with
    | Some _ => OK (tt, <[l := o]> h)
    | None => Raise NameError
    end.

Definition load (l : loc) : prog obj :=
  fun h => match h !! l with Some o => OK (o, h) | None => Raise NameError end.

Definition load_array (l : loc) : prog vector :=
  (o <- load l ;;
   match o with Array v => ret v | _ => lift (Raise TypeError) end)%prog.

Definition load_matrix (l : loc) : prog matrix :=
  (o <- load l ;;
   match o with Array2 M => ret M | _ => lift (Raise TypeError) end)%prog.

Definition load_index (l : loc) : prog (list Z) :=
  (o <- load l ;;
   match o with IndexArray js => ret js | _ => lift (Raise TypeError) end)%prog.

Definition load_list (l : loc) : prog (list loc) :=
  (o <- load l ;;
   match o with PyList items => ret items | _ => lift (Raise TypeError) end)%prog.

(** [for a in l] over the store, in order. *)
Fixpoint for_each {A B} (f : A -> prog B) (l : list A) : prog (list B) :=
  match l with
  | [] => ret []
  | a :: l' => (b <- f a ;; bs <- for_each f l' ;; ret (b :: bs))%prog
  end.

Section Store.

Variable solver : matrix -> vector -> result vector.

Local Open Scope prog_scope.

(** [a[indices]] *)
Definition np_getitems (a indices : loc) : prog loc :=
  v <- load_array a ;;
  js <- load_index indices ;;
  w <- lift (getitems v js) ;;
  alloc (Array w).

(** [M[indices, :]] *)
Definition np_getrows (M indices : loc) : prog loc :=
  m <- load_matrix M ;;
  js <- load_index indices ;;
  m' <- lift (getrows m js) ;;
  alloc (Array2 m').

(** [np.linalg.lstsq(a, b, rcond=-1)[0]]: reads its two arguments and
    returns a new array. *)
Definition np_lstsq (a b : loc) : prog loc :=
  m <- load_matrix a ;;
  v <- load_array b ;;
  betas <- lift (solver m v) ;;
  alloc (Array betas).

(** [M[i, :]] *)
Definition np_row (M : loc) (i : Z) : prog loc :=
  m <- load_matrix M ;;
  r <- lift (row m i) ;;
  alloc (Array r).

(** [u @ v] *)
Definition np_matmul (u v : loc) : prog Q :=
  a <- load_array u ;;
  b <- load_array v ;;
  lift (matmul_vec a b).

(** [a[i]] *)
Definition np_getitem (a : loc) (i : Z) : prog Q :=
  v <- load_array a ;;
  lift (getitem v i).

(** [len(a)] *)
Definition np_len (a : loc) : prog Z :=
  v <- load_array a ;;
  ret (Z.of_nat (length v)).

(** [np.vstack(basis_vectors[:n_basis_vectors]).T] *)
Definition design_matrix_prog (basis_vectors : loc) (n_basis_vectors : Z)
  : prog loc :=
  items <- load_list basis_vectors ;;
  sliced <- alloc (PyList (slice_to items n_basis_vectors)) ;;
  items' <- load_list sliced ;;
  arrays <- for_each load_array items' ;;
  stacked <- lift (vstack arrays) ;;
  stacked_loc <- alloc (Array2 stacked) ;;
  m <- load_matrix stacked_loc ;;
  alloc (Array2 (transpose m)).

(** The body of [for i in range(len(x))]. *)
Definition loo_term_prog (design_matrix x y : loc) (i : Z) : prog Q :=
  len_x <- np_len x ;;
  indices <- alloc (IndexArray (indices i len_x)) ;;
  x_in <- np_getitems x indices ;;
  y_in <- np_getitems y indices ;;
  design_matrix_in <- np_getrows design_matrix indices ;;
  betas <- np_lstsq design_matrix_in y_in ;;
  r <- np_row design_matrix i ;;
  y_out <- np_matmul r betas ;;
  y_i <- np_getitem y i ;;
  ret ((y_i - y_out) ^ 2)%Q.

Fixpoint loo_loop_prog (design_matrix x y : loc) (loo_statistic : Q)
    (todo : list Z) : prog Q :=
  match todo with
  | [] => ret loo_statistic
  | i :: todo' =>
      t <- loo_term_prog design_matrix x y i ;;
      loo_loop_prog design_matrix x y (loo_statistic + t)%Q todo'
  end.

Definition loo_statistic_prog (design_matrix x y : loc) : prog Q :=
  len_x <- np_len x ;;
  s <- loo_loop_prog design_matrix x y 0%Q (range len_x) ;;
  len_x' <- np_len x ;;
  if len_x' =? 0 then lift (Raise ZeroDivisionError)
  else ret (s / inject_Z len_x')%Q.

Definition loo_cell_prog (basis_vectors x y : loc) : prog (list (Z * Q)) :=
  items <- load_list basis_vectors ;;
  for_each
    (fun n_basis_vectors =>
       design_matrix <- design_matrix_prog basis_vectors n_basis_vectors ;;
       loo <- loo_statistic_prog design_matrix x y ;;
       ret (n_basis_vectors, loo))
    (arange 1 (Z.of_nat (length items) + 1)).

End Store.

(** ** The statistic as the specification words it

    Iteration [i] refits on all the rows except row [i], predicts row [i]
    and accumulates the squared error; the sum is divided by [N]. This is
    the formula the code is compared with, not a translation of the code. *)

Definition squared_errors_leave_one_out
    (solver : matrix -> vector -> result vector) (X : matrix) (y : vector)
  : result (list Q) :=
  traverse
    (fun i =>
       let* beta := solver (Mat (ncols X) (delete i (rows X))) (delete i y) in
       let* y_hat := matmul_vec (nth i (rows X) []) beta in
       OK ((nth i y 0 - y_hat) ^ 2)%Q)
    (seq 0 (nrows X)).

Definition loo_leave_one_out
    (solver : matrix -> vector -> result vector) (X : matrix) (y : vector)
  : result Q :=
  let* errs := squared_errors_leave_one_out solver X y in
  OK (fold_right Qplus 0 errs / inject_Z (Z.of_nat (nrows X)))%Q.

(** [r] is a number equal, as a rational, to [q]. *)
Definition returns (r : result Q) (q : Q) : Prop :=
  match r with
  | OK s => (s == q)%Q
  | Raise _ => False
  end.

(** ** Predicates on runs over the store *)

(** A store with [x] at 1, [y] at 2, the list [basis_vectors] at 3 holding
    a vector of ones at 4 and [x] itself, and their design matrix at 5. *)
Definition example_store : gmap loc obj :=
  <[ 1%positive := Array [0; 1; 2]%Q ]>
  (<[ 2%positive := Array [0; 0; 3]%Q ]>
  (<[ 3%positive := PyList [4%positive; 1%positive] ]>
  (<[ 4%positive := Array [1; 1; 1]%Q ]>
  (<[ 5%positive := Array2 (Mat 2 [[1; 0]; [1; 1]; [1; 2]]%Q) ]> ∅)))).

(** [p] only adds objects: whatever was in the store before a run that
    returns is there, unchanged, afterwards. *)
Definition preserves {A} (p : prog A) : Prop :=
  forall h a h', p h = OK (a, h') -> h ⊆ h'.

(** A run of [p] from [h] simulates the pure result [r]: it raises the same
    exception, or returns a value related by [R] to the pure one, in a store
    that extends [h]. *)
Definition sim {A B} (R : gmap loc obj -> A -> B -> Prop)
    (p : prog A) (h : gmap loc obj) (r : result B) : Prop :=
  match p h with
  | OK (a, h') => h ⊆ h' /\ exists b, r = OK b /\ R h' a b
  | Raise e => r = Raise e
  end.

Definition same {A} : gmap loc obj -> A -> A -> Prop := fun _ a b => a = b.

Definition holds (wrap : vector -> obj)
  : gmap loc obj -> loc -> vector -> Prop :=
  fun h l v => h !! l = Some (wrap v).

Definition holds_matrix : gmap loc obj -> loc -> matrix -> Prop :=
  fun h l m => h !! l = Some (Array2 m).

Definition holds_index : gmap loc obj -> loc -> list Z -> Prop :=
  fun h l js => h !! l = Some (IndexArray js).

(** The three arrays the loop is given are in the store. *)
Definition inputs_at (dm x y : loc) (M : matrix) (xv yv : vector)
    (h : gmap loc obj) : Prop :=
  h !! dm = Some (Array2 M)
  /\ h !! x = Some (Array xv)
  /\ h !! y = Some (Array yv).

(** The list [basis_vectors] in the store: the object at [bvs] is a list of
    locations, each of an array. *)
Definition basis_at (h : gmap loc obj) (bvs : loc) (vs : list vector) : Prop :=
  exists items, h !! bvs = Some (PyList items)
    /\ Forall2 (fun l v => h !! l = Some (Array v)) items vs.

(** ** Notions used to state what the solver returns *)

Local Open Scope Q_scope.

(** [M @ z], the residual [y - M @ z] and the squared norm. *)
Definition matvec (M : matrix) (z : vector) : vector :=
  map (fun r => inner r z) (rows M).

Definition residual (M : matrix) (y z : vector) : vector :=
  vsub y (matvec M z).

Definition sqnorm (v : vector) : Q := inner v v.

(** The sum of [f i] over [i < n]. *)
Fixpoint sumf (f : nat -> Q) (n : nat) : Q :=
  match n with
  | O => 0
  | S n' => sumf f n' + f n'
  end.

(** The linear functional with coefficients [c] on vectors of length [n]. *)
Definition lin (n : nat) (c : nat -> Q) (v : vector) : Q :=
  sumf (fun q => c q * entry v q) n.

(** The functional with coefficients [c] vanishes on every vector of [S]. *)
Definition annihilates (n : nat) (c : nat -> Q) (S : list vector) : Prop :=
  forall s, s ∈ S -> lin n c s == 0.

(** Every functional that vanishes on [S] vanishes on [T]: the rows of [T]
    are combinations of the rows of [S]. *)
Definition below (n : nat) (S T : list vector) : Prop :=
  forall c, annihilates n c S -> annihilates n c T.

(** Kronecker's delta. *)
Definition delta (i j : nat) : Q := if Nat.eqb i j then 1 else 0.

(** What holds of [reduced] and [todo] once the columns before [j0] have
    been processed, starting from the rows [rows0] of length [n]. *)
Record gj_inv (n : nat) (rows0 : list vector) (j0 : nat)
    (reduced : list (nat * vector)) (todo : list vector) : Prop := {
  inv_red_len : forall cr, cr ∈ reduced ->
      length (snd cr) = n /\ (fst cr < j0)%nat;
  inv_todo_len : forall t, t ∈ todo -> length t = n;
  inv_unit : forall k l ck cl,
      reduced !! k = Some ck -> reduced !! l = Some cl ->
      entry (snd ck) (fst cl) == delta k l;
  inv_todo_zero : forall t q, t ∈ todo -> (q < j0)%nat -> entry t q == 0;
  inv_below : below n rows0 (map snd reduced ++ todo);
  inv_above : below n (map snd reduced ++ todo) rows0;
  inv_count : (length reduced + length todo = length rows0)%nat
}.

(** The pivot column and the row of the [k]-th reduced row. *)
Definition piv (R : list (nat * vector)) (k : nat) : nat :=
  fst (nth k R (0%nat, [])).

Definition prow (R : list (nat * vector)) (k : nat) : vector :=
  snd (nth k R (0%nat, [])).

(** [G] has only the trivial solution of [G z = 0]. *)
Definition nonsingular (G : list vector) : Prop :=
  forall z : nat -> Q,
    (forall g, g ∈ G -> lin (length G) z g == 0) ->
    forall q, (q < length G)%nat -> z q == 0.

(** No non-trivial combination of the vectors of [V], of length [m],
    vanishes. *)
Definition indep (m : nat) (V : list vector) : Prop :=
  forall z : nat -> Q,
    (forall t, (t < m)%nat ->
       sumf (fun k => z k * entry (nth k V []) t) (length V) == 0) ->
    forall k, (k < length V)%nat -> z k == 0.


Local Close Scope Q_scope.

(** ** The cell that generates the observations *)

Local Open Scope Q_scope.

(** [np.linspace(start, stop, num)], as numpy computes it: the integers
    [0 .. num - 1] are scaled by the step [(stop - start) / (num - 1)] and
    shifted by [start], and the last sample is then overwritten with [stop];
    with one sample there is no step; a negative [num] raises
    [ValueError]. *)
Definition linspace (start stop : Q) (num : Z) : result vector :=
  if (num <? 0)%Z then Raise ValueError
  else
    let div := (num - 1)%Z in
    let delta := stop - start in
    let y := map inject_Z (range num) in
    let y :=
      if (0 <? div)%Z then
        let step := delta / inject_Z div in
        if Qeq_bool step 0 then map (fun t => t / inject_Z div * delta) y
        else map (fun t => t * step) y
      else map (fun t => t * delta) y in
    let y := map (fun t => t + start) y in
    OK (if (1 <? num)%Z then <[ Nat.pred (length y) := stop ]> y else y).

(** An arithmetic operator on two 1-D arrays: an array with one entry is
    broadcast over the other, arrays of the same length are combined entry
    by entry, anything else raises [ValueError]. *)
Definition broadcast (f : Q -> Q -> Q) (u v : vector) : result vector :=
  match u, v with
  | [a], _ => OK (map (f a) v)
  | _, [b] => OK (map (fun a => f a b) u)
  | _, _ =>
      if Nat.eqb (length u) (length v) then OK (zip_with f u v)
      else Raise ValueError
  end.

Definition np_add : vector -> vector -> result vector := broadcast Qplus.

(** [truths], with the decimal literal [0.2] read as the rational it
    denotes. *)
Definition truths : vector := [2; 3; 1 # 5; 2].

Definition true_period : Q := 4 # 5.

Section Observations.

(** [np.sin] and [np.pi], on which nothing is assumed. *)
Variable np_sin : Q -> Q.
Variable np_pi : Q.

(** [np.sin(2 * np.pi * x / true_period)] *)
Definition sinusoid (x : vector) : vector :=
  map (fun a => np_sin (2 * np_pi * a / true_period)) x.

(** [-(np.abs(x) < 2).astype(int)] *)
Definition box (x : vector) : vector :=
  map (fun a => - inject_Z (Z.b2z (negb (Qle_bool 2 (Qabs a))))) x.

(** The list [basis_vectors]; its second entry is [x] itself. *)
Definition basis_vectors (x : vector) : list vector :=
  [ map (fun _ => 1) x;
    x;
    map (fun a => a ^ 2) x;
    sinusoid x;
    box x ].

(** [y], from [x] and the array [noise] drawn by [np.random.normal]. *)
Definition observations (x noise : vector) : result vector :=
  let true_linear := map (Qplus (entry truths 0)) (map (Qmult (entry truths 1)) x) in
  let true_quadratic := map (Qmult (entry truths 2)) (map (fun a => a ^ 2) x) in
  let true_sinusoid := map (Qmult (entry truths 3)) (sinusoid x) in
  let* s := np_add true_linear true_quadratic in
  let* s := np_add s true_sinusoid in
  np_add s noise.

(** The features of one abscissa, in the order of [basis_vectors]. *)
Definition features (a : Q) : vector :=
  [ 1; a; a ^ 2; np_sin (2 * np_pi * a / true_period);
    - inject_Z (Z.b2z (negb (Qle_bool 2 (Qabs a)))) ].

End Observations.

Local Close Scope Q_scope.

(** ** The cell that samples the posteriors *)

(** [f"n={n_basis_vectors}"] *)
Definition model_name (n_basis_vectors : Z) : string :=
  "n=" +:+ pretty n_basis_vectors.

(** [pm.math.dot(beta, basis_vectors[:n_basis_vectors])], the mean of the
    model, at a value of [beta]: the sliced list is read as a 2-D array with
    one basis vector per row, and the product with the 1-D [beta] sums over
    the rows. A list that is no 2-D array and a [beta] of another length
    are refused; the exception is given as [np.vstack]'s. *)
Definition linear_model (beta : vector) (basis_vectors : list vector)
    (n_basis_vectors : Z) : result vector :=
  let* B := vstack (slice_to basis_vectors n_basis_vectors) in
  if Nat.eqb (length beta) (nrows B)
  then OK (map (fun i => inner beta (column B i)) (seq 0 (ncols B)))
  else Raise ValueError.

Section Sampling.

(** What [pm.sample] returns. *)
Variable inference_data : Type.

(** The body of [with pm.Model(name=model_name)] for one value of
    [n_basis_vectors]: it builds the model, plots and samples, and returns
    the inference data or raises. *)
Variable sample : Z -> result inference_data.

(** The loop [for n_basis_vectors in ...] with its last statement,
    [inference_data_dict[model_name] = inference_data]. *)
Fixpoint sampling_loop (inference_data_dict : gmap string inference_data)
    (todo : list Z) : result (gmap string inference_data) :=
  match todo with
  | [] => OK inference_data_dict
  | n_basis_vectors :: todo' =>
      let* inference_data := sample n_basis_vectors in
      sampling_loop
        (<[ model_name n_basis_vectors := inference_data ]> inference_data_dict)
        todo'
  end.

(** The cell: [inference_data_dict = {}] and the loop over
    [range(1, total_basis_vectors + 1)]. *)
Definition sampling_cell (total_basis_vectors : Z)
  : result (gmap string inference_data) :=
  sampling_loop ∅ (arange 1 (total_basis_vectors + 1)).

End Sampling.

(** ** The cell that flattens the chains *)

(** A 3-D ndarray: its shape and its entries, plane by plane. *)
Record array3 : Type :=
  Arr3 { shape0 : nat; shape1 : nat; shape2 : nat;
         planes : list (list vector) }.

Definition wf_array3 (a : array3) : Prop :=
  length (planes a) = shape0 a
  /\ Forall (fun p => length p = shape1 a
                      /\ Forall (fun r => length r = shape2 a) p) (planes a).

(** [post.reshape((post.shape[0] * post.shape[1], -1))]: the rows of the
    planes one after the other; numpy cannot infer the dimension [-1] when
    the other one is [0] and raises [ValueError]. *)
Definition flatchain (post : array3) : result matrix :=
  if Nat.eqb (shape0 post * shape1 post) 0 then Raise ValueError
  else OK (Mat (shape2 post) (concat (planes post))).

(** * Properties *)

(** ** The error monad *)

Lemma bind_OK {A B} (r : result A) (k : A -> result B) (b : B) :
  bind r k = OK b -> exists a, r = OK a /\ k a = OK b.
Proof. destruct r as [a|e]; simpl; [eauto | discriminate]. Qed.

Lemma traverse_app {A B} (f : A -> result B) (l1 l2 : list A) r1 r2 :
  traverse f l1 = OK r1 -> traverse f l2 = OK r2 ->
  traverse f (l1 ++ l2) = OK (r1 ++ r2).
Proof.
  revert r1. induction l1 as [|a l1 IH]; simpl; intros r1 H1 H2.
  - inversion H1. exact H2.
  - destruct (f a) as [b|e]; simpl in *; [|discriminate].
    destruct (traverse f l1) as [bs|e]; simpl in *; [|discriminate].
    inversion H1. rewrite (IH bs eq_refl H2). reflexivity.
Qed.

(** ** Indexing *)

Lemma getitem_nonneg {A} (a : list A) (i : Z) :
  0 <= i < Z.of_nat (length a) ->
  exists v, a !! Z.to_nat i = Some v /\ getitem a i = OK v.
Proof.
  intros Hi. unfold getitem.
  destruct (lookup_lt_is_Some_2 a (Z.to_nat i)) as [v Hv]; [lia|].
  exists v. split; [exact Hv|].
  replace (i <? - Z.of_nat (length a)) with false by (symmetry; apply Z.ltb_ge; lia).
  replace (Z.of_nat (length a) <=? i) with false by (symmetry; apply Z.leb_gt; lia).
  replace (i <? 0) with false by (symmetry; apply Z.ltb_ge; lia).
  simpl. rewrite Hv. reflexivity.
Qed.

(** Indexing with a run of consecutive in-range integers copies that
    stretch of the array. *)
Lemma getitems_seqZ {A} (a : list A) (len : nat) (start : nat) :
  (start + len <= length a)%nat ->
  getitems a (seqZ (Z.of_nat start) (Z.of_nat len))
  = OK (firstn len (skipn start a)).
Proof.
  revert start. induction len as [|len IH]; intros start H.
  - reflexivity.
  - rewrite seqZ_cons by lia. unfold getitems in *. simpl traverse.
    destruct (getitem_nonneg a (Z.of_nat start)) as (v & Hv & ->); [lia|].
    rewrite Nat2Z.id in Hv. simpl.
    replace (Z.succ (Z.of_nat start)) with (Z.of_nat (S start)) by lia.
    replace (Z.pred (Z.of_nat (S len))) with (Z.of_nat len) by lia.
    rewrite IH by lia. simpl.
    rewrite (drop_S a v start Hv). reflexivity.
Qed.

Lemma getitems_arange {A} (a : list A) (start stop : Z) :
  0 <= start -> stop <= Z.of_nat (length a) ->
  getitems a (arange start stop)
  = OK (firstn (Z.to_nat (stop - start)) (skipn (Z.to_nat start) a)).
Proof.
  intros H0 H1. unfold arange.
  destruct (Z.le_gt_cases stop start) as [Hle|Hgt].
  - rewrite seqZ_nil by lia. replace (Z.to_nat (stop - start)) with 0%nat by lia.
    reflexivity.
  - rewrite <- (Z2Nat.id start) at 1 by lia.
    rewrite <- (Z2Nat.id (stop - start)) at 1 by lia.
    apply getitems_seqZ. lia.
Qed.

(** ** The exclusion indices *)

Lemma elem_of_indices (i len_x j : Z) :
  j ∈ indices i len_x <-> 0 <= j < i - 1 \/ i + 1 <= j < len_x.
Proof.
  unfold indices, arange. rewrite elem_of_app, !elem_of_seqZ. lia.
Qed.

Lemma length_indices (i len_x : Z) :
  0 <= i < len_x ->
  length (indices i len_x) = Z.to_nat (Z.max 0 (i - 1) + (len_x - (i + 1))).
Proof.
  intros H. unfold indices, arange. rewrite length_app, !length_seqZ. lia.
Qed.

(** What [a[indices]] holds: the entries before position [i - 1] and the
    entries after position [i]. *)
Lemma getitems_indices {A} (a : list A) (i : Z) :
  0 <= i < Z.of_nat (length a) ->
  getitems a (indices i (Z.of_nat (length a)))
  = OK (firstn (Z.to_nat (i - 1)) a ++ skipn (Z.to_nat (i + 1)) a).
Proof.
  intros H. unfold indices, getitems.
  apply traverse_app.
  - fold (getitems a (arange 0 (i - 1))).
    rewrite getitems_arange by lia. simpl. do 2 f_equal. lia.
  - fold (getitems a (arange (i + 1) (Z.of_nat (length a)))).
    rewrite getitems_arange by lia. f_equal.
    apply take_ge. rewrite length_drop. lia.
Qed.

(** The refit of iteration [i], with the training arrays written out. *)
Lemma loo_term_training solver (M : matrix) (x y : vector) (i : Z) :
  length x = nrows M -> length y = nrows M ->
  0 <= i < Z.of_nat (nrows M) ->
  loo_term solver M x y i =
    (let* betas :=
       solver
         (Mat (ncols M)
            (firstn (Z.to_nat (i - 1)) (rows M)
               ++ skipn (Z.to_nat (i + 1)) (rows M)))
         (firstn (Z.to_nat (i - 1)) y ++ skipn (Z.to_nat (i + 1)) y) in
     let* r := row M i in
     let* y_out := matmul_vec r betas in
     let* y_i := getitem y i in
     OK ((y_i - y_out) ^ 2)%Q).
Proof.
  intros Hx Hy Hi. unfold loo_term, getrows.
  rewrite Hx. unfold nrows in *.
  rewrite <- Hx at 1. rewrite getitems_indices by lia. simpl.
  rewrite <- Hy at 1. rewrite getitems_indices by lia. simpl.
  rewrite getitems_indices by lia. reflexivity.
Qed.

(** C1, as the code has it: for every [i >= 1] the arrays passed to the
    solver are the rows before position [i - 1] followed by the rows after
    position [i]. Row [i - 1] is left out together with row [i], so the
    training set has [N - 2] rows; neither [i - 1] nor [i] is among the
    indices. *)
Theorem training_set_drops_two_rows solver (M : matrix) (x y : vector) (i : Z) :
  length x = nrows M -> length y = nrows M ->
  1 <= i < Z.of_nat (nrows M) ->
  let X_in := firstn (Z.to_nat (i - 1)) (rows M)
                ++ skipn (Z.to_nat (i + 1)) (rows M) in
  let y_in := firstn (Z.to_nat (i - 1)) y ++ skipn (Z.to_nat (i + 1)) y in
  loo_term solver M x y i =
    (let* betas := solver (Mat (ncols M) X_in) y_in in
     let* r := row M i in
     let* y_out := matmul_vec r betas in
     let* y_i := getitem y i in
     OK ((y_i - y_out) ^ 2)%Q)
  /\ length X_in = (nrows M - 2)%nat
  /\ length y_in = (nrows M - 2)%nat
  /\ ((i - 1) ∉ indices i (Z.of_nat (length x)))
  /\ (i ∉ indices i (Z.of_nat (length x))).
Proof.
  intros Hx Hy Hi X_in y_in. split; [|split; [|split; [|split]]].
  - apply loo_term_training; [assumption | assumption | lia].
  - subst X_in. unfold nrows in *.
    rewrite length_app, length_take, length_drop. lia.
  - subst y_in. rewrite length_app, length_take, length_drop. lia.
  - rewrite elem_of_indices. lia.
  - rewrite elem_of_indices. lia.
Qed.

(** The same iteration on three observations: with [i = 1] the solver sees
    the single row of index 2. *)
Lemma training_set_drops_two_rows_witness :
  (1 <= 1 < Z.of_nat (nrows (Mat 1 [[1%Q]; [2%Q]; [3%Q]])))
  /\ indices 1 3 = [2]
  /\ length (firstn (Z.to_nat (1 - 1)) [[1%Q]; [2%Q]; [3%Q]]
             ++ skipn (Z.to_nat (1 + 1)) [[1%Q]; [2%Q]; [3%Q]]) = 1%nat.
Proof.
  split; [unfold nrows; simpl; lia|]. split; [reflexivity|].
  exact (proj1 (proj2 (training_set_drops_two_rows
    (fun _ _ => Raise LinAlgError) (Mat 1 [[1%Q]; [2%Q]; [3%Q]])
    [0%Q; 1%Q; 2%Q] [5%Q; 6%Q; 7%Q] 1 eq_refl eq_refl
    (conj (Z.le_refl 1) eq_refl)))).
Defined.

(** For [i = 0] the first slice is empty and only row 0 is left out. *)
Lemma indices_first (len_x : Z) : indices 0 len_x = arange 1 len_x.
Proof. reflexivity. Qed.

(** ** The design matrix *)

Lemma slice_to_0 {A} (l : list A) : slice_to l 0 = [].
Proof.
  unfold slice_to. simpl.
  replace (Z.to_nat (Z.min 0 (Z.of_nat (length l)))) with 0%nat by lia.
  reflexivity.
Qed.

Lemma slice_to_inside {A} (l : list A) (k : Z) :
  0 <= k <= Z.of_nat (length l) -> slice_to l k = firstn (Z.to_nat k) l.
Proof.
  intros H. unfold slice_to.
  replace (k <? 0) with false by (symmetry; apply Z.ltb_ge; lia).
  f_equal. lia.
Qed.

(** A bound past the end is clamped: the slice is the whole list. *)
Lemma slice_to_clamped {A} (l : list A) (k : Z) :
  Z.of_nat (length l) <= k -> slice_to l k = l.
Proof.
  intros H. unfold slice_to.
  replace (k <? 0) with false by (symmetry; apply Z.ltb_ge; lia).
  apply take_ge. lia.
Qed.

Lemma vstack_uniform (tup : list vector) (N : nat) :
  tup <> [] -> Forall (fun v => length v = N) tup ->
  vstack tup = OK (Mat N tup).
Proof.
  intros Hne Hall. destruct tup as [|v vs]; [congruence|].
  inversion Hall as [|? ? Hv Hvs]; subst. simpl.
  replace (forallb (fun w => Nat.eqb (length w) (length v)) vs) with true;
    [reflexivity|].
  symmetry. apply forallb_forall. intros w Hw.
  rewrite Forall_forall in Hvs. apply Nat.eqb_eq.
  apply Hvs. apply list_elem_of_In. exact Hw.
Qed.

Lemma read_back (v : vector) :
  map (fun i => nth i v 0%Q) (seq 0 (length v)) = v.
Proof.
  induction v as [|a v IH]; [reflexivity|].
  simpl. f_equal. rewrite <- seq_shift, map_map. exact IH.
Qed.

(** Column [j] of [M.T] is row [j] of [M]. *)
Lemma column_transpose (M : matrix) (j : nat) (v : vector) :
  wf_matrix M -> rows M !! j = Some v -> column (transpose M) j = v.
Proof.
  intros Hwf Hj. unfold transpose, column. simpl. rewrite map_map.
  assert (Hlen : length v = ncols M).
  { unfold wf_matrix in Hwf. rewrite Forall_forall in Hwf.
    apply Hwf. eapply list_elem_of_lookup_2. exact Hj. }
  rewrite <- Hlen. rewrite <- (read_back v) at 2.
  apply map_ext. intros i.
  rewrite (nth_lookup_Some _ j 0%Q (nth i v 0%Q)); [reflexivity|].
  pose proof (list_lookup_fmap (fun r : vector => nth i r 0%Q) (rows M) j) as E.
  rewrite Hj in E. exact E.
Qed.

Lemma wf_transpose (M : matrix) : wf_matrix (transpose M).
Proof.
  unfold wf_matrix, transpose. simpl. apply Forall_forall.
  intros r Hr. apply list_elem_of_In in Hr. apply in_map_iff in Hr.
  destruct Hr as (j & <- & _). unfold column, nrows. apply length_map.
Qed.

(** The matrix built from the first [k] vectors, for [k] inside the list. *)
Lemma design_matrix_inside (basis_vectors : list vector) (N : nat) (k : Z) :
  Forall (fun v => length v = N) basis_vectors ->
  1 <= k <= Z.of_nat (length basis_vectors) ->
  design_matrix basis_vectors k
  = OK (transpose (Mat N (firstn (Z.to_nat k) basis_vectors))).
Proof.
  intros Hall Hk. unfold design_matrix.
  rewrite slice_to_inside by lia.
  rewrite (vstack_uniform _ N); [reflexivity| |].
  - intros E. apply (f_equal (@length vector)) in E.
    rewrite length_take in E. simpl in E. lia.
  - apply Forall_take. exact Hall.
Qed.

(** C6: for [1 <= k <= len(basis_vectors)] and basis vectors of a common
    length [N], the design matrix is an [N]-by-[k] matrix whose column [j]
    is [basis_vectors[j]], for every [j < k]. *)
Theorem design_matrix_columns (basis_vectors : list vector) (N : nat) (k : Z) :
  Forall (fun v => length v = N) basis_vectors ->
  1 <= k <= Z.of_nat (length basis_vectors) ->
  exists M, design_matrix basis_vectors k = OK M
    /\ nrows M = N
    /\ ncols M = Z.to_nat k
    /\ wf_matrix M
    /\ forall j, (j < Z.to_nat k)%nat ->
         basis_vectors !! j = Some (column M j).
Proof.
  intros Hall Hk. eexists. split; [apply (design_matrix_inside _ N); assumption|].
  split; [|split; [|split]].
  - unfold nrows, transpose. simpl. rewrite length_map, length_seq. reflexivity.
  - unfold transpose, nrows. simpl. rewrite length_take. lia.
  - apply wf_transpose.
  - intros j Hj.
    destruct (lookup_lt_is_Some_2 basis_vectors j) as [v Hv]; [lia|].
    rewrite Hv. f_equal. symmetry. apply column_transpose.
    + unfold wf_matrix. simpl. apply Forall_take. exact Hall.
    + simpl. rewrite lookup_take_lt by lia. exact Hv.
Qed.

Lemma design_matrix_columns_witness :
  exists M, design_matrix [[1; 1; 1]; [0; 1; 2]; [0; 1; 4]]%Q 2 = OK M
    /\ nrows M = 3%nat
    /\ ncols M = 2%nat
    /\ wf_matrix M
    /\ forall j, (j < 2)%nat ->
         ([[1; 1; 1]; [0; 1; 2]; [0; 1; 4]]%Q : list vector) !! j
         = Some (column M j).
Proof.
  apply (design_matrix_columns [[1; 1; 1]; [0; 1; 2]; [0; 1; 4]]%Q 3 2).
  - repeat constructor.
  - simpl. lia.
Defined.

(** C2 does not hold for a count past the end of the list: the slice is
    clamped, and with two basis vectors [k = 3] builds the same matrix as
    [k = 2]. *)
Lemma design_matrix_past_end_succeeds :
  design_matrix [[1; 2]; [3; 4]]%Q 3 = OK (Mat 2 [[1; 3]; [2; 4]]%Q).
Proof. reflexivity. Qed.

(** C2, amended: on a non-empty collection of basis vectors of a common
    length, [k = 0] raises ([np.vstack] has nothing to stack), every
    [k >= 1] succeeds, and a [k] past the end gives the matrix of all the
    basis vectors. *)
Theorem design_matrix_count (basis_vectors : list vector) (N : nat) :
  basis_vectors <> [] ->
  Forall (fun v => length v = N) basis_vectors ->
  design_matrix basis_vectors 0 = Raise ValueError
  /\ (forall k, 1 <= k -> succeeds (design_matrix basis_vectors k))
  /\ (forall k, Z.of_nat (length basis_vectors) <= k ->
        design_matrix basis_vectors k
        = design_matrix basis_vectors (Z.of_nat (length basis_vectors))).
Proof.
  intros Hne Hall.
  assert (Hlen : (0 < length basis_vectors)%nat).
  { destruct basis_vectors; [congruence | simpl; lia]. }
  split; [|split].
  - unfold design_matrix. rewrite slice_to_0. reflexivity.
  - intros k Hk. destruct (Z.le_gt_cases k (Z.of_nat (length basis_vectors))).
    + eexists. apply (design_matrix_inside _ N); [assumption | lia].
    + unfold design_matrix. rewrite slice_to_clamped by lia.
      rewrite (vstack_uniform _ N) by assumption. eexists. reflexivity.
  - intros k Hk. unfold design_matrix.
    rewrite !slice_to_clamped by lia. reflexivity.
Qed.

Lemma design_matrix_count_witness :
  design_matrix [[1; 2]; [3; 4]]%Q 0 = Raise ValueError
  /\ succeeds (design_matrix [[1; 2]; [3; 4]]%Q 1)
  /\ design_matrix [[1; 2]; [3; 4]]%Q 5 = design_matrix [[1; 2]; [3; 4]]%Q 2.
Proof.
  destruct (design_matrix_count [[1; 2]; [3; 4]]%Q 2) as (H0 & H1 & H2).
  - discriminate.
  - repeat constructor.
  - split; [exact H0|]. split; [apply H1; lia|]. apply (H2 5). simpl. lia.
Defined.

(** ** Linear algebra for the solver *)

Local Open Scope Q_scope.

(** ** Finite sums *)

Lemma sumf_ext (f g : nat -> Q) (n : nat) :
  (forall i, (i < n)%nat -> f i == g i) -> sumf f n == sumf g n.
Proof.
  induction n as [|n IH]; intros H; simpl; [reflexivity|].
  rewrite IH by (intros; apply H; lia). rewrite (H n) by lia. reflexivity.
Qed.

Lemma sumf_zero (f : nat -> Q) (n : nat) :
  (forall i, (i < n)%nat -> f i == 0) -> sumf f n == 0.
Proof.
  induction n as [|n IH]; intros H; simpl; [reflexivity|].
  rewrite IH by (intros; apply H; lia). rewrite (H n) by lia. lra.
Qed.

Lemma sumf_plus (f g : nat -> Q) (n : nat) :
  sumf (fun i => f i + g i) n == sumf f n + sumf g n.
Proof. induction n as [|n IH]; simpl; [lra|]. rewrite IH. lra. Qed.

Lemma sumf_minus (f g : nat -> Q) (n : nat) :
  sumf (fun i => f i - g i) n == sumf f n - sumf g n.
Proof. induction n as [|n IH]; simpl; [lra|]. rewrite IH. lra. Qed.

Lemma sumf_scal (c : Q) (f : nat -> Q) (n : nat) :
  sumf (fun i => c * f i) n == c * sumf f n.
Proof. induction n as [|n IH]; simpl; [lra|]. rewrite IH. lra. Qed.

Lemma sumf_scal_r (c : Q) (f : nat -> Q) (n : nat) :
  sumf (fun i => f i * c) n == sumf f n * c.
Proof. induction n as [|n IH]; simpl; [lra|]. rewrite IH. lra. Qed.

Lemma sumf_exchange (f : nat -> nat -> Q) (n m : nat) :
  sumf (fun i => sumf (fun j => f i j) m) n
  == sumf (fun j => sumf (fun i => f i j) n) m.
Proof.
  induction n as [|n IH]; simpl.
  - symmetry. apply sumf_zero. reflexivity.
  - rewrite IH. rewrite <- sumf_plus. reflexivity.
Qed.

Lemma sumf_delta (f : nat -> Q) (n k : nat) :
  (k < n)%nat -> (forall i, (i < n)%nat -> i <> k -> f i == 0) ->
  sumf f n == f k.
Proof.
  induction n as [|n IH]; intros Hk H; [lia|]. simpl.
  destruct (Nat.eq_dec k n) as [->|Hne].
  - rewrite sumf_zero by (intros; apply H; lia). lra.
  - rewrite IH by (try lia; intros; apply H; lia).
    rewrite (H n) by lia. lra.
Qed.

Lemma sumf_shift (f : nat -> Q) (n : nat) :
  sumf f (S n) == f O + sumf (fun i => f (S i)) n.
Proof.
  induction n as [|n IH]; [simpl; lra|].
  change (sumf f (S (S n))) with (sumf f (S n) + f (S n)).
  rewrite IH. simpl. lra.
Qed.

Lemma sumf_nonneg (f : nat -> Q) (n : nat) :
  (forall i, (i < n)%nat -> 0 <= f i) -> 0 <= sumf f n.
Proof.
  induction n as [|n IH]; intros H; simpl; [lra|].
  specialize (IH ltac:(intros; apply H; lia)). specialize (H n ltac:(lia)). lra.
Qed.

Lemma sumf_nonneg_zero (f : nat -> Q) (n : nat) :
  (forall i, (i < n)%nat -> 0 <= f i) -> sumf f n == 0 ->
  forall i, (i < n)%nat -> f i == 0.
Proof.
  induction n as [|n IH]; intros H E i Hi; [lia|]. simpl in E.
  assert (H1 : 0 <= sumf f n) by (apply sumf_nonneg; intros; apply H; lia).
  assert (H2 : 0 <= f n) by (apply H; lia).
  destruct (Nat.eq_dec i n) as [->|Hne]; [lra|].
  apply IH; [intros; apply H; lia | lra | lia].
Qed.

#[local] Instance sumf_proper :
  Proper (pointwise_relation nat Qeq ==> eq ==> Qeq) sumf.
Proof.
  intros f g Hfg n ? <-. apply sumf_ext. intros i _. apply Hfg.
Qed.

(** ** Vectors by their entries *)

Lemma entry_vscale (c : Q) (v : vector) (j : nat) :
  entry (vscale c v) j == c * entry v j.
Proof.
  unfold entry, vscale. revert j. induction v as [|a v IH]; intros [|j]; simpl;
    try lra. apply IH.
Qed.

Lemma entry_vsub (u v : vector) (j : nat) :
  length u = length v -> entry (vsub u v) j == entry u j - entry v j.
Proof.
  unfold entry, vsub. revert v j.
  induction u as [|a u IH]; intros [|b v] [|j] H; simpl in *; try lra; try lia.
  apply IH. lia.
Qed.

Lemma length_vscale (c : Q) (v : vector) : length (vscale c v) = length v.
Proof. apply length_map. Qed.

Lemma length_vsub (u v : vector) :
  length u = length v -> length (vsub u v) = length u.
Proof.
  intros H. unfold vsub. rewrite length_map, length_combine. lia.
Qed.

Lemma entry_eliminate (j : nat) (p r : vector) (q : nat) :
  length r = length p ->
  entry (eliminate j p r) q == entry r q - entry r j * entry p q.
Proof.
  intros H. unfold eliminate. rewrite entry_vsub by (rewrite length_vscale; exact H).
  rewrite entry_vscale. reflexivity.
Qed.

Lemma length_eliminate (j : nat) (p r : vector) :
  length r = length p -> length (eliminate j p r) = length r.
Proof.
  intros H. unfold eliminate. apply length_vsub. rewrite length_vscale. exact H.
Qed.

Lemma entry_map_seq (f : nat -> Q) (n j : nat) :
  (j < n)%nat -> entry (map f (seq 0 n)) j = f j.
Proof.
  intros H. unfold entry.
  rewrite (nth_indep _ 0 (f 0%nat)) by (rewrite length_map, length_seq; exact H).
  rewrite (map_nth f). rewrite seq_nth by exact H. reflexivity.
Qed.

Lemma inner_sumf (u v : vector) (n : nat) :
  length u = n -> length v = n ->
  inner u v == sumf (fun i => entry u i * entry v i) n.
Proof.
  revert v n. induction u as [|a u IH]; intros [|b v] n Hu Hv;
    simpl in *; subst n; try discriminate; [reflexivity|].
  rewrite sumf_shift. simpl. unfold entry at 1 2. simpl.
  rewrite (IH v (length u)) by lia. reflexivity.
Qed.

(** ** Linear functionals and row spaces *)

Lemma delta_eq i : delta i i = 1.
Proof. unfold delta. rewrite Nat.eqb_refl. reflexivity. Qed.

Lemma delta_ne i j : i <> j -> delta i j = 0.
Proof. intros H. unfold delta. apply Nat.eqb_neq in H. rewrite H. reflexivity. Qed.

Lemma lin_eliminate n c j p r :
  length r = length p ->
  lin n c (eliminate j p r) == lin n c r - entry r j * lin n c p.
Proof.
  intros H. unfold lin.
  rewrite <- sumf_scal, <- sumf_minus. apply sumf_ext. intros q _.
  rewrite entry_eliminate by exact H. ring.
Qed.

Lemma lin_vscale n c a v : lin n c (vscale a v) == a * lin n c v.
Proof.
  unfold lin. rewrite <- sumf_scal. apply sumf_ext. intros q _.
  rewrite entry_vscale. ring.
Qed.

Lemma lin_pick n p v :
  (p < n)%nat -> lin n (fun q => delta q p) v == entry v p.
Proof.
  intros H. unfold lin. rewrite (sumf_delta _ n p H).
  - rewrite delta_eq. ring.
  - intros i _ Hi. rewrite delta_ne by exact Hi. ring.
Qed.

Lemma lin_plus n c1 c2 v :
  lin n (fun q => c1 q + c2 q) v == lin n c1 v + lin n c2 v.
Proof.
  unfold lin. rewrite <- sumf_plus. apply sumf_ext. intros q _. ring.
Qed.

Lemma lin_minus n c1 c2 v :
  lin n (fun q => c1 q - c2 q) v == lin n c1 v - lin n c2 v.
Proof.
  unfold lin. rewrite <- sumf_minus. apply sumf_ext. intros q _. ring.
Qed.

Lemma lin_sum n r (g : nat -> nat -> Q) v :
  lin n (fun q => sumf (fun k => g k q) r) v
  == sumf (fun k => lin n (g k) v) r.
Proof.
  unfold lin. rewrite sumf_exchange. apply sumf_ext. intros q _.
  rewrite <- sumf_scal_r. reflexivity.
Qed.

Lemma lin_scal n a c v : lin n (fun q => a * c q) v == a * lin n c v.
Proof.
  unfold lin. rewrite <- sumf_scal. apply sumf_ext. intros q _. ring.
Qed.

(** The functional that reads the entries at the positions [p k] with
    weights [z k]. *)
Lemma lin_picks n r (z : nat -> Q) (p : nat -> nat) v :
  (forall k, (k < r)%nat -> (p k < n)%nat) ->
  lin n (fun q => sumf (fun k => z k * delta q (p k)) r) v
  == sumf (fun k => z k * entry v (p k)) r.
Proof.
  intros Hp. rewrite lin_sum. apply sumf_ext. intros k Hk.
  rewrite lin_scal, lin_pick by (apply Hp; exact Hk). reflexivity.
Qed.

Lemma below_refl n S : below n S S.
Proof. intros c H. exact H. Qed.

Lemma below_trans n S T U : below n S T -> below n T U -> below n S U.
Proof. intros H1 H2 c H. apply H2, H1, H. Qed.

(** ** Pivot search *)

Lemma find_pivot_None j rs :
  find_pivot j rs = None -> forall r, r ∈ rs -> entry r j == 0.
Proof.
  induction rs as [|r0 rs IH]; simpl; intros H r Hr.
  - inversion Hr.
  - destruct (Qeq_bool (entry r0 j) 0) eqn:E; [|discriminate].
    destruct (find_pivot j rs) as [[p others]|]; [discriminate|].
    apply elem_of_cons in Hr. destruct Hr as [->|Hr].
    + apply Qeq_bool_eq. exact E.
    + apply IH; [reflexivity | exact Hr].
Qed.

Lemma find_pivot_Some j rs p others :
  find_pivot j rs = Some (p, others) ->
  ~ entry p j == 0 /\ rs ≡ₚ p :: others.
Proof.
  revert p others. induction rs as [|r0 rs IH]; simpl; intros p others H.
  - discriminate.
  - destruct (Qeq_bool (entry r0 j) 0) eqn:E.
    + destruct (find_pivot j rs) as [[p' others']|]; [|discriminate].
      inversion H; subst. destruct (IH p others' eq_refl) as [Hp Hperm].
      split; [exact Hp|]. rewrite Hperm. apply Permutation_swap.
    + inversion H; subst. split; [|reflexivity].
      apply Qeq_bool_neq. exact E.
Qed.

(** ** The invariant of Gauss-Jordan elimination *)

Lemma gj_inv_init n rows0 :
  (forall r, r ∈ rows0 -> length r = n) -> gj_inv n rows0 0 [] rows0.
Proof.
  intros H. split; simpl.
  - intros cr Hcr. inversion Hcr.
  - exact H.
  - intros k l ck cl Hk. rewrite lookup_nil in Hk. discriminate.
  - intros t q _ Hq. lia.
  - apply below_refl.
  - apply below_refl.
  - reflexivity.
Qed.

Lemma gj_inv_skip n rows0 j reduced todo :
  gj_inv n rows0 j reduced todo ->
  find_pivot j todo = None ->
  gj_inv n rows0 (S j) reduced todo.
Proof.
  intros [H1 H2 H3 H4 H5 H6 H7] Hnone. split; try assumption.
  - intros cr Hcr. destruct (H1 cr Hcr). split; [assumption | lia].
  - intros t q Ht Hq. destruct (Nat.eq_dec q j) as [->|Hne].
    + eapply find_pivot_None; eassumption.
    + apply H4; [exact Ht | lia].
Qed.

Ltac len_tac := congruence.

Section Step.

Variables (n j : nat) (rows0 : list vector).
Variables (reduced : list (nat * vector)) (todo others : list vector).
Variable p : vector.

Hypothesis Hinv : gj_inv n rows0 j reduced todo.
Hypothesis Hfind : find_pivot j todo = Some (p, others).

Let p' := vscale (/ entry p j) p.
Let reduced' :=
  map (fun cr => (fst cr, eliminate j p' (snd cr))) reduced ++ [(j, p')].
Let todo' := map (eliminate j p') others.

Lemma step_p_todo : p ∈ todo.
Proof.
  destruct (find_pivot_Some _ _ _ _ Hfind) as [_ Hperm].
  rewrite Hperm. left.
Qed.

Lemma step_others_todo t : t ∈ others -> t ∈ todo.
Proof.
  destruct (find_pivot_Some _ _ _ _ Hfind) as [_ Hperm].
  rewrite Hperm. intros H. right. exact H.
Qed.

Lemma step_todo_cases t : t ∈ todo -> t = p \/ t ∈ others.
Proof.
  destruct (find_pivot_Some _ _ _ _ Hfind) as [_ Hperm].
  rewrite Hperm. intros H. apply elem_of_cons in H. exact H.
Qed.

Lemma step_p_nonzero : ~ entry p j == 0.
Proof. apply (find_pivot_Some _ _ _ _ Hfind). Qed.

Lemma step_len_p : length p = n.
Proof. apply (inv_todo_len _ _ _ _ _ Hinv). apply step_p_todo. Qed.

Lemma step_len_p' : length p' = n.
Proof. unfold p'. rewrite length_vscale. apply step_len_p. Qed.

Lemma step_p'_pivot : entry p' j == 1.
Proof.
  unfold p'. rewrite entry_vscale. field. apply step_p_nonzero.
Qed.

Lemma step_p'_before q : (q < j)%nat -> entry p' q == 0.
Proof.
  intros Hq. unfold p'. rewrite entry_vscale.
  rewrite (inv_todo_zero _ _ _ _ _ Hinv p q step_p_todo Hq). ring.
Qed.

Lemma step_lin_p' c : lin n c p' == / entry p j * lin n c p.
Proof. unfold p'. apply lin_vscale. Qed.

Lemma step_lin_p c : lin n c p == entry p j * lin n c p'.
Proof. rewrite step_lin_p'. field. apply step_p_nonzero. Qed.

Lemma step_reduced'_lookup k ck :
  reduced' !! k = Some ck ->
  (exists ck0, reduced !! k = Some ck0 /\ (k < length reduced)%nat
               /\ ck = (fst ck0, eliminate j p' (snd ck0)))
  \/ (k = length reduced /\ ck = (j, p')).
Proof.
  unfold reduced'. intros H.
  apply lookup_app_Some in H. destruct H as [H|[Hlen H]].
  - left. rewrite list_lookup_fmap in H.
    destruct (reduced !! k) as [ck0|] eqn:E; [|discriminate].
    simpl in H. inversion H. exists ck0. split; [reflexivity|].
    split; [|reflexivity]. eapply lookup_lt_Some. exact E.
  - right. rewrite length_map in *.
    destruct (k - length reduced)%nat as [|d] eqn:E; simpl in H;
      [|rewrite lookup_nil in H; discriminate].
    inversion H. split; [lia | reflexivity].
Qed.

Lemma gj_inv_step : gj_inv n rows0 (S j) reduced' todo'.
Proof.
  pose proof step_len_p' as Hlp'.
  split.
  - (* lengths and pivot bounds of the reduced rows *)
    intros cr Hcr. apply list_elem_of_lookup in Hcr. destruct Hcr as [k Hk].
    apply step_reduced'_lookup in Hk.
    destruct Hk as [(ck0 & Hk0 & _ & ->)|[_ ->]]; simpl.
    + destruct (inv_red_len _ _ _ _ _ Hinv ck0) as [Hl Hp].
      { eapply list_elem_of_lookup_2. exact Hk0. }
      split; [|exact (Nat.lt_lt_succ_r _ _ Hp)]. rewrite length_eliminate; len_tac.
    + split; [exact Hlp' | lia].
  - (* lengths of the remaining rows *)
    intros t Ht. unfold todo' in Ht. apply list_elem_of_fmap in Ht.
    destruct Ht as (t0 & -> & Ht0).
    pose proof (inv_todo_len _ _ _ _ _ Hinv t0 (step_others_todo _ Ht0)).
    rewrite length_eliminate; len_tac.
  - (* unit entries at the pivot columns *)
    intros k l ck cl Hk Hl.
    apply step_reduced'_lookup in Hk. apply step_reduced'_lookup in Hl.
    destruct Hk as [(ck0 & Hk0 & Hklt & ->)|[-> ->]];
      destruct Hl as [(cl0 & Hl0 & Hllt & ->)|[-> ->]]; simpl.
    + destruct (inv_red_len _ _ _ _ _ Hinv ck0) as [Hlk _].
      { eapply list_elem_of_lookup_2. exact Hk0. }
      destruct (inv_red_len _ _ _ _ _ Hinv cl0) as [_ Hpl].
      { eapply list_elem_of_lookup_2. exact Hl0. }
      rewrite entry_eliminate by len_tac.
      rewrite (inv_unit _ _ _ _ _ Hinv k l ck0 cl0 Hk0 Hl0).
      rewrite (step_p'_before _ Hpl). ring.
    + destruct (inv_red_len _ _ _ _ _ Hinv ck0) as [Hlk _].
      { eapply list_elem_of_lookup_2. exact Hk0. }
      rewrite entry_eliminate by len_tac.
      rewrite step_p'_pivot. rewrite delta_ne by lia. ring.
    + destruct (inv_red_len _ _ _ _ _ Hinv cl0) as [_ Hpl].
      { eapply list_elem_of_lookup_2. exact Hl0. }
      rewrite (step_p'_before _ Hpl). rewrite delta_ne by lia. reflexivity.
    + rewrite step_p'_pivot, delta_eq. reflexivity.
  - (* the remaining rows vanish on the processed columns *)
    intros t q Ht Hq. unfold todo' in Ht. apply list_elem_of_fmap in Ht.
    destruct Ht as (t0 & -> & Ht0).
    pose proof (step_others_todo _ Ht0) as Ht0'.
    pose proof (inv_todo_len _ _ _ _ _ Hinv t0 Ht0').
    rewrite entry_eliminate by len_tac.
    destruct (Nat.eq_dec q j) as [->|Hne].
    + rewrite step_p'_pivot. ring.
    + rewrite (inv_todo_zero _ _ _ _ _ Hinv t0 q Ht0') by lia.
      rewrite step_p'_before by lia. ring.
  - (* the new rows are combinations of the original rows *)
    intros c Hc. pose proof (inv_below _ _ _ _ _ Hinv c Hc) as Hcur.
    assert (Hp' : lin n c p' == 0).
    { rewrite step_lin_p'. rewrite (Hcur p).
      - ring.
      - apply elem_of_app. right. apply step_p_todo. }
    intros s Hs. apply elem_of_app in Hs. destruct Hs as [Hs|Hs].
    + apply list_elem_of_fmap in Hs. destruct Hs as (cr & -> & Hcr).
      apply list_elem_of_lookup in Hcr. destruct Hcr as [k Hk].
      apply step_reduced'_lookup in Hk.
      destruct Hk as [(ck0 & Hk0 & _ & ->)|[_ ->]]; simpl; [|exact Hp'].
      destruct (inv_red_len _ _ _ _ _ Hinv ck0) as [Hlk _].
      { eapply list_elem_of_lookup_2. exact Hk0. }
      rewrite lin_eliminate by len_tac. rewrite Hp'.
      rewrite (Hcur (snd ck0)); [ring|].
      apply elem_of_app. left. apply list_elem_of_fmap.
      exists ck0. split; [reflexivity|].
      eapply list_elem_of_lookup_2. exact Hk0.
    + unfold todo' in Hs. apply list_elem_of_fmap in Hs.
      destruct Hs as (t0 & -> & Ht0).
      pose proof (step_others_todo _ Ht0) as Ht0'.
      pose proof (inv_todo_len _ _ _ _ _ Hinv t0 Ht0').
      rewrite lin_eliminate by len_tac. rewrite Hp'.
      rewrite (Hcur t0); [ring|]. apply elem_of_app. right. exact Ht0'.
  - (* the original rows are combinations of the new rows *)
    apply (below_trans n _ (map snd reduced ++ todo));
      [|apply (inv_above _ _ _ _ _ Hinv)].
    intros c Hc.
    assert (Hp' : lin n c p' == 0).
    { apply Hc. apply elem_of_app. left. apply list_elem_of_fmap.
      exists (j, p'). split; [reflexivity|]. unfold reduced'.
      apply elem_of_app. right. left. }
    intros s Hs. apply elem_of_app in Hs. destruct Hs as [Hs|Hs].
    + apply list_elem_of_fmap in Hs. destruct Hs as (cr & -> & Hcr).
      destruct (inv_red_len _ _ _ _ _ Hinv cr Hcr) as [Hlk _].
      assert (E : lin n c (eliminate j p' (snd cr)) == 0).
      { apply Hc. apply elem_of_app. left. apply list_elem_of_fmap.
        exists (fst cr, eliminate j p' (snd cr)). split; [reflexivity|].
        unfold reduced'. apply elem_of_app. left.
        apply list_elem_of_fmap. exists cr. split; [reflexivity | exact Hcr]. }
      rewrite lin_eliminate in E by len_tac. rewrite Hp' in E. lra.
    + apply step_todo_cases in Hs. destruct Hs as [->|Hs].
      * rewrite step_lin_p, Hp'. ring.
      * pose proof (inv_todo_len _ _ _ _ _ Hinv s (step_others_todo _ Hs)).
        assert (E : lin n c (eliminate j p' s) == 0).
        { apply Hc. apply elem_of_app. right. unfold todo'.
          apply list_elem_of_fmap. exists s. split; [reflexivity | exact Hs]. }
        rewrite lin_eliminate in E by len_tac. rewrite Hp' in E. lra.
  - (* the number of rows *)
    unfold reduced', todo'. rewrite length_app, !length_map. simpl.
    destruct (find_pivot_Some _ _ _ _ Hfind) as [_ Hperm].
    pose proof (inv_count _ _ _ _ _ Hinv) as Hc.
    rewrite (Permutation_length Hperm) in Hc. simpl in Hc. lia.
Qed.

End Step.

(** The invariant after a run over the columns [j0, j0 + len). *)
Lemma gj_inv_run n rows0 len j0 reduced todo R T :
  gj_inv n rows0 j0 reduced todo ->
  gauss_jordan (seq j0 len) reduced todo = (R, T) ->
  gj_inv n rows0 (j0 + len) R T.
Proof.
  revert j0 reduced todo. induction len as [|len IH]; intros j0 reduced todo Hinv Hrun.
  - simpl in Hrun. inversion Hrun; subst. rewrite Nat.add_0_r. exact Hinv.
  - simpl in Hrun. replace (j0 + S len)%nat with (S j0 + len)%nat by lia.
    destruct (find_pivot j0 todo) as [[p others]|] eqn:E.
    + eapply IH; [|exact Hrun]. eapply gj_inv_step; eassumption.
    + eapply IH; [|exact Hrun]. apply gj_inv_skip; assumption.
Qed.

(** ** Reading the pivot rows *)

Lemma lookup_piv_prow (R : list (nat * vector)) k :
  (k < length R)%nat -> R !! k = Some (piv R k, prow R k).
Proof.
  intros H. destruct (lookup_lt_is_Some_2 R k H) as [ck Hck].
  unfold piv, prow. rewrite (nth_lookup_Some _ _ _ _ Hck).
  rewrite Hck. destruct ck. reflexivity.
Qed.

Lemma piv_full (R : list (nat * vector)) j k :
  map fst R = seq 0 j -> (k < j)%nat -> piv R k = k.
Proof.
  intros H Hk. unfold piv.
  change (fst (nth k R (0%nat, []))) with (fst (nth k R (fst (0%nat, @nil Q), []))).
  rewrite <- (map_nth fst). rewrite H. rewrite seq_nth by exact Hk. reflexivity.
Qed.

Lemma length_full (R : list (nat * vector)) j :
  map fst R = seq 0 j -> length R = j.
Proof.
  intros H. apply (f_equal (@length nat)) in H.
  rewrite length_map, length_seq in H. exact H.
Qed.

Section Unit.

Variables (n j0 : nat) (rows0 : list vector).
Variables (R : list (nat * vector)) (T : list vector).
Hypothesis Hinv : gj_inv n rows0 j0 R T.

Lemma prow_unit k l :
  (k < length R)%nat -> (l < length R)%nat ->
  entry (prow R k) (piv R l) == delta k l.
Proof.
  intros Hk Hl.
  apply (inv_unit _ _ _ _ _ Hinv k l (piv R k, prow R k) (piv R l, prow R l));
    apply lookup_piv_prow; assumption.
Qed.

(** When every column so far is a pivot column, the pivot rows restricted
    to those columns form the identity. *)
Lemma prow_unit_full j k l :
  map fst R = seq 0 j -> (k < j)%nat -> (l < j)%nat ->
  entry (prow R k) l == delta k l.
Proof.
  intros Hfull Hk Hl. pose proof (length_full _ _ Hfull) as Hlen.
  pose proof (prow_unit k l ltac:(lia) ltac:(lia)) as U.
  rewrite (piv_full R j l Hfull Hl) in U. exact U.
Qed.

Lemma prow_length k : (k < length R)%nat -> length (prow R k) = n.
Proof.
  intros Hk.
  apply (inv_red_len _ _ _ _ _ Hinv (piv R k, prow R k)).
  eapply list_elem_of_lookup_2. apply lookup_piv_prow. exact Hk.
Qed.

Lemma piv_bound k : (k < length R)%nat -> (piv R k < j0)%nat.
Proof.
  intros Hk.
  apply (inv_red_len _ _ _ _ _ Hinv (piv R k, prow R k)).
  eapply list_elem_of_lookup_2. apply lookup_piv_prow. exact Hk.
Qed.

Lemma prow_elem k : (k < length R)%nat -> prow R k ∈ map snd R ++ T.
Proof.
  intros Hk. apply elem_of_app. left. apply list_elem_of_fmap.
  exists (piv R k, prow R k). split; [reflexivity|].
  eapply list_elem_of_lookup_2. apply lookup_piv_prow. exact Hk.
Qed.

(** A functional vanishes on the current rows as soon as it vanishes on
    each pivot row and each remaining row. *)
Lemma annihilates_current c :
  (forall k, (k < length R)%nat -> lin n c (prow R k) == 0) ->
  (forall t, t ∈ T -> lin n c t == 0) ->
  annihilates n c (map snd R ++ T).
Proof.
  intros HR HT s Hs. apply elem_of_app in Hs. destruct Hs as [Hs|Hs].
  - apply list_elem_of_fmap in Hs. destruct Hs as (cr & -> & Hcr).
    apply list_elem_of_lookup in Hcr. destruct Hcr as [k Hk].
    pose proof (lookup_lt_Some _ _ _ Hk) as Hlt.
    rewrite (lookup_piv_prow R k Hlt) in Hk. inversion Hk. simpl.
    apply HR. exact Hlt.
  - apply HT. exact Hs.
Qed.

End Unit.

(** ** Square systems *)

Lemma entry_app_l (u v : vector) q :
  (q < length u)%nat -> entry (u ++ v) q = entry u q.
Proof. intros H. unfold entry. apply app_nth1. exact H. Qed.

Lemma entry_snoc (u : vector) a : entry (u ++ [a]) (length u) = a.
Proof. unfold entry. rewrite app_nth2 by lia. rewrite Nat.sub_diag. reflexivity. Qed.

Lemma lin_snoc n c (u : vector) a :
  length u = n -> lin (S n) c (u ++ [a]) == lin n c u + c n * a.
Proof.
  intros H. unfold lin. simpl. subst n. rewrite entry_snoc.
  rewrite (sumf_ext _ (fun q => c q * entry u q)); [reflexivity|].
  intros q Hq. rewrite entry_app_l by exact Hq. reflexivity.
Qed.

Lemma lookup_combine_entry (G : list vector) (c : vector) i g a :
  combine G c !! i = Some (g, a) <->
  G !! i = Some g /\ a = entry c i /\ (i < length c)%nat.
Proof.
  revert c i. induction G as [|g0 G IH]; intros [|a0 c] [|i]; simpl;
    try (split; [discriminate | intros (H1 & H2 & H3); (discriminate || lia)]).
  - unfold entry. simpl. split.
    + intros H. inversion H. repeat split. lia.
    + intros (H1 & -> & _). inversion H1. reflexivity.
  - rewrite IH. unfold entry. simpl. split.
    + intros (H1 & H2 & H3). repeat split; [assumption | assumption | lia].
    + intros (H1 & H2 & H3). repeat split; [assumption | assumption | lia].
Qed.

Lemma elem_of_augment G c row :
  row ∈ augment G c <->
  exists i g, G !! i = Some g /\ row = g ++ [entry c i] /\ (i < length c)%nat.
Proof.
  unfold augment. rewrite list_elem_of_fmap. split.
  - intros ([g a] & -> & H). apply list_elem_of_lookup in H.
    destruct H as [i Hi]. apply lookup_combine_entry in Hi.
    destruct Hi as (H1 & -> & H3). exists i, g. simpl. auto.
  - intros (i & g & H1 & -> & H3). exists (g, entry c i).
    split; [reflexivity|]. apply list_elem_of_lookup. exists i.
    apply lookup_combine_entry. auto.
Qed.

Lemma length_augment G c :
  length c = length G -> length (augment G c) = length G.
Proof.
  intros H. unfold augment. rewrite length_map, length_combine. lia.
Qed.

Section Solve.

Variables (G : list vector) (c0 : vector).
Let n := length G.
Hypothesis HG : forall g, g ∈ G -> length g = n.
Hypothesis Hc : length c0 = n.
Hypothesis Hns : nonsingular G.
Let rows0 := augment G c0.

Lemma solve_rows_len r : r ∈ rows0 -> length r = S n.
Proof.
  intros H. apply elem_of_augment in H. destruct H as (i & g & Hg & -> & _).
  rewrite length_app. simpl. rewrite (HG g); [lia|].
  eapply list_elem_of_lookup_2. exact Hg.
Qed.

(** A functional on the augmented rows that ignores the right-hand side
    and vanishes on them is zero on the unknowns. *)
Lemma solve_no_null c :
  annihilates (S n) c rows0 -> c n == 0 ->
  forall q, (q < n)%nat -> c q == 0.
Proof.
  intros Hann Hcn. apply Hns. intros g Hg.
  apply list_elem_of_lookup in Hg. destruct Hg as [i Hi].
  pose proof (lookup_lt_Some _ _ _ Hi) as Hlt.
  assert (Hrow : g ++ [entry c0 i] ∈ rows0).
  { apply elem_of_augment. exists i, g. repeat split; [exact Hi|].
    rewrite Hc. exact Hlt. }
  specialize (Hann _ Hrow).
  rewrite lin_snoc in Hann.
  - fold n. rewrite Hcn in Hann. lra.
  - apply HG. eapply list_elem_of_lookup_2. exact Hi.
Qed.

Lemma solve_pivot_exists j reduced todo :
  gj_inv (S n) rows0 j reduced todo ->
  map fst reduced = seq 0 j -> (j < n)%nat ->
  find_pivot j todo <> None.
Proof.
  intros Hinv Hfull Hj Hnone.
  pose proof (length_full _ _ Hfull) as Hlen.
  set (c1 := fun q => if (q <? j)%nat then - entry (prow reduced q) j else 0).
  set (c := fun q => c1 q + delta q j).
  assert (Hann : annihilates (S n) c (map snd reduced ++ todo)).
  { apply annihilates_current.
    - intros k Hk. unfold c. rewrite lin_plus.
      rewrite lin_pick by lia.
      assert (E : lin (S n) c1 (prow reduced k)
                  == c1 k * entry (prow reduced k) k).
      { unfold lin.
        apply (sumf_delta (fun q => c1 q * entry (prow reduced k) q));
          [lia|].
        intros q Hq Hne. unfold c1.
        destruct (q <? j)%nat eqn:E; [|ring].
        apply Nat.ltb_lt in E.
        rewrite (prow_unit_full _ _ _ _ _ Hinv j k q Hfull) by lia.
        rewrite delta_ne by lia. ring. }
      rewrite E.
      unfold c1. replace (k <? j)%nat with true by (symmetry; apply Nat.ltb_lt; lia).
      rewrite (prow_unit_full _ _ _ _ _ Hinv j k k Hfull) by lia.
      rewrite delta_eq. ring.
    - intros t Ht. unfold lin. apply sumf_zero. intros q Hq.
      destruct (lt_eq_lt_dec q j) as [[Hlt | ->] | Hgt].
      + rewrite (inv_todo_zero _ _ _ _ _ Hinv t q Ht Hlt). ring.
      + rewrite (find_pivot_None _ _ Hnone t Ht). ring.
      + unfold c, c1.
        replace (q <? j)%nat with false by (symmetry; apply Nat.ltb_ge; lia).
        rewrite delta_ne by lia. ring. }
  apply (inv_above _ _ _ _ _ Hinv) in Hann.
  assert (Hcn : c n == 0).
  { unfold c, c1.
    replace (n <? j)%nat with false by (symmetry; apply Nat.ltb_ge; lia).
    rewrite delta_ne by lia. ring. }
  pose proof (solve_no_null c Hann Hcn j Hj) as E.
  unfold c, c1 in E. rewrite Nat.ltb_irrefl, delta_eq in E. lra.
Qed.

Lemma solve_full_run len j0 reduced todo R T :
  gj_inv (S n) rows0 j0 reduced todo ->
  map fst reduced = seq 0 j0 -> (j0 + len <= n)%nat ->
  gauss_jordan (seq j0 len) reduced todo = (R, T) ->
  map fst R = seq 0 (j0 + len).
Proof.
  revert j0 reduced todo.
  induction len as [|len IH]; intros j0 reduced todo Hinv Hfull Hle Hrun.
  - simpl in Hrun. inversion Hrun; subst. rewrite Nat.add_0_r. exact Hfull.
  - simpl in Hrun. replace (j0 + S len)%nat with (S j0 + len)%nat by lia.
    destruct (find_pivot j0 todo) as [[p others]|] eqn:E.
    + eapply IH; [| |lia|exact Hrun].
      * eapply gj_inv_step; eassumption.
      * rewrite map_app, map_map. simpl.
        change (map fst reduced ++ [j0] = seq 0 (S j0)).
        rewrite Hfull, seq_S. reflexivity.
    + exfalso. eapply solve_pivot_exists; try eassumption. lia.
Qed.

(** The vector returned for a non-singular system solves it. *)
Lemma solve_correct :
  length (solve G c0) = n
  /\ forall i g, G !! i = Some g ->
       lin n (entry (solve G c0)) g == entry c0 i.
Proof.
  unfold solve, rref. fold n. fold rows0.
  destruct (gauss_jordan (seq 0 n) [] rows0) as [R T] eqn:Hrun. simpl.
  pose proof (gj_inv_init (S n) rows0 solve_rows_len) as Hinit.
  pose proof (gj_inv_run _ _ _ _ _ _ _ _ Hinit Hrun) as Hinv. simpl in Hinv.
  pose proof (solve_full_run n 0 [] rows0 R T Hinit eq_refl
                ltac:(lia) Hrun) as Hfull. simpl in Hfull.
  pose proof (length_full _ _ Hfull) as Hlen.
  assert (HT : T = []).
  { pose proof (inv_count _ _ _ _ _ Hinv) as Hcount.
    unfold rows0 in Hcount. rewrite length_augment in Hcount by exact Hc.
    fold n in Hcount. destruct T; [reflexivity | simpl in Hcount; lia]. }
  subst T.
  set (s := map (fun cr : nat * vector => entry (snd cr) n) R).
  assert (Hs : forall q, (q < n)%nat -> entry s q = entry (prow R q) n).
  { intros q Hq. unfold s, entry at 1.
    rewrite (nth_indep _ 0 (entry (snd (0%nat, @nil Q)) n))
      by (rewrite length_map; lia).
    rewrite (map_nth (fun cr : nat * vector => entry (snd cr) n)).
    reflexivity. }
  split; [unfold s; rewrite length_map; exact Hlen|].
  intros i g Hg.
  set (c := fun q => if (q <? n)%nat then entry s q else - (1)).
  assert (Hann : annihilates (S n) c (map snd R ++ [])).
  { apply annihilates_current.
    - intros k Hk. unfold lin. simpl.
      assert (E : sumf (fun q => c q * entry (prow R k) q) n
                  == c k * entry (prow R k) k).
      { apply (sumf_delta (fun q => c q * entry (prow R k) q)); [lia|].
        intros q Hq Hne.
        rewrite (prow_unit_full _ _ _ _ _ Hinv n k q Hfull) by lia.
        rewrite delta_ne by lia. ring. }
      rewrite E.
      unfold c. rewrite Nat.ltb_irrefl.
      replace (k <? n)%nat with true by (symmetry; apply Nat.ltb_lt; lia).
      rewrite (prow_unit_full _ _ _ _ _ Hinv n k k Hfull) by lia.
      rewrite delta_eq, Hs by lia. ring.
    - intros t Ht. inversion Ht. }
  apply (inv_above _ _ _ _ _ Hinv) in Hann.
  pose proof (lookup_lt_Some _ _ _ Hg) as Hlt.
  assert (Hrow : g ++ [entry c0 i] ∈ rows0).
  { apply elem_of_augment. exists i, g. repeat split; [exact Hg|].
    rewrite Hc. exact Hlt. }
  specialize (Hann _ Hrow).
  rewrite lin_snoc in Hann
    by (apply HG; eapply list_elem_of_lookup_2; exact Hg).
  unfold c at 2 in Hann. rewrite Nat.ltb_irrefl in Hann.
  assert (E : lin n c g == lin n (entry s) g).
  { unfold lin. apply sumf_ext. intros q Hq. unfold c.
    replace (q <? n)%nat with true by (symmetry; apply Nat.ltb_lt; lia).
    reflexivity. }
  rewrite <- E. lra.
Qed.

End Solve.

(** ** The algebra of the normal equations

    [A] is an [m] by [n] matrix with a rank factorisation [A = C F], where
    [C] holds the columns [pv k] of [A] and [F] is [r] by [n]; [v] solves
    [(C^T C) v = C^T b] and [w] solves [(F F^T) w = v]. Then [x = F^T w]
    satisfies the normal equations, minimises the residual, and has the
    least norm among the minimisers. *)

Section NormalEquations.

Variables (m n r : nat).
Variable A : nat -> nat -> Q.
Variable Fm : nat -> nat -> Q.
Variable pv : nat -> nat.
Variables (b v w : nat -> Q).

Hypothesis HCF : forall i j, (i < m)%nat -> (j < n)%nat ->
  A i j == sumf (fun k => A i (pv k) * Fm k j) r.
Hypothesis Hv : forall k, (k < r)%nat ->
  sumf (fun l => v l * sumf (fun i => A i (pv k) * A i (pv l)) m) r
  == sumf (fun i => A i (pv k) * b i) m.
Hypothesis Hw : forall k, (k < r)%nat ->
  sumf (fun l => w l * sumf (fun j => Fm k j * Fm l j) n) r == v k.
Hypothesis Hrow : forall d : nat -> Q,
  (forall i, (i < m)%nat -> sumf (fun j => d j * A i j) n == 0) ->
  forall k, (k < r)%nat -> sumf (fun j => d j * Fm k j) n == 0.

Let x (j : nat) : Q := sumf (fun k => w k * Fm k j) r.
Let times (z : nat -> Q) (i : nat) : Q := sumf (fun j => A i j * z j) n.

Lemma ne_F_x l : (l < r)%nat -> sumf (fun j => Fm l j * x j) n == v l.
Proof.
  intros Hl. rewrite <- (Hw l Hl). unfold x.
  transitivity (sumf (fun j => sumf (fun k => w k * (Fm l j * Fm k j)) r) n).
  { apply sumf_ext. intros j _. rewrite <- sumf_scal.
    apply sumf_ext. intros k _. ring. }
  rewrite sumf_exchange. apply sumf_ext. intros k _.
  rewrite sumf_scal. reflexivity.
Qed.

Lemma ne_A_x i : (i < m)%nat ->
  times x i == sumf (fun l => A i (pv l) * v l) r.
Proof.
  intros Hi. unfold times.
  transitivity (sumf (fun j => sumf (fun l => A i (pv l) * (Fm l j * x j)) r) n).
  { apply sumf_ext. intros j Hj. rewrite (HCF i j Hi Hj).
    rewrite <- sumf_scal_r. apply sumf_ext. intros l _. ring. }
  rewrite sumf_exchange. apply sumf_ext. intros l Hl.
  rewrite sumf_scal. rewrite (ne_F_x l Hl). reflexivity.
Qed.

Lemma ne_pivot_columns k : (k < r)%nat ->
  sumf (fun i => A i (pv k) * (b i - times x i)) m == 0.
Proof.
  intros Hk.
  transitivity (sumf (fun i => A i (pv k) * b i) m
                - sumf (fun i => A i (pv k) * times x i) m).
  { rewrite <- sumf_minus. apply sumf_ext. intros i _. ring. }
  rewrite <- (Hv k Hk).
  assert (E : sumf (fun i => A i (pv k) * times x i) m
              == sumf (fun l => v l * sumf (fun i => A i (pv k) * A i (pv l)) m) r).
  { transitivity (sumf (fun i => sumf (fun l => v l * (A i (pv k) * A i (pv l))) r) m).
    { apply sumf_ext. intros i Hi. rewrite (ne_A_x i Hi).
      rewrite <- sumf_scal. apply sumf_ext. intros l _. ring. }
    rewrite sumf_exchange. apply sumf_ext. intros l _.
    rewrite sumf_scal. reflexivity. }
  rewrite E. ring.
Qed.

(** The residual is orthogonal to every column of [A]. *)
Lemma ne_all_columns j : (j < n)%nat ->
  sumf (fun i => A i j * (b i - times x i)) m == 0.
Proof.
  intros Hj.
  transitivity (sumf (fun i => sumf (fun k =>
                  Fm k j * (A i (pv k) * (b i - times x i))) r) m).
  { apply sumf_ext. intros i Hi. rewrite (HCF i j Hi Hj).
    rewrite <- sumf_scal_r. apply sumf_ext. intros k _. ring. }
  rewrite sumf_exchange. apply sumf_zero. intros k Hk.
  rewrite sumf_scal. rewrite (ne_pivot_columns k Hk). ring.
Qed.

Lemma ne_times_diff z i :
  times z i == times x i + times (fun j => z j - x j) i.
Proof.
  unfold times. rewrite <- sumf_plus. apply sumf_ext. intros j _. ring.
Qed.

Lemma ne_cross z :
  sumf (fun i => (b i - times x i) * times z i) m == 0.
Proof.
  unfold times at 2.
  transitivity (sumf (fun i => sumf (fun j =>
                  z j * (A i j * (b i - times x i))) n) m).
  { apply sumf_ext. intros i _. rewrite <- sumf_scal.
    apply sumf_ext. intros j _. ring. }
  rewrite sumf_exchange. apply sumf_zero. intros j Hj.
  rewrite sumf_scal. rewrite (ne_all_columns j Hj). ring.
Qed.

Lemma ne_residual_split z :
  sumf (fun i => (b i - times z i) ^ 2) m
  == sumf (fun i => (b i - times x i) ^ 2) m
     + sumf (fun i => (times (fun j => z j - x j) i) ^ 2) m.
Proof.
  pose proof (ne_cross (fun j => z j - x j)) as Hx.
  rewrite <- sumf_plus.
  transitivity (sumf (fun i => ((b i - times x i) ^ 2
                  + (times (fun j => z j - x j) i) ^ 2)
                 - 2 * ((b i - times x i) * times (fun j => z j - x j) i)) m).
  { apply sumf_ext. intros i _. rewrite (ne_times_diff z i). simpl. ring. }
  rewrite sumf_minus, sumf_scal, Hx. ring.
Qed.

(** [x] minimises the sum of squared residuals. *)
Lemma ne_minimises z :
  sumf (fun i => (b i - times x i) ^ 2) m
  <= sumf (fun i => (b i - times z i) ^ 2) m.
Proof.
  rewrite (ne_residual_split z).
  assert (H : 0 <= sumf (fun i => (times (fun j => z j - x j) i) ^ 2) m).
  { apply sumf_nonneg. intros i _. simpl. nra. }
  lra.
Qed.

(** Among the minimisers, [x] has the least norm. *)
Lemma ne_least_norm z :
  sumf (fun i => (b i - times z i) ^ 2) m
  == sumf (fun i => (b i - times x i) ^ 2) m ->
  sumf (fun j => x j ^ 2) n <= sumf (fun j => z j ^ 2) n.
Proof.
  intros E. rewrite (ne_residual_split z) in E.
  set (d := fun j => z j - x j) in *.
  assert (Hd : forall i, (i < m)%nat -> times d i == 0).
  { intros i Hi.
    assert (H0 : (times d i) ^ 2 == 0).
    { apply (sumf_nonneg_zero (fun i => (times d i) ^ 2) m);
        [intros; simpl; nra | lra | exact Hi]. }
    simpl in H0. nra. }
  assert (Hxd : sumf (fun j => x j * d j) n == 0).
  { unfold x.
    transitivity (sumf (fun j => sumf (fun k => w k * (d j * Fm k j)) r) n).
    { apply sumf_ext. intros j _. rewrite <- sumf_scal_r.
      apply sumf_ext. intros k _. ring. }
    rewrite sumf_exchange. apply sumf_zero. intros k Hk.
    rewrite sumf_scal. rewrite (Hrow d); [ring| |exact Hk].
    intros i Hi. rewrite <- (Hd i Hi). unfold times.
    apply sumf_ext. intros j _. ring. }
  assert (Hz : sumf (fun j => z j ^ 2) n
               == sumf (fun j => x j ^ 2) n + sumf (fun j => d j ^ 2) n).
  { rewrite <- sumf_plus.
    transitivity (sumf (fun j => (x j ^ 2 + d j ^ 2) + 2 * (x j * d j)) n).
    { apply sumf_ext. intros j _. unfold d. simpl. ring. }
    rewrite sumf_plus, sumf_scal, Hxd. ring. }
  rewrite Hz.
  assert (H : 0 <= sumf (fun j => d j ^ 2) n).
  { apply sumf_nonneg. intros j _. simpl. nra. }
  lra.
Qed.

End NormalEquations.

(** ** Gram matrices of independent vectors *)

Lemma length_gram V : length (gram V) = length V.
Proof. unfold gram. apply length_map. Qed.

Lemma gram_lookup V k :
  (k < length V)%nat ->
  gram V !! k = Some (map (fun v => inner (nth k V []) v) V).
Proof.
  intros Hk. unfold gram.
  rewrite list_lookup_fmap.
  destruct (lookup_lt_is_Some_2 V k Hk) as [u Hu]. rewrite Hu. simpl.
  rewrite (nth_lookup_Some _ _ _ _ Hu). reflexivity.
Qed.

Lemma gram_row_length V g : g ∈ gram V -> length g = length V.
Proof.
  unfold gram. intros H. apply list_elem_of_fmap in H.
  destruct H as (u & -> & _). apply length_map.
Qed.

Lemma entry_map {A} (f : A -> Q) (l : list A) (d : A) k :
  (k < length l)%nat -> entry (map f l) k = f (nth k l d).
Proof.
  intros Hk. unfold entry.
  rewrite (nth_indep _ 0 (f d)) by (rewrite length_map; exact Hk).
  apply map_nth.
Qed.

Lemma lin_gram_row m V z k :
  (forall u, u ∈ V -> length u = m) -> (k < length V)%nat ->
  lin (length V) z (map (fun u => inner (nth k V []) u) V)
  == sumf (fun l => z l * sumf (fun t =>
             entry (nth k V []) t * entry (nth l V []) t) m) (length V).
Proof.
  intros HV Hk. unfold lin. apply sumf_ext. intros l Hl.
  rewrite (entry_map _ V [] l Hl).
  rewrite (inner_sumf _ _ m); [reflexivity| |].
  - apply HV. apply list_elem_of_In. apply nth_In. exact Hk.
  - apply HV. apply list_elem_of_In. apply nth_In. exact Hl.
Qed.

Lemma gram_nonsingular m V :
  (forall u, u ∈ V -> length u = m) -> indep m V -> nonsingular (gram V).
Proof.
  intros HV Hind z Hz q Hq. rewrite length_gram in *.
  apply Hind; [|exact Hq]. clear q Hq.
  set (y := fun t => sumf (fun k => z k * entry (nth k V []) t) (length V)).
  assert (Hrow : forall k, (k < length V)%nat ->
            sumf (fun t => entry (nth k V []) t * y t) m == 0).
  { intros k Hk.
    pose proof (Hz _ (list_elem_of_lookup_2 _ _ _ (gram_lookup V k Hk))) as E.
    rewrite (lin_gram_row m V z k HV Hk) in E.
    rewrite <- E. unfold y.
    transitivity (sumf (fun t => sumf (fun l =>
        z l * (entry (nth k V []) t * entry (nth l V []) t)) (length V)) m).
    { apply sumf_ext. intros t _. rewrite <- sumf_scal.
      apply sumf_ext. intros l _. ring. }
    rewrite sumf_exchange. apply sumf_ext. intros l _.
    rewrite sumf_scal. reflexivity. }
  assert (Hsq : sumf (fun t => y t * y t) m == 0).
  { transitivity (sumf (fun t => sumf (fun k =>
        z k * (entry (nth k V []) t * y t)) (length V)) m).
    { apply sumf_ext. intros t _. unfold y at 1.
      rewrite <- sumf_scal_r. apply sumf_ext. intros k _. ring. }
    rewrite sumf_exchange. apply sumf_zero. intros k Hk.
    rewrite sumf_scal, (Hrow k Hk). ring. }
  intros t Ht.
  assert (H0 : y t * y t == 0).
  { apply (sumf_nonneg_zero (fun t => y t * y t) m);
      [intros; nra | exact Hsq | exact Ht]. }
  fold (y t). nra.
Qed.

(** ** The reduced row echelon form of a matrix *)

Section Rref.

Variables (n : nat) (rows0 : list vector).
Variables (R : list (nat * vector)) (T : list vector).
Hypothesis Hinv : gj_inv n rows0 n R T.

Let Fm (k j : nat) : Q := entry (prow R k) j.

Lemma nth_snd k : nth k (map snd R) [] = prow R k.
Proof.
  unfold prow. change (@nil Q) with (snd (0%nat, @nil Q)) at 1.
  apply map_nth.
Qed.

(** The pivot rows are independent. *)
Lemma rref_rows_indep : indep n (map snd R).
Proof.
  intros z Hz k Hk. rewrite length_map in *.
  pose proof (piv_bound _ _ _ _ _ Hinv k Hk) as Hp.
  specialize (Hz (piv R k) Hp).
  rewrite <- Hz. symmetry.
  transitivity (sumf (fun l => z l * delta l k) (length R)).
  { apply sumf_ext. intros l Hl. rewrite nth_snd.
    rewrite (prow_unit _ _ _ _ _ Hinv l k Hl Hk). reflexivity. }
  rewrite (sumf_delta (fun l => z l * delta l k) _ k Hk).
  - rewrite delta_eq. ring.
  - intros l _ Hne. rewrite delta_ne by exact Hne. ring.
Qed.

(** A functional that vanishes on the original rows vanishes on the pivot
    rows. *)
Lemma rref_rows_below c k :
  annihilates n c rows0 -> (k < length R)%nat -> lin n c (prow R k) == 0.
Proof.
  intros Hc Hk. apply (inv_below _ _ _ _ _ Hinv c Hc).
  apply (prow_elem R T k Hk).
Qed.

(** The columns of the original rows at the pivot positions are
    independent. *)
Lemma rref_pivot_columns_indep (z : nat -> Q) :
  (forall a, a ∈ rows0 ->
     sumf (fun k => z k * entry a (piv R k)) (length R) == 0) ->
  forall k, (k < length R)%nat -> z k == 0.
Proof.
  intros Hz k Hk.
  set (c := fun q => sumf (fun l => z l * delta q (piv R l)) (length R)).
  assert (Hc : annihilates n c rows0).
  { intros a Ha. unfold c. rewrite lin_picks.
    - apply Hz. exact Ha.
    - intros l Hl. apply (piv_bound _ _ _ _ _ Hinv l Hl). }
  pose proof (rref_rows_below c k Hc Hk) as E.
  unfold c in E. rewrite lin_picks in E
    by (intros l Hl; apply (piv_bound _ _ _ _ _ Hinv l Hl)).
  rewrite <- E. symmetry.
  transitivity (sumf (fun l => z l * delta k l) (length R)).
  { apply sumf_ext. intros l Hl.
    rewrite (prow_unit _ _ _ _ _ Hinv k l Hk Hl). reflexivity. }
  rewrite (sumf_delta (fun l => z l * delta k l) _ k Hk).
  - rewrite delta_eq. ring.
  - intros l _ Hne. rewrite delta_ne by congruence. ring.
Qed.

(** Every original row is the combination of the pivot rows whose
    coefficients are its entries at the pivot columns: the rank
    factorisation. *)
Lemma rref_factor a j :
  a ∈ rows0 -> (j < n)%nat ->
  entry a j == sumf (fun k => entry a (piv R k) * Fm k j) (length R).
Proof.
  intros Ha Hj.
  set (c := fun q => sumf (fun k => Fm k j * delta q (piv R k)) (length R)
                     - delta q j).
  assert (Hc : annihilates n c (map snd R ++ T)).
  { apply annihilates_current.
    - intros l Hl. unfold c. rewrite lin_minus, lin_pick by exact Hj.
      rewrite lin_picks
        by (intros k Hk; apply (piv_bound _ _ _ _ _ Hinv k Hk)).
      assert (E : sumf (fun k => Fm k j * entry (prow R l) (piv R k)) (length R)
                  == Fm l j).
      { transitivity (sumf (fun k => Fm k j * delta l k) (length R)).
        { apply sumf_ext. intros k Hk.
          rewrite (prow_unit _ _ _ _ _ Hinv l k Hl Hk). reflexivity. }
        rewrite (sumf_delta (fun k => Fm k j * delta l k) _ l Hl).
        - rewrite delta_eq. ring.
        - intros k _ Hne. rewrite delta_ne by congruence. ring. }
      rewrite E. unfold Fm. ring.
    - intros t Ht. unfold lin. apply sumf_zero. intros q Hq.
      rewrite (inv_todo_zero _ _ _ _ _ Hinv t q Ht Hq). ring. }
  pose proof (inv_above _ _ _ _ _ Hinv c Hc a Ha) as E.
  unfold c in E. rewrite lin_minus, lin_pick in E by exact Hj.
  rewrite lin_picks in E
    by (intros k Hk; apply (piv_bound _ _ _ _ _ Hinv k Hk)).
  assert (E' : sumf (fun k => entry a (piv R k) * Fm k j) (length R)
               == sumf (fun k => Fm k j * entry a (piv R k)) (length R)).
  { apply sumf_ext. intros k _. ring. }
  rewrite E'. lra.
Qed.

End Rref.

(** ** The least-squares solver *)

Section Lstsq.

Variables (a : matrix) (b : vector).
Hypothesis Hwf : wf_matrix a.
Hypothesis Hb : nrows a = length b.

Let n := ncols a.
Let m := nrows a.
Let A (i j : nat) : Q := entry (nth i (rows a) []) j.

Lemma lstsq_row_length r : r ∈ rows a -> length r = n.
Proof.
  intros H. unfold wf_matrix in Hwf. rewrite Forall_forall in Hwf.
  apply Hwf. exact H.
Qed.

Lemma lstsq_nth_row i : (i < m)%nat -> nth i (rows a) [] ∈ rows a.
Proof. intros H. apply list_elem_of_In. apply nth_In. exact H. Qed.

Lemma entry_column j i : (i < m)%nat -> entry (column a j) i = A i j.
Proof.
  intros Hi. unfold column. rewrite (entry_map _ _ [] i Hi). reflexivity.
Qed.

Lemma length_column j : length (column a j) = m.
Proof. unfold column. apply length_map. Qed.

Lemma entry_matvec z i :
  length z = n -> (i < m)%nat ->
  entry (matvec a z) i == sumf (fun j => A i j * entry z j) n.
Proof.
  intros Hz Hi. unfold matvec. rewrite (entry_map _ _ [] i Hi).
  apply inner_sumf; [|exact Hz]. apply lstsq_row_length, lstsq_nth_row, Hi.
Qed.

Lemma entry_residual z i :
  length z = n -> (i < m)%nat ->
  entry (residual a b z) i
  == entry b i - sumf (fun j => A i j * entry z j) n.
Proof.
  intros Hz Hi. unfold residual.
  rewrite entry_vsub by (unfold matvec; rewrite length_map; symmetry; exact Hb).
  rewrite (entry_matvec z i Hz Hi). reflexivity.
Qed.

Lemma length_residual z : length (residual a b z) = m.
Proof.
  unfold residual. rewrite length_vsub; [symmetry; exact Hb|].
  unfold matvec. rewrite length_map. symmetry. exact Hb.
Qed.

Lemma sqnorm_residual z :
  length z = n ->
  sqnorm (residual a b z)
  == sumf (fun i => (entry b i - sumf (fun j => A i j * entry z j) n) ^ 2) m.
Proof.
  intros Hz. unfold sqnorm.
  rewrite (inner_sumf _ _ m) by apply length_residual.
  apply sumf_ext. intros i Hi. rewrite (entry_residual z i Hz Hi). simpl. ring.
Qed.

Lemma sqnorm_sumf z :
  length z = n -> sqnorm z == sumf (fun j => entry z j ^ 2) n.
Proof.
  intros Hz. unfold sqnorm. rewrite (inner_sumf _ _ n) by exact Hz.
  apply sumf_ext. intros j _. simpl. ring.
Qed.

(** What [lstsq] returns, in terms of sums over the entries: the normal
    equations, the minimum of the residual, and the least norm. *)
Lemma lstsq_entries :
  exists x, lstsq a b = OK x /\ length x = n
    /\ (forall j, (j < n)%nat ->
          sumf (fun i => A i j
                 * (entry b i - sumf (fun j' => A i j' * entry x j') n)) m
          == 0)
    /\ (forall z : nat -> Q,
          sumf (fun i => (entry b i
                          - sumf (fun j => A i j * entry x j) n) ^ 2) m
          <= sumf (fun i => (entry b i
                             - sumf (fun j => A i j * z j) n) ^ 2) m)
    /\ (forall z : nat -> Q,
          sumf (fun i => (entry b i
                          - sumf (fun j => A i j * z j) n) ^ 2) m
          == sumf (fun i => (entry b i
                             - sumf (fun j => A i j * entry x j) n) ^ 2) m ->
          sumf (fun j => entry x j ^ 2) n <= sumf (fun j => z j ^ 2) n).
Proof.
  unfold lstsq. rewrite Hb, Nat.eqb_refl. simpl.
  unfold rref. fold n.
  destruct (gauss_jordan (seq 0 n) [] (rows a)) as [R T] eqn:Hrun. simpl.
  pose proof (gj_inv_run _ _ _ _ _ _ _ _
                (gj_inv_init n (rows a) lstsq_row_length) Hrun) as Hinv.
  simpl in Hinv.
  set (r := length R).
  set (F := map snd R).
  set (C := map (fun cr : nat * vector => column a (fst cr)) R).
  set (u := map (fun c => inner c b) C).
  set (v := solve (gram C) u).
  set (w := solve (gram F) v).
  set (Fm := fun k j => entry (prow R k) j).
  assert (HlenF : length F = r) by (unfold F; apply length_map).
  assert (HlenC : length C = r) by (unfold C; apply length_map).
  assert (HnthF : forall k, nth k F [] = prow R k) by (apply nth_snd).
  assert (HnthC : forall k, (k < r)%nat -> nth k C [] = column a (piv R k)).
  { intros k Hk. unfold C.
    rewrite (nth_indep _ [] (column a (fst (0%nat, @nil Q))))
      by (rewrite length_map; exact Hk).
    rewrite (map_nth (fun cr : nat * vector => column a (fst cr))).
    reflexivity. }
  assert (HCm : forall c, c ∈ C -> length c = m).
  { intros c Hc. unfold C in Hc. apply list_elem_of_fmap in Hc.
    destruct Hc as (cr & -> & _). apply length_column. }
  assert (HFn : forall f, f ∈ F -> length f = n).
  { intros f Hf. unfold F in Hf. apply list_elem_of_fmap in Hf.
    destruct Hf as (cr & -> & Hcr).
    apply (inv_red_len _ _ _ _ _ Hinv cr Hcr). }
  (* the two Gram matrices are non-singular *)
  assert (HindC : indep m C).
  { intros z Hz k Hk. rewrite HlenC in *.
    apply (rref_pivot_columns_indep n (rows a) R T Hinv z); [|exact Hk].
    intros row Hrow. apply list_elem_of_In, (In_nth _ _ []) in Hrow.
    destruct Hrow as (t & Ht & <-). rewrite <- (Hz t Ht).
    apply sumf_ext. intros l Hl.
    rewrite (HnthC l Hl), (entry_column _ t Ht). reflexivity. }
  assert (HindF : indep n F) by (apply (rref_rows_indep n (rows a) R T Hinv)).
  pose proof (gram_nonsingular m C HCm HindC) as HnsC.
  pose proof (gram_nonsingular n F HFn HindF) as HnsF.
  (* the two solves *)
  destruct (solve_correct (gram C) u) as [Hlv Hsv].
  { intros g Hg. rewrite length_gram. apply gram_row_length. exact Hg. }
  { unfold u. rewrite length_map, length_gram. reflexivity. }
  { exact HnsC. }
  fold v in Hlv, Hsv. rewrite length_gram, HlenC in Hlv, Hsv.
  destruct (solve_correct (gram F) v) as [Hlw Hsw].
  { intros g Hg. rewrite length_gram. apply gram_row_length. exact Hg. }
  { rewrite length_gram, HlenF. exact Hlv. }
  { exact HnsF. }
  fold w in Hlw, Hsw. rewrite length_gram, HlenF in Hlw, Hsw.
  (* the hypotheses of the algebra *)
  assert (HCF : forall i j, (i < m)%nat -> (j < n)%nat ->
            A i j == sumf (fun k => A i (piv R k) * Fm k j) r).
  { intros i j Hi Hj.
    apply (rref_factor n (rows a) R T Hinv); [apply lstsq_nth_row, Hi | exact Hj]. }
  assert (Hv : forall k, (k < r)%nat ->
            sumf (fun l => entry v l
                   * sumf (fun i => A i (piv R k) * A i (piv R l)) m) r
            == sumf (fun i => A i (piv R k) * entry b i) m).
  { intros k Hk.
    assert (Hk' : (k < length C)%nat) by (rewrite HlenC; exact Hk).
    pose proof (Hsv k _ (gram_lookup C k Hk')) as E.
    rewrite <- HlenC in E at 1.
    rewrite (lin_gram_row m C (entry v) k HCm Hk') in E.
    rewrite HlenC in E.
    assert (Eu : entry u k == sumf (fun i => A i (piv R k) * entry b i) m).
    { unfold u. rewrite (entry_map _ C [] k Hk').
      rewrite (inner_sumf _ _ m); [| apply HCm, list_elem_of_In, nth_In, Hk'
                                  | symmetry; exact Hb].
      apply sumf_ext. intros i Hi.
      rewrite (HnthC k Hk), (entry_column _ i Hi). reflexivity. }
    rewrite <- Eu, <- E. apply sumf_ext. intros l Hl.
    rewrite (sumf_ext (fun i => A i (piv R k) * A i (piv R l))
               (fun t => entry (nth k C []) t * entry (nth l C []) t));
      [reflexivity|].
    intros i Hi. rewrite (HnthC k Hk), (HnthC l Hl).
    rewrite !(entry_column _ i Hi). reflexivity. }
  assert (Hw : forall k, (k < r)%nat ->
            sumf (fun l => entry w l
                   * sumf (fun j => Fm k j * Fm l j) n) r == entry v k).
  { intros k Hk.
    assert (Hk' : (k < length F)%nat) by (rewrite HlenF; exact Hk).
    pose proof (Hsw k _ (gram_lookup F k Hk')) as E.
    rewrite <- HlenF in E at 1.
    rewrite (lin_gram_row n F (entry w) k HFn Hk') in E. rewrite HlenF in E.
    rewrite <- E. apply sumf_ext. intros l Hl.
    rewrite (sumf_ext (fun j => Fm k j * Fm l j)
               (fun t => entry (nth k F []) t * entry (nth l F []) t));
      [reflexivity|].
    intros j Hj. rewrite !HnthF. reflexivity. }
  assert (Hrow : forall d : nat -> Q,
            (forall i, (i < m)%nat -> sumf (fun j => d j * A i j) n == 0) ->
            forall k, (k < r)%nat -> sumf (fun j => d j * Fm k j) n == 0).
  { intros d Hd k Hk.
    apply (rref_rows_below n (rows a) R T Hinv d k); [|exact Hk].
    intros row Hrow. apply list_elem_of_In, (In_nth _ _ []) in Hrow.
    destruct Hrow as (i & Hi & <-). apply (Hd i Hi). }
  (* the returned vector *)
  set (x := map (fun j => inner w (map (fun f => entry f j) F)) (seq 0 n)).
  assert (Hx : forall j, (j < n)%nat ->
            entry x j == sumf (fun k => entry w k * Fm k j) r).
  { intros j Hj. unfold x. rewrite (entry_map_seq _ n j Hj).
    rewrite (inner_sumf _ _ r);
      [| exact Hlw | rewrite length_map; exact HlenF].
    apply sumf_ext. intros k Hk.
    rewrite (entry_map _ F [] k) by (rewrite HlenF; exact Hk).
    rewrite HnthF. reflexivity. }
  assert (HAx : forall (i : nat),
            sumf (fun j => A i j * entry x j) n
            == sumf (fun j => A i j * sumf (fun k => entry w k * Fm k j) r) n).
  { intros i. apply sumf_ext. intros j Hj. rewrite (Hx j Hj). reflexivity. }
  exists x. split; [reflexivity|].
  split; [unfold x; rewrite length_map, length_seq; reflexivity|].
  split; [|split].
  - intros j Hj.
    rewrite <- (ne_all_columns m n r A Fm (piv R) (entry b) (entry v) (entry w)
                  HCF Hv Hw j Hj).
    apply sumf_ext. intros i _. rewrite (HAx i). reflexivity.
  - intros z.
    pose proof (ne_minimises m n r A Fm (piv R) (entry b) (entry v) (entry w)
                  HCF Hv Hw z) as H.
    rewrite (sumf_ext
      (fun i => (entry b i - sumf (fun j => A i j * entry x j) n) ^ 2)
      (fun i => (entry b i - sumf (fun j =>
                   A i j * sumf (fun k => entry w k * Fm k j) r) n) ^ 2));
      [exact H|].
    intros i _. rewrite (HAx i). reflexivity.
  - intros z Hz.
    pose proof (ne_least_norm m n r A Fm (piv R) (entry b) (entry v) (entry w)
                  HCF Hv Hw Hrow z) as H.
    rewrite (sumf_ext (fun j => entry x j ^ 2)
               (fun j => sumf (fun k => entry w k * Fm k j) r ^ 2));
      [apply H|].
    + rewrite Hz. apply sumf_ext. intros i _. rewrite (HAx i). reflexivity.
    + intros j Hj. rewrite (Hx j Hj). reflexivity.
Qed.

End Lstsq.

(** C8: for every design matrix [X] with [N] rows of [k] entries and every
    [y] of length [N] -- in particular for [N > k] and independent columns
    -- [lstsq] returns a weight vector whose residual [y - X beta] has a
    zero inner product with every column of [X]: [X beta] is the orthogonal
    projection of [y] onto the column space. In exact arithmetic the inner
    products are exactly zero. *)
Theorem lstsq_residual_orthogonal (X : matrix) (y : vector) :
  wf_matrix X -> nrows X = length y ->
  exists beta, lstsq X y = OK beta
    /\ length beta = ncols X
    /\ forall j, (j < ncols X)%nat ->
         inner (column X j) (residual X y beta) == 0.
Proof.
  intros Hwf Hy.
  destruct (lstsq_entries X y Hwf Hy) as (beta & E & Hlen & Hne & _ & _).
  exists beta. split; [exact E|]. split; [exact Hlen|].
  intros j Hj.
  rewrite (inner_sumf _ _ (nrows X));
    [| apply length_column | apply length_residual; exact Hy].
  rewrite <- (Hne j Hj). apply sumf_ext. intros i Hi.
  rewrite (entry_column X j i Hi).
  rewrite (entry_residual X y Hwf Hy beta i Hlen Hi). reflexivity.
Qed.

Lemma lstsq_residual_orthogonal_witness :
  exists beta,
    lstsq (Mat 2 [[1; 0]; [1; 1]; [1; 2]]) [1; 2; 2] = OK beta
    /\ length beta = 2%nat
    /\ forall j, (j < 2)%nat ->
         inner (column (Mat 2 [[1; 0]; [1; 1]; [1; 2]]) j)
           (residual (Mat 2 [[1; 0]; [1; 1]; [1; 2]]) [1; 2; 2] beta) == 0.
Proof.
  apply (lstsq_residual_orthogonal (Mat 2 [[1; 0]; [1; 1]; [1; 2]]) [1; 2; 2]).
  - repeat constructor.
  - reflexivity.
Defined.

Local Close Scope Q_scope.

(** ** The solver and the loop *)

(** [lstsq] only checks that its arguments have as many rows: on fewer rows
    than columns, or dependent columns, it still returns one weight per
    column. *)
Lemma lstsq_total (a : matrix) (b : vector) :
  nrows a = length b ->
  exists beta, lstsq a b = OK beta /\ length beta = ncols a.
Proof.
  intros H. unfold lstsq. rewrite H, Nat.eqb_refl. simpl.
  eexists. split; [reflexivity|]. rewrite length_map, length_seq. reflexivity.
Qed.

Lemma lstsq_shape_mismatch (a : matrix) (b : vector) :
  nrows a <> length b -> lstsq a b = Raise LinAlgError.
Proof.
  intros H. unfold lstsq. apply Nat.eqb_neq in H. rewrite H. reflexivity.
Qed.

Section Propagation.

Variable solver : matrix -> vector -> result vector.
Variables (M : matrix) (x y : vector).



End Propagation.

Lemma StronglySorted_seqZ (m n : Z) : StronglySorted Z.lt (seqZ m n).
Proof.
  destruct (Z.le_gt_cases n 0) as [Hn|Hn].
  - rewrite seqZ_nil by lia. constructor.
  - rewrite <- (Z2Nat.id n) by lia. generalize (Z.to_nat n) as k. clear.
    intros k. revert m. induction k as [|k IH]; intros m.
    + constructor.
    + rewrite seqZ_cons by lia. constructor.
      * replace (Z.pred (Z.of_nat (S k))) with (Z.of_nat k) by lia. apply IH.
      * apply Forall_seqZ. lia.
Qed.

Lemma range_elem (n i : Z) : i ∈ range n <-> 0 <= i < n.
Proof. unfold range, arange. rewrite elem_of_seqZ. lia. Qed.


(** ** The value of the statistic *)

Lemma square_nonneg (q : Q) : (0 <= q ^ 2)%Q.
Proof. simpl. nra. Qed.

Lemma loo_term_nonneg solver M x y i t :
  loo_term solver M x y i = OK t -> (0 <= t)%Q.
Proof.
  unfold loo_term. intros H.
  repeat (apply bind_OK in H; destruct H as (? & _ & H)).
  inversion H. apply square_nonneg.
Qed.

Lemma loo_loop_nonneg solver M x y todo acc s :
  (0 <= acc)%Q -> loo_loop solver M x y acc todo = OK s -> (0 <= s)%Q.
Proof.
  revert acc. induction todo as [|i todo IH]; simpl; intros acc Hacc H.
  - inversion H. subst. exact Hacc.
  - apply bind_OK in H. destruct H as (t & Ht & H).
    apply (IH (acc + t)%Q); [|exact H].
    apply loo_term_nonneg in Ht. lra.
Qed.

(** Whatever the solver returns, a statistic that is computed is a mean of
    squares, hence not negative. *)
Lemma loo_statistic_nonneg solver M x y s :
  loo_statistic solver M x y = OK s -> (0 <= s)%Q.
Proof.
  unfold loo_statistic. intros H.
  apply bind_OK in H. destruct H as (t & Ht & H).
  destruct (Z.of_nat (length x) =? 0) eqn:E; [discriminate|].
  inversion H. apply loo_loop_nonneg in Ht; [|lra].
  apply Z.eqb_neq in E.
  apply Qle_shift_div_l.
  - change 0%Q with (inject_Z 0). rewrite <- Zlt_Qlt. lia.
  - lra.
Qed.

(** The loop adds the terms of the iterations to the accumulator. *)
Lemma loo_loop_sum solver M x y todo acc ts :
  traverse (loo_term solver M x y) todo = OK ts ->
  exists s, loo_loop solver M x y acc todo = OK s
            /\ (s == acc + fold_right Qplus 0 ts)%Q.
Proof.
  revert acc ts. induction todo as [|i todo IH]; simpl; intros acc ts H.
  - inversion H. exists acc. split; [reflexivity | simpl; lra].
  - apply bind_OK in H. destruct H as (t & Ht & H).
    apply bind_OK in H. destruct H as (ts' & Hts & H). inversion H; subst.
    rewrite Ht. simpl.
    destruct (IH (acc + t)%Q ts' Hts) as (s & Hs & Es).
    exists s. split; [exact Hs|]. simpl. lra.
Qed.

(** When every iteration goes through, the statistic is the mean of the
    squared errors of the iterations. *)
Lemma loo_statistic_mean solver M x y ts :
  x <> [] ->
  traverse (loo_term solver M x y) (range (Z.of_nat (length x))) = OK ts ->
  returns (loo_statistic solver M x y)
    (fold_right Qplus 0 ts / inject_Z (Z.of_nat (length x)))%Q.
Proof.
  intros Hx Hts. unfold loo_statistic.
  destruct (loo_loop_sum solver M x y _ 0%Q ts Hts) as (s & -> & Es). simpl.
  destruct (Z.of_nat (length x) =? 0) eqn:E.
  - apply Z.eqb_eq in E. destruct x; [congruence | simpl in E; lia].
  - simpl. rewrite Es. apply Qdiv_comp; [lra | reflexivity].
Qed.

(** C4 on three observations with the single basis vector [unit] and
    [y = 0, 0, 3]. The code refits iteration 1 on row 2 alone and iteration
    2 on row 0 alone, and returns [27/4]; refitting on all rows but row [i],
    as the claim describes, gives [9/2]. *)
Theorem loo_statistic_differs_from_leave_one_out :
  returns (loo_statistic lstsq (Mat 1 [[1]; [1]; [1]]%Q)
             [0; 1; 2]%Q [0; 0; 3]%Q) (27 # 4)
  /\ returns (loo_leave_one_out lstsq (Mat 1 [[1]; [1]; [1]]%Q) [0; 0; 3]%Q)
       (9 # 2)
  /\ indices 1 3 = [2] /\ indices 2 3 = [0].
Proof.
  split; [vm_compute; reflexivity|].
  split; [vm_compute; reflexivity|].
  split; reflexivity.
Qed.

(** ** The store: what a run leaves in place *)

Create HintDb preserves.

Lemma preserves_ret {A} (a : A) : preserves (ret a).
Proof. intros h a' h' H. inversion H. reflexivity. Qed.

Lemma preserves_lift {A} (r : result A) : preserves (lift r).
Proof. intros h a h' H. unfold lift in H. destruct r; inversion H. reflexivity. Qed.

Lemma preserves_load (l : loc) : preserves (load l).
Proof.
  intros h a h' H. unfold load in H. destruct (h !! l); inversion H. reflexivity.
Qed.

Lemma alloc_fresh (h : gmap loc obj) : h !! fresh (dom h) = None.
Proof. apply not_elem_of_dom. apply is_fresh. Qed.

Lemma preserves_alloc (o : obj) : preserves (alloc o).
Proof.
  intros h a h' H. unfold alloc in H. inversion H.
  apply insert_subseteq. apply alloc_fresh.
Qed.

Lemma preserves_bind {A B} (p : prog A) (k : A -> prog B) :
  preserves p -> (forall a, preserves (k a)) -> preserves (pbind p k).
Proof.
  intros Hp Hk h b h'' H. unfold pbind in H.
  destruct (p h) as [[a h']|e] eqn:E; [|discriminate].
  transitivity h'; [eapply Hp | eapply Hk]; eassumption.
Qed.

Lemma preserves_for_each {A B} (f : A -> prog B) (l : list A) :
  (forall a, preserves (f a)) -> preserves (for_each f l).
Proof.
  intros Hf. induction l as [|a l IH]; simpl.
  - apply preserves_ret.
  - apply preserves_bind; [apply Hf|]. intros b.
    apply preserves_bind; [exact IH|]. intros bs. apply preserves_ret.
Qed.

#[local] Hint Resolve preserves_ret preserves_lift preserves_load
  preserves_alloc preserves_for_each : preserves.
#[local] Hint Extern 1 (preserves (pbind _ _)) =>
  apply preserves_bind; [|intros ?] : preserves.
#[local] Hint Extern 1 (preserves (match ?o with _ => _ end)) =>
  destruct o : preserves.

Ltac preserves_tac := auto 20 with preserves.

Lemma preserves_load_array l : preserves (load_array l).
Proof. unfold load_array. preserves_tac. Qed.

Lemma preserves_load_matrix l : preserves (load_matrix l).
Proof. unfold load_matrix. preserves_tac. Qed.

Lemma preserves_load_index l : preserves (load_index l).
Proof. unfold load_index. preserves_tac. Qed.

Lemma preserves_load_list l : preserves (load_list l).
Proof. unfold load_list. preserves_tac. Qed.

#[local] Hint Resolve preserves_load_array preserves_load_matrix
  preserves_load_index preserves_load_list : preserves.

Section StoreFacts.

Variable solver : matrix -> vector -> result vector.

Lemma preserves_design_matrix_prog bvs k :
  preserves (design_matrix_prog bvs k).
Proof. unfold design_matrix_prog. preserves_tac. Qed.

Lemma preserves_loo_term_prog dm x y i :
  preserves (loo_term_prog solver dm x y i).
Proof.
  unfold loo_term_prog, np_len, np_getitems, np_getrows, np_lstsq, np_row,
    np_matmul, np_getitem.
  preserves_tac.
Qed.

Lemma preserves_loo_loop_prog dm x y todo acc :
  preserves (loo_loop_prog solver dm x y acc todo).
Proof.
  revert acc. induction todo as [|i todo IH]; intros acc; simpl.
  - apply preserves_ret.
  - apply preserves_bind; [apply preserves_loo_term_prog|].
    intros t. apply IH.
Qed.

Lemma preserves_loo_statistic_prog dm x y :
  preserves (loo_statistic_prog solver dm x y).
Proof.
  unfold loo_statistic_prog, np_len.
  apply preserves_bind; [preserves_tac|]. intros len_x.
  apply preserves_bind; [apply preserves_loo_loop_prog|]. intros s.
  apply preserves_bind; [preserves_tac|]. intros len_x'.
  destruct (len_x' =? 0); preserves_tac.
Qed.

Lemma preserves_loo_cell_prog bvs x y :
  preserves (loo_cell_prog solver bvs x y).
Proof.
  unfold loo_cell_prog.
  apply preserves_bind; [preserves_tac|]. intros items.
  apply preserves_for_each. intros k.
  apply preserves_bind; [apply preserves_design_matrix_prog|]. intros dm.
  apply preserves_bind; [apply preserves_loo_statistic_prog|]. intros s.
  apply preserves_ret.
Qed.

End StoreFacts.

(** An assignment to an element is what [preserves] rules out. *)
Lemma assign_not_preserves :
  ~ preserves (assign 1%positive (Array [])).
Proof.
  intros H.
  specialize (H {[ 1%positive := Array [1%Q] ]} tt
                (<[ 1%positive := Array [] ]> {[ 1%positive := Array [1%Q] ]})).
  assert (E : ({[ 1%positive := Array [1%Q] ]} : gmap loc obj) !! 1%positive
              = Some (Array [1%Q])) by apply lookup_singleton_eq.
  eapply lookup_weaken in E; [|apply H].
  - rewrite lookup_insert_eq in E. discriminate.
  - unfold assign. rewrite lookup_singleton_eq. reflexivity.
Qed.

(** ** The store program computes the pure statistic *)

Lemma sim_bind {A A' B B'} (R : gmap loc obj -> A -> B -> Prop)
    (R' : gmap loc obj -> A' -> B' -> Prop)
    (p : prog A) (k : A -> prog A') (h : gmap loc obj)
    (r : result B) (f : B -> result B') :
  sim R p h r ->
  (forall a b h', h ⊆ h' -> R h' a b -> sim R' (k a) h' (f b)) ->
  sim R' (pbind p k) h (bind r f).
Proof.
  unfold sim, pbind. intros Hp Hk.
  destruct (p h) as [[a h']|e].
  - destruct Hp as (Hsub & b & -> & HR). simpl.
    specialize (Hk a b h' Hsub HR).
    destruct (k a h') as [[a' h'']|e'].
    + destruct Hk as (Hsub' & b' & E & HR'). split; [|eauto].
      transitivity h'; assumption.
    + exact Hk.
  - rewrite Hp. reflexivity.
Qed.

Lemma sim_ret {A} (a : A) h : sim same (ret a) h (OK a).
Proof. unfold sim, ret. split; [reflexivity|]. exists a. split; reflexivity. Qed.

Lemma sim_lift {A} (r : result A) h : sim same (lift r) h r.
Proof.
  unfold sim, lift. destruct r as [a|e]; [|reflexivity].
  split; [reflexivity|]. exists a. split; reflexivity.
Qed.

Lemma sim_alloc_array (v : vector) h : sim (holds Array) (alloc (Array v)) h (OK v).
Proof.
  unfold sim, alloc. split; [apply insert_subseteq, alloc_fresh|].
  exists v. split; [reflexivity|]. apply lookup_insert_eq.
Qed.

Lemma sim_alloc_matrix (m : matrix) h :
  sim holds_matrix (alloc (Array2 m)) h (OK m).
Proof.
  unfold sim, alloc. split; [apply insert_subseteq, alloc_fresh|].
  exists m. split; [reflexivity|]. apply lookup_insert_eq.
Qed.

Lemma sim_alloc_index (js : list Z) h :
  sim holds_index (alloc (IndexArray js)) h (OK js).
Proof.
  unfold sim, alloc. split; [apply insert_subseteq, alloc_fresh|].
  exists js. split; [reflexivity|]. apply lookup_insert_eq.
Qed.

Lemma sim_load_array l v h :
  h !! l = Some (Array v) -> sim same (load_array l) h (OK v).
Proof.
  intros H. unfold sim, load_array, pbind, load. rewrite H. apply sim_ret.
Qed.

Lemma sim_load_matrix l m h :
  h !! l = Some (Array2 m) -> sim same (load_matrix l) h (OK m).
Proof.
  intros H. unfold sim, load_matrix, pbind, load. rewrite H. apply sim_ret.
Qed.

Lemma sim_load_index l js h :
  h !! l = Some (IndexArray js) -> sim same (load_index l) h (OK js).
Proof.
  intros H. unfold sim, load_index, pbind, load. rewrite H. apply sim_ret.
Qed.

(** The same when the pure side has the value at hand. *)
Lemma sim_bind_pure {A A' B B'} (R : gmap loc obj -> A -> B -> Prop)
    (R' : gmap loc obj -> A' -> B' -> Prop)
    (p : prog A) (k : A -> prog A') (h : gmap loc obj)
    (b : B) (r' : result B') :
  sim R p h (OK b) ->
  (forall a h', h ⊆ h' -> R h' a b -> sim R' (k a) h' r') ->
  sim R' (pbind p k) h r'.
Proof.
  unfold sim, pbind. intros Hp Hk.
  destruct (p h) as [[a h']|e]; [|discriminate].
  destruct Hp as (Hsub & b0 & E & HR). inversion E; subst b0.
  specialize (Hk a h' Hsub HR).
  destruct (k a h') as [[a' h'']|e']; [|exact Hk].
  destruct Hk as (Hsub' & Hb). split; [|exact Hb].
  transitivity h'; assumption.
Qed.

(** A computed array that is then stored as a new object. *)
Lemma sim_store_array (p : prog vector) h (r : result vector) :
  sim same p h r ->
  sim (holds Array) (pbind p (fun w => alloc (Array w))) h r.
Proof.
  unfold sim, pbind, alloc, same, holds. intros Hp.
  destruct (p h) as [[a h']|e]; [|exact Hp].
  destruct Hp as (Hsub & b & -> & ->). split.
  - transitivity h'; [exact Hsub|]. apply insert_subseteq, alloc_fresh.
  - exists b. split; [reflexivity|]. apply lookup_insert_eq.
Qed.

Lemma sim_store_matrix (p : prog matrix) h (r : result matrix) :
  sim same p h r ->
  sim holds_matrix (pbind p (fun m => alloc (Array2 m))) h r.
Proof.
  unfold sim, pbind, alloc, same, holds_matrix. intros Hp.
  destruct (p h) as [[a h']|e]; [|exact Hp].
  destruct Hp as (Hsub & b & -> & ->). split.
  - transitivity h'; [exact Hsub|]. apply insert_subseteq, alloc_fresh.
  - exists b. split; [reflexivity|]. apply lookup_insert_eq.
Qed.

(** One step of a simulation: run a step that simulates a pure value, and
    go on with the rest. *)
Tactic Notation "sim_pure" constr(lem) "as" ident(a) ident(h') ident(Hsub) ident(HR) :=
  eapply (sim_bind_pure _ _ _ _ _ _ _ lem);
  intros a h' Hsub HR; unfold same, holds, holds_matrix, holds_index in HR;
  try subst a.

Tactic Notation "sim_step" constr(lem) "as" ident(a) ident(b) ident(h') ident(Hsub) ident(HR) :=
  eapply (sim_bind _ _ _ _ _ _ _ lem);
  intros a b h' Hsub HR; unfold same, holds, holds_matrix, holds_index in HR;
  try subst a.

Section Simulation.

Variable solver : matrix -> vector -> result vector.

Lemma sim_np_len x xv h :
  h !! x = Some (Array xv) ->
  sim same (np_len x) h (OK (Z.of_nat (length xv))).
Proof.
  intros Hx. unfold np_len.
  sim_pure (sim_load_array x xv h Hx) as a h1 S1 R1. apply sim_ret.
Qed.

Lemma sim_np_getitems a idx v js h :
  h !! a = Some (Array v) -> h !! idx = Some (IndexArray js) ->
  sim (holds Array) (np_getitems a idx) h (getitems v js).
Proof.
  intros Ha Hidx. unfold np_getitems.
  sim_pure (sim_load_array a v h Ha) as a1 h1 S1 R1.
  sim_pure (sim_load_index idx js h1 (lookup_weaken _ _ _ _ Hidx S1))
    as a2 h2 S2 R2.
  apply sim_store_array, sim_lift.
Qed.

Lemma sim_np_getrows M idx m js h :
  h !! M = Some (Array2 m) -> h !! idx = Some (IndexArray js) ->
  sim holds_matrix (np_getrows M idx) h (getrows m js).
Proof.
  intros HM Hidx. unfold np_getrows.
  sim_pure (sim_load_matrix M m h HM) as a1 h1 S1 R1.
  sim_pure (sim_load_index idx js h1 (lookup_weaken _ _ _ _ Hidx S1))
    as a2 h2 S2 R2.
  apply sim_store_matrix, sim_lift.
Qed.

Lemma sim_np_lstsq a b m v h :
  h !! a = Some (Array2 m) -> h !! b = Some (Array v) ->
  sim (holds Array) (np_lstsq solver a b) h (solver m v).
Proof.
  intros Ha Hb. unfold np_lstsq.
  sim_pure (sim_load_matrix a m h Ha) as a1 h1 S1 R1.
  sim_pure (sim_load_array b v h1 (lookup_weaken _ _ _ _ Hb S1))
    as a2 h2 S2 R2.
  apply sim_store_array, sim_lift.
Qed.

Lemma sim_np_row M m i h :
  h !! M = Some (Array2 m) ->
  sim (holds Array) (np_row M i) h (row m i).
Proof.
  intros HM. unfold np_row.
  sim_pure (sim_load_matrix M m h HM) as a1 h1 S1 R1.
  apply sim_store_array, sim_lift.
Qed.

Lemma sim_np_matmul u v a b h :
  h !! u = Some (Array a) -> h !! v = Some (Array b) ->
  sim same (np_matmul u v) h (matmul_vec a b).
Proof.
  intros Hu Hv. unfold np_matmul.
  sim_pure (sim_load_array u a h Hu) as a1 h1 S1 R1.
  sim_pure (sim_load_array v b h1 (lookup_weaken _ _ _ _ Hv S1))
    as a2 h2 S2 R2.
  apply sim_lift.
Qed.

Lemma sim_np_getitem a v i h :
  h !! a = Some (Array v) ->
  sim same (np_getitem a i) h (getitem v i).
Proof.
  intros Ha. unfold np_getitem.
  sim_pure (sim_load_array a v h Ha) as a1 h1 S1 R1.
  apply sim_lift.
Qed.

Variables (dm x y : loc) (M : matrix) (xv yv : vector).

Local Abbreviation inputs := (inputs_at dm x y M xv yv).

Lemma inputs_at_weaken h h' : inputs h -> h ⊆ h' -> inputs h'.
Proof.
  intros (H1 & H2 & H3) Hsub.
  repeat split; eapply lookup_weaken; eassumption.
Qed.

Lemma sim_loo_term_prog i h :
  inputs h ->
  sim same (loo_term_prog solver dm x y i) h (loo_term solver M xv yv i).
Proof.
  intros (Hdm & Hx & Hy). unfold loo_term_prog, loo_term.
  sim_pure (sim_np_len x xv h Hx) as len_x h1 S1 R1.
  sim_pure (sim_alloc_index (indices i (Z.of_nat (length xv))) h1)
    as idx h2 S2 R2.
  assert (S02 : h ⊆ h2) by (transitivity h1; assumption).
  sim_step (sim_np_getitems x idx xv _ h2 (lookup_weaken _ _ _ _ Hx S02) R2)
    as x_in x_in' h3 S3 R3.
  assert (S03 : h ⊆ h3) by (transitivity h2; assumption).
  sim_step (sim_np_getitems y idx yv _ h3 (lookup_weaken _ _ _ _ Hy S03)
              (lookup_weaken _ _ _ _ R2 S3))
    as y_in y_in' h4 S4 R4.
  assert (S04 : h ⊆ h4) by (transitivity h3; assumption).
  assert (S24 : h2 ⊆ h4) by (transitivity h3; assumption).
  sim_step (sim_np_getrows dm idx M _ h4 (lookup_weaken _ _ _ _ Hdm S04)
              (lookup_weaken _ _ _ _ R2 S24))
    as dm_in dm_in' h5 S5 R5.
  assert (S05 : h ⊆ h5) by (transitivity h4; assumption).
  sim_step (sim_np_lstsq dm_in y_in dm_in' y_in' h5 R5
              (lookup_weaken _ _ _ _ R4 S5))
    as betas betas' h6 S6 R6.
  assert (S06 : h ⊆ h6) by (transitivity h5; assumption).
  sim_step (sim_np_row dm M i h6 (lookup_weaken _ _ _ _ Hdm S06))
    as r r' h7 S7 R7.
  assert (S07 : h ⊆ h7) by (transitivity h6; assumption).
  sim_step (sim_np_matmul r betas r' betas' h7 R7
              (lookup_weaken _ _ _ _ R6 S7))
    as y_out y_out' h8 S8 R8.
  assert (S08 : h ⊆ h8) by (transitivity h7; assumption).
  sim_step (sim_np_getitem y yv i h8 (lookup_weaken _ _ _ _ Hy S08))
    as y_i y_i' h9 S9 R9.
  subst. apply sim_ret.
Qed.

Lemma sim_loo_loop_prog todo acc h :
  inputs h ->
  sim same (loo_loop_prog solver dm x y acc todo) h
    (loo_loop solver M xv yv acc todo).
Proof.
  revert acc h. induction todo as [|i todo IH]; intros acc h Hin; simpl.
  - apply sim_ret.
  - sim_step (sim_loo_term_prog i h Hin) as t t' h1 S1 R1. subst.
    apply IH. eapply inputs_at_weaken; eassumption.
Qed.

Lemma sim_loo_statistic_prog h :
  inputs h ->
  sim same (loo_statistic_prog solver dm x y) h
    (loo_statistic solver M xv yv).
Proof.
  intros Hin. unfold loo_statistic_prog, loo_statistic.
  sim_pure (sim_np_len x xv h (proj1 (proj2 Hin))) as len_x h1 S1 R1.
  sim_step (sim_loo_loop_prog (range (Z.of_nat (length xv))) 0%Q h1
              (inputs_at_weaken _ _ Hin S1))
    as s s' h2 S2 R2. subst.
  assert (S02 : h ⊆ h2) by (transitivity h1; assumption).
  sim_pure (sim_np_len x xv h2
              (lookup_weaken _ _ _ _ (proj1 (proj2 Hin)) S02))
    as len_x' h3 S3 R3.
  destruct (Z.of_nat (length xv) =? 0); [apply sim_lift | apply sim_ret].
Qed.

End Simulation.

(** C9: a call of the leave-one-out loop that returns leaves every object
    that was in the store before the call as it was: the design matrix, [x],
    [y], the basis vectors and the list that holds them. The solver is a
    function of the values of its arguments, as numpy documents [lstsq]. *)
Theorem loo_leaves_inputs_unchanged
    (solver : matrix -> vector -> result vector) (dm x y : loc)
    (h h' : gmap loc obj) (s : Q) :
  loo_statistic_prog solver dm x y h = OK (s, h') ->
  forall l o, h !! l = Some o -> h' !! l = Some o.
Proof.
  intros Hrun l o Hl.
  eapply lookup_weaken; [exact Hl|].
  eapply preserves_loo_statistic_prog. exact Hrun.
Qed.

Lemma loo_leaves_inputs_unchanged_witness :
  exists s h',
    loo_statistic_prog lstsq 5%positive 1%positive 2%positive example_store
    = OK (s, h')
    /\ h' !! 1%positive = Some (Array [0; 1; 2]%Q)
    /\ h' !! 2%positive = Some (Array [0; 0; 3]%Q)
    /\ h' !! 3%positive = Some (PyList [4%positive; 1%positive])
    /\ h' !! 4%positive = Some (Array [1; 1; 1]%Q)
    /\ h' !! 5%positive = Some (Array2 (Mat 2 [[1; 0]; [1; 1]; [1; 2]]%Q)).
Proof.
  destruct (loo_statistic_prog lstsq 5%positive 1%positive 2%positive
              example_store) as [[s h']|e] eqn:E.
  - exists s, h'. split; [reflexivity|].
    pose proof (loo_leaves_inputs_unchanged lstsq _ _ _ _ _ _ E) as H.
    repeat split; apply H; reflexivity.
  - vm_compute in E. discriminate.
Defined.

(** The whole cell, over every number of basis vectors, adds objects only. *)
Lemma loo_cell_leaves_inputs_unchanged
    (solver : matrix -> vector -> result vector) (basis_vectors x y : loc)
    (h h' : gmap loc obj) (out : list (Z * Q)) :
  loo_cell_prog solver basis_vectors x y h = OK (out, h') ->
  forall l o, h !! l = Some o -> h' !! l = Some o.
Proof.
  intros Hrun l o Hl.
  eapply lookup_weaken; [exact Hl|].
  eapply preserves_loo_cell_prog. exact Hrun.
Qed.

(** On a store that holds the three arrays, the run returns what the pure
    statistic returns, or raises what it raises. *)
Lemma loo_statistic_prog_value
    (solver : matrix -> vector -> result vector) (dm x y : loc)
    (M : matrix) (xv yv : vector) (h : gmap loc obj) :
  h !! dm = Some (Array2 M) ->
  h !! x = Some (Array xv) ->
  h !! y = Some (Array yv) ->
  match loo_statistic_prog solver dm x y h with
  | OK (s, _) => loo_statistic solver M xv yv = OK s
  | Raise e => loo_statistic solver M xv yv = Raise e
  end.
Proof.
  intros Hdm Hx Hy.
  pose proof (sim_loo_statistic_prog solver dm x y M xv yv h
                (conj Hdm (conj Hx Hy))) as H.
  unfold sim, same in H.
  destruct (loo_statistic_prog solver dm x y h) as [[s h']|e]; [|exact H].
  destruct H as (_ & b & -> & ->). reflexivity.
Qed.

Lemma Forall2_slice_to {A B} (P : A -> B -> Prop) (l : list A) (l' : list B) k :
  Forall2 P l l' -> Forall2 P (slice_to l k) (slice_to l' k).
Proof.
  intros H. unfold slice_to. rewrite <- (Forall2_length _ _ _ H).
  apply Forall2_take. exact H.
Qed.

Lemma sim_for_each_load_array items vs h :
  Forall2 (fun l v => h !! l = Some (Array v)) items vs ->
  sim same (for_each load_array items) h (OK vs).
Proof.
  intros H. revert vs h H. induction items as [|l items IH]; intros vs h H.
  - inversion H. apply sim_ret.
  - inversion H as [|? v ? vs' Hl Hrest]; subst. simpl.
    sim_pure (sim_load_array l v h Hl) as a1 h1 S1 R1.
    assert (Hrest' : Forall2 (fun l v => h1 !! l = Some (Array v)) items vs').
    { eapply Forall2_impl; [exact Hrest|]. intros l' v' Hl'.
      exact (lookup_weaken _ _ _ _ Hl' S1). }
    sim_pure (IH vs' h1 Hrest') as a2 h2 S2 R2. apply sim_ret.
Qed.

Lemma sim_load_list l items h :
  h !! l = Some (PyList items) -> sim same (load_list l) h (OK items).
Proof.
  intros H. unfold sim, load_list, pbind, load. rewrite H. apply sim_ret.
Qed.

Lemma sim_alloc_list (items : list loc) h :
  sim (fun h' l its => h' !! l = Some (PyList its))
    (alloc (PyList items)) h (OK items).
Proof.
  unfold sim, alloc. split; [apply insert_subseteq, alloc_fresh|].
  exists items. split; [reflexivity|]. apply lookup_insert_eq.
Qed.

Lemma sim_design_matrix_prog bvs vs k h :
  basis_at h bvs vs ->
  sim holds_matrix (design_matrix_prog bvs k) h (design_matrix vs k).
Proof.
  intros (items & Hb & Hall). unfold design_matrix_prog, design_matrix.
  sim_pure (sim_load_list bvs items h Hb) as a1 h1 S1 R1.
  sim_pure (sim_alloc_list (slice_to items k) h1) as sliced h2 S2 R2.
  sim_pure (sim_load_list sliced _ h2 R2) as a3 h3 S3 R3.
  assert (S03 : h ⊆ h3) by (do 2 (etransitivity; [eassumption|]); done).
  assert (Hall' : Forall2 (fun l v => h3 !! l = Some (Array v))
                    (slice_to items k) (slice_to vs k)).
  { apply Forall2_slice_to. eapply Forall2_impl; [exact Hall|].
    intros l' v' Hl'. exact (lookup_weaken _ _ _ _ Hl' S03). }
  sim_pure (sim_for_each_load_array _ _ h3 Hall') as a4 h4 S4 R4.
  sim_step (sim_lift (vstack (slice_to vs k)) h4) as stacked stacked' h5 S5 R5.
  sim_pure (sim_alloc_matrix stacked' h5) as sl h6 S6 R6.
  sim_pure (sim_load_matrix sl stacked' h6 R6) as a7 h7 S7 R7.
  apply sim_alloc_matrix.
Qed.

(** The cell over the store prints what the pure cell computes. *)
Lemma sim_loo_cell_prog solver bvs x y vs xv yv h :
  basis_at h bvs vs ->
  h !! x = Some (Array xv) ->
  h !! y = Some (Array yv) ->
  sim same (loo_cell_prog solver bvs x y) h (loo_cell solver vs xv yv).
Proof.
  intros Hb Hx Hy. unfold loo_cell_prog, loo_cell.
  destruct Hb as (items & Hb & Hall).
  sim_pure (sim_load_list bvs items h Hb) as a1 h1 S1 R1.
  rewrite (Forall2_length _ _ _ Hall).
  assert (Hb1 : basis_at h1 bvs vs).
  { exists items. split; [exact (lookup_weaken _ _ _ _ Hb S1)|].
    eapply Forall2_impl; [exact Hall|]. intros l' v' Hl'.
    exact (lookup_weaken _ _ _ _ Hl' S1). }
  assert (Hx1 : h1 !! x = Some (Array xv)) by exact (lookup_weaken _ _ _ _ Hx S1).
  assert (Hy1 : h1 !! y = Some (Array yv)) by exact (lookup_weaken _ _ _ _ Hy S1).
  clear Hb Hall Hx Hy S1. revert h1 Hb1 Hx1 Hy1.
  generalize (arange 1 (Z.of_nat (length vs) + 1)) as ks.
  induction ks as [|k ks IH]; intros h1 Hb1 Hx1 Hy1; simpl.
  - apply sim_ret.
  - eapply (sim_bind same same _ _ _ _ _).
    + sim_step (sim_design_matrix_prog bvs vs k h1 Hb1) as dm M h2 S2 R2.
      sim_step (sim_loo_statistic_prog solver dm x y M xv yv h2
                  (conj R2 (conj (lookup_weaken _ _ _ _ Hx1 S2)
                                 (lookup_weaken _ _ _ _ Hy1 S2))))
        as s s' h3 S3 R3.
      subst. apply sim_ret.
    + intros a b h2 S2 R2. unfold same in R2. subst b.
      eapply (sim_bind same same _ _ _ _ _).
      * apply IH.
        -- destruct Hb1 as (items' & Hb' & Hall'). exists items'.
           split; [exact (lookup_weaken _ _ _ _ Hb' S2)|].
           eapply Forall2_impl; [exact Hall'|]. intros l' v' Hl'.
           exact (lookup_weaken _ _ _ _ Hl' S2).
        -- exact (lookup_weaken _ _ _ _ Hx1 S2).
        -- exact (lookup_weaken _ _ _ _ Hy1 S2).
      * intros bs bs' h3 S3 R3. unfold same in R3. subst. apply sim_ret.
Qed.

(** * Further properties of the cells *)

(** ** More on indexing: what raises, and with what *)

Lemma getitem_raises_IndexError {A} (a : list A) (i : Z) e :
  getitem a i = Raise e -> e = IndexError.
Proof.
  unfold getitem.
  destruct ((i <? - Z.of_nat (length a)) || (Z.of_nat (length a) <=? i));
    [intros H; inversion H; reflexivity|].
  destruct (a !! _); intros H; inversion H. reflexivity.
Qed.

Lemma getitem_past_end {A} (a : list A) (i : Z) :
  Z.of_nat (length a) <= i -> getitem a i = Raise IndexError.
Proof.
  intros H. unfold getitem.
  replace (Z.of_nat (length a) <=? i) with true by (symmetry; apply Z.leb_le; lia).
  rewrite orb_true_r. reflexivity.
Qed.

Lemma traverse_raises {A B} (f : A -> result B) (l : list A) (E : exn) :
  (forall a e, f a = Raise e -> e = E) ->
  forall a, a ∈ l -> raises (f a) -> traverse f l = Raise E.
Proof.
  intros HE a Ha [e He]. induction l as [|a0 l IH]; [inversion Ha|].
  simpl. destruct (f a0) as [b|e0] eqn:E0.
  - simpl. apply elem_of_cons in Ha. destruct Ha as [->|Ha]; [congruence|].
    rewrite (IH Ha). reflexivity.
  - simpl. f_equal. eapply HE. exact E0.
Qed.

Lemma getitems_past_end {A} (a : list A) (idx : list Z) (j : Z) :
  j ∈ idx -> Z.of_nat (length a) <= j -> getitems a idx = Raise IndexError.
Proof.
  intros Hj Hout. unfold getitems.
  apply (traverse_raises _ _ _ (getitem_raises_IndexError a) j Hj).
  exists IndexError. apply getitem_past_end. exact Hout.
Qed.

Lemma traverse_ext_in {A B} (f g : A -> result B) (l : list A) :
  (forall a, a ∈ l -> f a = g a) -> traverse f l = traverse g l.
Proof.
  induction l as [|a l IH]; intros H; [reflexivity|]. simpl.
  rewrite (H a) by left. destruct (g a); [|reflexivity]. simpl.
  rewrite IH; [reflexivity|]. intros a' Ha'. apply H. right. exact Ha'.
Qed.

(** Indexing with in-range non-negative indices only looks at the first
    [n] entries. *)
Lemma getitem_take {A} (a : list A) (n : nat) (i : Z) :
  0 <= i < Z.of_nat n -> (n <= length a)%nat ->
  getitem (firstn n a) i = getitem a i.
Proof.
  intros Hi Hn.
  destruct (getitem_nonneg a i) as (v & Hv & ->); [lia|].
  destruct (getitem_nonneg (firstn n a) i) as (v' & Hv' & ->).
  { rewrite length_take. lia. }
  rewrite lookup_take_lt in Hv' by lia. congruence.
Qed.

Lemma getitems_take {A} (a : list A) (n : nat) (idx : list Z) :
  (forall j, j ∈ idx -> 0 <= j < Z.of_nat n) -> (n <= length a)%nat ->
  getitems (firstn n a) idx = getitems a idx.
Proof.
  intros Hidx Hn. unfold getitems. apply traverse_ext_in.
  intros j Hj. apply getitem_take; [apply Hidx, Hj | exact Hn].
Qed.

Lemma indices_in_range (i n j : Z) :
  0 <= i <= n -> j ∈ indices i n -> 0 <= j < n.
Proof. intros Hi Hj. apply elem_of_indices in Hj. lia. Qed.

(** Whether [a[indices]] raises depends on the length of [a] only. *)
Lemma getitems_same_length {A B} (a : list A) (b : list B) (idx : list Z) :
  length a = length b ->
  match getitems a idx, getitems b idx with
  | OK _, OK _ => True
  | Raise e, Raise e' => e = e'
  | _, _ => False
  end.
Proof.
  intros Hlen. unfold getitems. induction idx as [|j idx IH]; simpl; [exact I|].
  assert (Hj : match getitem a j, getitem b j with
               | OK _, OK _ => True
               | Raise e, Raise e' => e = e'
               | _, _ => False
               end).
  { unfold getitem. rewrite <- Hlen.
    destruct ((j <? - Z.of_nat (length a)) || (Z.of_nat (length a) <=? j)) eqn:E;
      [reflexivity|].
    apply orb_false_iff in E. destruct E as [E1 E2].
    apply Z.ltb_ge in E1. apply Z.leb_gt in E2.
    set (k := Z.to_nat (if j <? 0 then j + Z.of_nat (length a) else j)).
    assert (Hk : (k < length a)%nat).
    { unfold k. destruct (j <? 0) eqn:E3; [apply Z.ltb_lt in E3 | apply Z.ltb_ge in E3]; lia. }
    destruct (lookup_lt_is_Some_2 a k Hk) as [v ->].
    destruct (lookup_lt_is_Some_2 b k ltac:(lia)) as [w ->]. exact I. }
  destruct (getitem a j), (getitem b j); try contradiction; simpl.
  - destruct (traverse (getitem a) idx), (traverse (getitem b) idx);
      try contradiction; simpl; auto.
  - exact Hj.
Qed.

(** ** The loop on inputs of any shape *)

Lemma loo_loop_ext solver solver' M M' x x' y y' todo acc :
  (forall i, i ∈ todo ->
     loo_term solver M x y i = loo_term solver' M' x' y' i) ->
  loo_loop solver M x y acc todo = loo_loop solver' M' x' y' acc todo.
Proof.
  revert acc. induction todo as [|i todo IH]; intros acc H; [reflexivity|].
  simpl. rewrite (H i) by left.
  destruct (loo_term solver' M' x' y' i) as [t|e]; [|reflexivity]. simpl.
  apply IH. intros j Hj. apply H. right. exact Hj.
Qed.

Lemma loo_term_x_length solver M x x' y i :
  length x = length x' ->
  loo_term solver M x y i = loo_term solver M x' y i.
Proof.
  intros Hlen. unfold loo_term. rewrite <- Hlen.
  pose proof (getitems_same_length x x'
                (indices i (Z.of_nat (length x))) Hlen) as H.
  destruct (getitems x _), (getitems x' _); try contradiction; simpl.
  - reflexivity.
  - congruence.
Qed.

Lemma loo_statistic_x_length solver M x x' y :
  length x = length x' ->
  loo_statistic solver M x y = loo_statistic solver M x' y.
Proof.
  intros Hlen. unfold loo_statistic. rewrite <- Hlen.
  rewrite (loo_loop_ext solver solver M M x x' y y).
  - reflexivity.
  - intros i _. apply loo_term_x_length. exact Hlen.
Qed.

Lemma getrows_take (M : matrix) (n : nat) (idx : list Z) :
  (forall j, j ∈ idx -> 0 <= j < Z.of_nat n) -> (n <= nrows M)%nat ->
  getrows (Mat (ncols M) (firstn n (rows M))) idx = getrows M idx.
Proof.
  intros Hidx Hn. unfold getrows. simpl.
  rewrite (getitems_take (rows M) n idx Hidx Hn). reflexivity.
Qed.

Lemma loo_term_take solver M x y i :
  0 <= i < Z.of_nat (length x) ->
  (length x <= length y)%nat -> (length x <= nrows M)%nat ->
  loo_term solver (Mat (ncols M) (firstn (length x) (rows M))) x
    (firstn (length x) y) i
  = loo_term solver M x y i.
Proof.
  intros Hi Hy HM. unfold loo_term.
  assert (Hidx : forall j, j ∈ indices i (Z.of_nat (length x)) ->
                   0 <= j < Z.of_nat (length x)).
  { intros j Hj. apply (indices_in_range i _ j); [lia | exact Hj]. }
  rewrite (getitems_take y (length x) _ Hidx Hy).
  rewrite (getrows_take M (length x) _ Hidx HM).
  unfold row. simpl.
  rewrite (getitem_take (rows M) (length x) i Hi HM).
  rewrite (getitem_take y (length x) i Hi Hy).
  reflexivity.
Qed.

Lemma loo_statistic_take solver M x y :
  (length x <= length y)%nat -> (length x <= nrows M)%nat ->
  loo_statistic solver (Mat (ncols M) (firstn (length x) (rows M))) x
    (firstn (length x) y)
  = loo_statistic solver M x y.
Proof.
  intros Hy HM. unfold loo_statistic.
  rewrite (loo_loop_ext solver solver _ M x x _ y).
  - reflexivity.
  - intros i Hi. apply range_elem in Hi. apply loo_term_take; assumption.
Qed.

Lemma range_cons (n : Z) : 0 < n -> range n = 0 :: arange 1 n.
Proof.
  intros H. unfold range, arange. rewrite seqZ_cons by lia.
  f_equal. f_equal; lia.
Qed.

Lemma getitems_indices_ok {A} (a : list A) (i n : Z) :
  0 <= i <= n -> n <= Z.of_nat (length a) ->
  succeeds (getitems a (indices i n)).
Proof.
  intros Hi Hn.
  assert (Hidx : forall j, j ∈ indices i n -> 0 <= j < Z.of_nat (Z.to_nat n)).
  { intros j Hj. apply indices_in_range in Hj; lia. }
  rewrite <- (getitems_take a (Z.to_nat n) _ Hidx) by lia.
  set (a' := firstn (Z.to_nat n) a).
  assert (Hl : Z.of_nat (length a') = n).
  { unfold a'. rewrite length_take. lia. }
  clearbody a'. clear Hidx Hn. subst n.
  destruct (Z.eq_dec i (Z.of_nat (length a'))) as [->|Hne].
  - unfold indices.
    assert (E : arange (Z.of_nat (length a') + 1) (Z.of_nat (length a')) = []).
    { unfold arange. apply seqZ_nil. lia. }
    rewrite E, app_nil_r. rewrite getitems_arange by lia.
    eexists. reflexivity.
  - rewrite getitems_indices by lia. eexists. reflexivity.
Qed.

(** With at least two points, an observation vector shorter than [x]
    makes the first iteration raise [IndexError] at [y[indices]]. *)
Lemma loo_term_short_y solver M x y :
  (2 <= length x)%nat -> (length y < length x)%nat ->
  loo_term solver M x y 0 = Raise IndexError.
Proof.
  intros Hx Hy. unfold loo_term.
  destruct (getitems_indices_ok x 0 (Z.of_nat (length x))) as [x_in ->];
    [lia | lia |]. simpl.
  rewrite (getitems_past_end y _ (Z.of_nat (length x) - 1)); [reflexivity| |lia].
  apply elem_of_indices. lia.
Qed.

Lemma loo_term_short_matrix solver M x y :
  (2 <= length x)%nat -> (length x <= length y)%nat ->
  (nrows M < length x)%nat ->
  loo_term solver M x y 0 = Raise IndexError.
Proof.
  intros Hx Hy HM. unfold loo_term.
  destruct (getitems_indices_ok x 0 (Z.of_nat (length x))) as [x_in ->];
    [lia | lia |]. simpl.
  destruct (getitems_indices_ok y 0 (Z.of_nat (length x))) as [y_in ->];
    [lia | lia |]. simpl.
  unfold getrows.
  rewrite (getitems_past_end (rows M) _ (Z.of_nat (length x) - 1));
    [reflexivity| |unfold nrows in HM; lia].
  apply elem_of_indices. lia.
Qed.

Lemma loo_statistic_first_raises solver M x y e :
  x <> [] -> loo_term solver M x y 0 = Raise e ->
  loo_statistic solver M x y = Raise e.
Proof.
  intros Hx He. unfold loo_statistic.
  rewrite range_cons by (destruct x; [congruence | simpl; lia]).
  simpl. rewrite He. reflexivity.
Qed.

(** ** The cell with numpy's solver returns *)

Lemma wf_matrix_rows (M : matrix) (rs : list vector) :
  wf_matrix M -> (forall r, r ∈ rs -> r ∈ rows M) ->
  wf_matrix (Mat (ncols M) rs).
Proof.
  unfold wf_matrix. rewrite !Forall_forall. simpl. intros H Hsub r Hr.
  apply H, Hsub, Hr.
Qed.

Lemma loo_term_lstsq_succeeds (M : matrix) (x y : vector) (i : Z) :
  wf_matrix M -> length x = nrows M -> length y = nrows M ->
  0 <= i < Z.of_nat (nrows M) ->
  succeeds (loo_term lstsq M x y i).
Proof.
  intros Hwf Hx Hy Hi. rewrite loo_term_training by assumption.
  destruct (lstsq_total
              (Mat (ncols M) (firstn (Z.to_nat (i - 1)) (rows M)
                              ++ skipn (Z.to_nat (i + 1)) (rows M)))
              (firstn (Z.to_nat (i - 1)) y ++ skipn (Z.to_nat (i + 1)) y))
    as (betas & -> & Hlen).
  { unfold nrows in *. simpl.
    rewrite !length_app, !length_take, !length_drop. lia. }
  simpl in *.
  destruct (getitem_nonneg (rows M) i Hi) as (r & Hr & Er).
  unfold row. rewrite Er. simpl.
  assert (Hlr : length r = ncols M).
  { unfold wf_matrix in Hwf. rewrite Forall_forall in Hwf.
    apply Hwf. eapply list_elem_of_lookup_2. exact Hr. }
  unfold matmul_vec. rewrite Hlr, Hlen, Nat.eqb_refl. simpl.
  destruct (getitem_nonneg y i) as (v & _ & ->); [lia|].
  simpl. eexists. reflexivity.
Qed.

Lemma loo_loop_succeeds solver M x y todo acc :
  (forall i, i ∈ todo -> succeeds (loo_term solver M x y i)) ->
  succeeds (loo_loop solver M x y acc todo).
Proof.
  revert acc. induction todo as [|i todo IH]; intros acc H; simpl.
  - eexists. reflexivity.
  - destruct (H i) as [t ->]; [left|]. simpl.
    apply IH. intros j Hj. apply H. right. exact Hj.
Qed.

Lemma loo_statistic_lstsq_succeeds (M : matrix) (x y : vector) :
  wf_matrix M -> x <> [] -> length x = nrows M -> length y = nrows M ->
  succeeds (loo_statistic lstsq M x y).
Proof.
  intros Hwf Hne Hx Hy. unfold loo_statistic.
  destruct (loo_loop_succeeds lstsq M x y (range (Z.of_nat (length x))) 0%Q)
    as [s ->].
  { intros i Hi. apply range_elem in Hi.
    apply loo_term_lstsq_succeeds; try assumption. rewrite <- Hx. exact Hi. }
  simpl.
  replace (Z.of_nat (length x) =? 0) with false.
  - eexists. reflexivity.
  - symmetry. apply Z.eqb_neq. destruct x; [congruence | simpl; lia].
Qed.

Lemma design_matrix_shape (bvs : list vector) (N : nat) (k : Z) :
  Forall (fun v => length v = N) bvs ->
  1 <= k <= Z.of_nat (length bvs) ->
  exists M, design_matrix bvs k = OK M /\ wf_matrix M /\ nrows M = N
            /\ ncols M = Z.to_nat k.
Proof.
  intros Hall Hk. eexists. split; [apply (design_matrix_inside _ N); assumption|].
  split; [apply wf_transpose|]. split.
  - unfold nrows, transpose. simpl. rewrite length_map, length_seq. reflexivity.
  - unfold transpose, nrows. simpl. rewrite length_take. lia.
Qed.

(** The labels of the statistics a run returns are the values of
    [n_basis_vectors], in order. *)
Lemma loo_cell_labels solver bvs x y out :
  loo_cell solver bvs x y = OK out ->
  map fst out = arange 1 (Z.of_nat (length bvs) + 1).
Proof.
  unfold loo_cell. generalize (arange 1 (Z.of_nat (length bvs) + 1)) as ks.
  intros ks. revert out. induction ks as [|k ks IH]; intros out H; simpl in H.
  - inversion H. reflexivity.
  - apply bind_OK in H. destruct H as ([k' s] & Hk & H).
    apply bind_OK in H. destruct H as (out' & Hout & H). inversion H; subst.
    apply bind_OK in Hk. destruct Hk as (M & _ & Hk).
    apply bind_OK in Hk. destruct Hk as (s' & _ & Hk). inversion Hk; subst.
    simpl. f_equal. apply IH. exact Hout.
Qed.

Lemma loo_cell_nonneg solver bvs x y out :
  loo_cell solver bvs x y = OK out ->
  Forall (fun ks => (0 <= snd ks)%Q) out.
Proof.
  unfold loo_cell. generalize (arange 1 (Z.of_nat (length bvs) + 1)) as ks.
  intros ks. revert out. induction ks as [|k ks IH]; intros out H; simpl in H.
  - inversion H. constructor.
  - apply bind_OK in H. destruct H as ([k' s] & Hk & H).
    apply bind_OK in H. destruct H as (out' & Hout & H). inversion H; subst.
    apply bind_OK in Hk. destruct Hk as (M & _ & Hk).
    apply bind_OK in Hk. destruct Hk as (s' & Hs & Hk). inversion Hk; subst.
    constructor; [|apply IH; exact Hout].
    simpl. eapply loo_statistic_nonneg. exact Hs.
Qed.

Lemma traverse_succeeds {A B} (f : A -> result B) (l : list A) :
  (forall a, a ∈ l -> succeeds (f a)) -> succeeds (traverse f l).
Proof.
  induction l as [|a l IH]; intros H; simpl.
  - eexists. reflexivity.
  - destruct (H a) as [b ->]; [left|]. simpl.
    destruct IH as [bs ->]; [intros a' Ha'; apply H; right; exact Ha'|].
    simpl. eexists. reflexivity.
Qed.

Lemma loo_cell_lstsq_succeeds (bvs : list vector) (x y : vector) :
  x <> [] -> length y = length x ->
  Forall (fun v => length v = length x) bvs ->
  succeeds (loo_cell lstsq bvs x y).
Proof.
  intros Hne Hy Hall. unfold loo_cell. apply traverse_succeeds.
  intros k Hk. unfold arange in Hk. apply elem_of_seqZ in Hk.
  destruct (design_matrix_shape bvs (length x) k Hall) as (M & -> & Hwf & Hn & _);
    [lia|]. simpl.
  destruct (loo_statistic_lstsq_succeeds M x y Hwf Hne) as [s ->];
    [congruence | congruence |].
  simpl. eexists. reflexivity.
Qed.

(** ** The solver's failures and the loop *)




(** ** The rows of the design matrix *)

(** Row [i] of [M.T] is column [i] of [M]. *)
Lemma row_transpose (M : matrix) (i : Z) :
  0 <= i < Z.of_nat (ncols M) ->
  row (transpose M) i = OK (column M (Z.to_nat i)).
Proof.
  intros Hi. unfold row, transpose. simpl.
  destruct (getitem_nonneg (map (fun j => column M j) (seq 0 (ncols M))) i)
    as (v & Hv & ->).
  { rewrite length_map, length_seq. exact Hi. }
  f_equal.
  pose proof (list_lookup_fmap (fun j => column M j) (seq 0 (ncols M))
                (Z.to_nat i)) as E.
  change (map (fun j => column M j) (seq 0 (ncols M)) !! Z.to_nat i
          = (fun j => column M j) <$> seq 0 (ncols M) !! Z.to_nat i) in E.
  rewrite Hv in E. rewrite lookup_seq_lt in E by lia. simpl in E.
  inversion E. reflexivity.
Qed.

Lemma vstack_raises (tup : list vector) (e : exn) :
  vstack tup = Raise e -> e = ValueError.
Proof.
  unfold vstack. destruct tup as [|v vs]; [congruence|].
  destruct (forallb _ vs); congruence.
Qed.

Lemma vstack_succeeds (tup : list vector) :
  succeeds (vstack tup)
  <-> tup <> [] /\ exists N, Forall (fun v => length v = N) tup.
Proof.
  split.
  - intros [M HM]. unfold vstack in HM. destruct tup as [|v vs]; [discriminate|].
    split; [discriminate|]. exists (length v).
    destruct (forallb _ vs) eqn:E; [|discriminate].
    constructor; [reflexivity|]. apply Forall_forall. intros w Hw.
    rewrite forallb_forall in E. apply Nat.eqb_eq, E, list_elem_of_In, Hw.
  - intros (Hne & N & Hall). rewrite (vstack_uniform tup N Hne Hall).
    eexists. reflexivity.
Qed.

(** X1. Row [i] of the design matrix holds entry [i] of each of the first [k]
    basis vectors, in their order: one observation per row, one basis
    vector per column. *)
Theorem design_matrix_rows (basis_vectors : list vector) (N : nat) (k i : Z) :
  Forall (fun v => length v = N) basis_vectors ->
  1 <= k <= Z.of_nat (length basis_vectors) ->
  0 <= i < Z.of_nat N ->
  exists M, design_matrix basis_vectors k = OK M
    /\ row M i
       = OK (map (fun v => entry v (Z.to_nat i))
               (firstn (Z.to_nat k) basis_vectors)).
Proof.
  intros Hall Hk Hi. eexists.
  split; [apply (design_matrix_inside _ N); assumption|].
  rewrite row_transpose by (simpl; exact Hi). reflexivity.
Qed.

Lemma design_matrix_rows_witness :
  exists M, design_matrix [[1; 1; 1]; [0; 1; 2]; [0; 1; 4]]%Q 2 = OK M
    /\ row M 2 = OK [1; 2]%Q.
Proof.
  apply (design_matrix_rows [[1; 1; 1]; [0; 1; 2]; [0; 1; 4]]%Q 3 2 2).
  - repeat constructor.
  - simpl. lia.
  - lia.
Defined.

(** X2. The design matrix is built exactly when the slice
    [basis_vectors[:n_basis_vectors]] is not empty and its vectors have one
    common length; in every other case [np.vstack] raises [ValueError], and
    the cell raises nothing else at this step. *)
Theorem design_matrix_succeeds_iff (basis_vectors : list vector) (k : Z) :
  (succeeds (design_matrix basis_vectors k)
   <-> slice_to basis_vectors k <> []
       /\ exists N, Forall (fun v => length v = N) (slice_to basis_vectors k))
  /\ (forall e, design_matrix basis_vectors k = Raise e -> e = ValueError).
Proof.
  split.
  - rewrite <- vstack_succeeds. unfold design_matrix. split.
    + intros [M HM]. apply bind_OK in HM. destruct HM as (S & HS & _).
      exists S. exact HS.
    + intros [S ->]. eexists. reflexivity.
  - intros e H. unfold design_matrix in H.
    destruct (vstack (slice_to basis_vectors k)) as [S|e'] eqn:E;
      [discriminate|].
    simpl in H. inversion H; subst. exact (vstack_raises _ _ E).
Qed.

(** ** The solver on observations that the model reproduces *)

Local Open Scope Q_scope.

Lemma Forall2_Qeq_entry (u v : vector) (i : nat) :
  Forall2 Qeq u v -> entry u i == entry v i.
Proof.
  intros H. revert i. induction H as [|a b u v Hab _ IH]; intros [|i];
    unfold entry in *; simpl; try reflexivity; [exact Hab | apply IH].
Qed.

Lemma entries_Forall2_Qeq (u v : vector) (n : nat) :
  length u = n -> length v = n ->
  (forall i, (i < n)%nat -> entry u i == entry v i) -> Forall2 Qeq u v.
Proof.
  revert v n. induction u as [|a u IH]; intros [|b v] n Hu Hv H;
    simpl in *; subst n; try discriminate; constructor.
  - apply (H 0%nat). lia.
  - apply (IH v (length u)); [reflexivity | lia |].
    intros i Hi. apply (H (S i)). lia.
Qed.

Lemma square_zero (q : Q) : q ^ 2 == 0 -> q == 0.
Proof. simpl. intros H. nra. Qed.

(** When [b] is [a z0] for some [z0], the vector returned reproduces [b]
    and its norm is at most that of [z0]. *)
Lemma lstsq_consistent (a : matrix) (b z0 : vector) :
  wf_matrix a -> nrows a = length b -> length z0 = ncols a ->
  Forall2 Qeq b (matvec a z0) ->
  exists x, lstsq a b = OK x /\ length x = ncols a
    /\ (forall i, (i < nrows a)%nat ->
          sumf (fun j => entry (nth i (rows a) []) j * entry x j) (ncols a)
          == entry b i)
    /\ sumf (fun j => entry x j ^ 2) (ncols a)
       <= sumf (fun j => entry z0 j ^ 2) (ncols a).
Proof.
  intros Hwf Hb Hz Hfit.
  destruct (lstsq_entries a b Hwf Hb) as (x & E & Hlen & _ & Hmin & Hnorm).
  exists x. split; [exact E|]. split; [exact Hlen|].
  assert (H0 : forall i, (i < nrows a)%nat ->
             (entry b i
              - sumf (fun j => entry (nth i (rows a) []) j * entry z0 j)
                  (ncols a)) ^ 2 == 0).
  { intros i Hi. rewrite (Forall2_Qeq_entry _ _ i Hfit).
    rewrite (entry_matvec a Hwf z0 i Hz Hi). simpl. ring. }
  pose proof (sumf_zero _ _ H0) as Hz0.
  pose proof (Hmin (entry z0)) as Hle. rewrite Hz0 in Hle.
  assert (Hx0 : sumf (fun i => (entry b i
                  - sumf (fun j => entry (nth i (rows a) []) j * entry x j)
                      (ncols a)) ^ 2) (nrows a) == 0).
  { apply Qle_antisym; [exact Hle|].
    apply sumf_nonneg. intros i _. apply square_nonneg. }
  split.
  - intros i Hi.
    pose proof (sumf_nonneg_zero _ _
                  (fun i _ => square_nonneg _) Hx0 i Hi) as Hi0.
    apply square_zero in Hi0. lra.
  - apply (Hnorm (entry z0)). rewrite Hz0, Hx0. reflexivity.
Qed.

Lemma matvec_of_entries (a : matrix) (b x : vector) :
  wf_matrix a -> nrows a = length b -> length x = ncols a ->
  (forall i, (i < nrows a)%nat ->
     sumf (fun j => entry (nth i (rows a) []) j * entry x j) (ncols a)
     == entry b i) ->
  Forall2 Qeq (matvec a x) b.
Proof.
  intros Hwf Hb Hlen Hrep.
  apply (entries_Forall2_Qeq _ _ (nrows a)).
  - unfold matvec. apply length_map.
  - symmetry. exact Hb.
  - intros i Hi. rewrite (entry_matvec a Hwf x i Hlen Hi).
    apply Hrep. exact Hi.
Qed.





Local Close Scope Q_scope.

(** ** The observations and the basis vectors *)

Local Open Scope Q_scope.

Lemma entry_lookup (v : vector) (i : nat) (a : Q) :
  v !! i = Some a -> entry v i = a.
Proof. intros H. unfold entry. apply nth_lookup_Some. exact H. Qed.

Lemma nth_seqZ (start len : Z) (i : nat) :
  (Z.of_nat i < len)%Z -> nth i (seqZ start len) 0%Z = (start + Z.of_nat i)%Z.
Proof.
  intros H. apply nth_lookup_Some. apply lookup_seqZ_lt. lia.
Qed.

(** The samples before the last one is overwritten. *)
Lemma linspace_scaled (start : Q) (num : Z) (scale : Q -> Q) (i : nat) :
  (Z.of_nat i < num)%Z ->
  entry (map (fun t => t + start) (map scale (map inject_Z (range num)))) i
  = scale (inject_Z (Z.of_nat i)) + start.
Proof.
  intros H. rewrite !map_map.
  rewrite (entry_map _ _ 0%Z).
  - unfold range, arange. rewrite nth_seqZ by lia. reflexivity.
  - unfold range, arange. rewrite length_seqZ. lia.
Qed.

Lemma entry_insert (v : vector) (i j : nat) (a : Q) :
  (i < length v)%nat ->
  entry (<[ i := a ]> v) j = if Nat.eqb j i then a else entry v j.
Proof.
  intros H. unfold entry. destruct (Nat.eqb_spec j i) as [->|Hne].
  - apply nth_lookup_Some. apply list_lookup_insert_eq. exact H.
  - rewrite !nth_lookup. rewrite list_lookup_insert_ne by congruence.
    reflexivity.
Qed.

Lemma linspace_length (start stop : Q) (num : Z) :
  (0 <= num)%Z ->
  exists x, linspace start stop num = OK x /\ length x = Z.to_nat num.
Proof.
  intros Hn. unfold linspace.
  replace (num <? 0)%Z with false by (symmetry; apply Z.ltb_ge; exact Hn).
  eexists. split; [reflexivity|].
  assert (H : forall l : vector,
            length (if (1 <? num)%Z
                    then <[ Nat.pred (length l) := stop ]> l else l)
            = length l).
  { intros l. destruct (1 <? num)%Z; [apply length_insert | reflexivity]. }
  rewrite H, length_map.
  destruct (0 <? num - 1)%Z; [destruct (Qeq_bool _ 0)|];
    unfold range, arange; rewrite !length_map, length_seqZ; lia.
Qed.

(** X5. [np.linspace(start, stop, num)] with [num >= 0] returns [num] samples;
    sample [i] is [start + i * (stop - start) / (num - 1)], and from two
    samples on the last one is [stop] itself, not a rounded sum. *)
Theorem linspace_samples (start stop : Q) (num : Z) :
  (0 <= num)%Z ->
  exists x, linspace start stop num = OK x
    /\ length x = Z.to_nat num
    /\ (forall i, (0 <= i < num)%Z ->
          entry x (Z.to_nat i)
          == start + inject_Z i * ((stop - start) / inject_Z (num - 1)))
    /\ ((2 <= num)%Z -> last x = Some stop).
Proof.
  intros Hn. unfold linspace.
  replace (num <? 0)%Z with false by (symmetry; apply Z.ltb_ge; exact Hn).
  cbv zeta.
  assert (Hscale : exists scale : Q -> Q,
    (if (0 <? num - 1)%Z
     then if Qeq_bool ((stop - start) / inject_Z (num - 1)) 0
          then map (fun t => t / inject_Z (num - 1) * (stop - start))
                 (map inject_Z (range num))
          else map (fun t => t * ((stop - start) / inject_Z (num - 1)))
                 (map inject_Z (range num))
     else map (fun t => t * (stop - start)) (map inject_Z (range num)))
    = map scale (map inject_Z (range num))
    /\ forall i, (0 <= i < num)%Z ->
         scale (inject_Z i)
         == inject_Z i * ((stop - start) / inject_Z (num - 1))).
  { destruct (0 <? num - 1)%Z eqn:Hdiv.
    - destruct (Qeq_bool _ 0).
      + eexists. split; [reflexivity|]. intros i _. unfold Qdiv. ring.
      + eexists. split; [reflexivity|]. intros i _. reflexivity.
    - eexists. split; [reflexivity|]. intros i Hi.
      apply Z.ltb_ge in Hdiv. assert (i = 0)%Z as -> by lia.
      change (inject_Z 0) with 0. ring. }
  destruct Hscale as (scale & -> & Hscale).
  set (pre := map (fun t => t + start)
                (map scale (map inject_Z (range num)))).
  assert (Hlen : length pre = Z.to_nat num).
  { unfold pre, range, arange. rewrite !length_map, length_seqZ. lia. }
  assert (Hpre : forall i, (0 <= i < num)%Z ->
            entry pre (Z.to_nat i)
            == start + inject_Z i * ((stop - start) / inject_Z (num - 1))).
  { intros i Hi. unfold pre. rewrite linspace_scaled by lia.
    rewrite Z2Nat.id by lia. rewrite (Hscale i Hi). ring. }
  destruct (1 <? num)%Z eqn:H1.
  - apply Z.ltb_lt in H1. eexists. split; [reflexivity|].
    split; [rewrite length_insert; exact Hlen|]. split.
    + intros i Hi. rewrite entry_insert by lia.
      destruct (Nat.eqb_spec (Z.to_nat i) (Nat.pred (length pre))) as [E|E].
      * assert (i = num - 1)%Z as -> by lia.
        field. change 0 with (inject_Z 0). rewrite inject_Z_injective. lia.
      * apply Hpre. exact Hi.
    + intros _. rewrite last_lookup, length_insert.
      apply list_lookup_insert_eq. lia.
  - apply Z.ltb_ge in H1. exists pre. split; [reflexivity|].
    split; [exact Hlen|]. split; [exact Hpre | lia].
Qed.

(** Five samples from [-6] to [6]. *)
Lemma linspace_samples_witness :
  exists x, linspace (-6) 6 5 = OK x
    /\ length x = 5%nat
    /\ (forall i, (0 <= i < 5)%Z ->
          entry x (Z.to_nat i)
          == -6 + inject_Z i * ((6 - -6) / inject_Z (5 - 1)))
    /\ ((2 <= 5)%Z -> last x = Some 6).
Proof.
  apply (linspace_samples (-6) 6 5). lia.
Defined.

(** A negative number of samples is refused. *)
Lemma linspace_negative (start stop : Q) (num : Z) :
  (num < 0)%Z -> linspace start stop num = Raise ValueError.
Proof.
  intros H. unfold linspace. apply Z.ltb_lt in H. rewrite H. reflexivity.
Qed.

Lemma broadcast_same_length (f : Q -> Q -> Q) (u v : vector) :
  length u = length v -> broadcast f u v = OK (zip_with f u v).
Proof.
  intros H. unfold broadcast.
  destruct u as [|a [|a' u]]; destruct v as [|b [|b' v]];
    try discriminate; try reflexivity.
  rewrite H, Nat.eqb_refl. reflexivity.
Qed.

Lemma zip_with_map_map {A} (f : Q -> Q -> Q) (g h : A -> Q) (l : list A) :
  zip_with f (map g l) (map h l) = map (fun a => f (g a) (h a)) l.
Proof. induction l as [|a l IH]; simpl; [reflexivity | f_equal; exact IH]. Qed.

Lemma entry_zip_with_plus (u v : vector) (i : nat) :
  length u = length v ->
  entry (zip_with Qplus u v) i == entry u i + entry v i.
Proof.
  unfold entry. revert v i.
  induction u as [|a u IH]; intros [|b v] [|i] H; simpl in *;
    try lra; try lia.
  apply IH. lia.
Qed.

Section ObservationFacts.

Variable np_sin : Q -> Q.
Variable np_pi : Q.

Local Abbreviation basis := (basis_vectors np_sin np_pi).
Local Abbreviation feat := (features np_sin np_pi).

(** The noise-free value at one abscissa, as [true_linear + true_quadratic
    + true_sinusoid] adds it up. *)
Let signal (a : Q) : Q :=
  (2 + 3 * a) + (1 # 5) * a ^ 2 + 2 * np_sin (2 * np_pi * a / true_period).

Lemma length_basis_vectors (x : vector) : length (basis x) = 5%nat.
Proof. reflexivity. Qed.

Lemma basis_vectors_uniform (x : vector) :
  Forall (fun v => length v = length x) (basis x).
Proof.
  unfold basis_vectors, sinusoid, box.
  repeat constructor; try apply length_map.
Qed.

Lemma basis_vectors_entries (x : vector) (i : nat) (a : Q) :
  x !! i = Some a ->
  map (fun v => nth i v 0) (basis x) = feat a.
Proof.
  intros H.
  assert (Hm : forall f : Q -> Q, nth i (map f x) 0 = f a).
  { intros f. apply nth_lookup_Some.
    pose proof (list_lookup_fmap f x i) as E. rewrite H in E. exact E. }
  unfold basis_vectors, features, sinusoid, box. simpl.
  rewrite !Hm. rewrite (nth_lookup_Some _ _ _ _ H). reflexivity.
Qed.

Lemma design_matrix_basis (x : vector) (k : Z) :
  (1 <= k <= 5)%Z ->
  design_matrix (basis x) k
  = OK (transpose (Mat (length x) (firstn (Z.to_nat k) (basis x)))).
Proof.
  intros Hk. apply design_matrix_inside.
  - apply basis_vectors_uniform.
  - rewrite length_basis_vectors. lia.
Qed.

Lemma design_matrix_basis_nth (x : vector) (k : Z) (i : nat) (a : Q) :
  x !! i = Some a ->
  nth i (rows (transpose (Mat (length x) (firstn (Z.to_nat k) (basis x))))) []
  = firstn (Z.to_nat k) (feat a).
Proof.
  intros H. unfold transpose. simpl.
  pose proof (lookup_lt_Some _ _ _ H) as Hi.
  rewrite (nth_indep _ [] (column (Mat (length x)
             (firstn (Z.to_nat k) (basis x))) 0))
    by (rewrite length_map, length_seq; exact Hi).
  rewrite (map_nth (fun j => column _ j)), seq_nth by exact Hi. simpl.
  unfold column. simpl rows.
  rewrite <- (basis_vectors_entries x i a H).
  rewrite <- firstn_map. reflexivity.
Qed.

Lemma observations_value (x noise : vector) :
  length noise = length x ->
  observations np_sin np_pi x noise = OK (zip_with Qplus (map signal x) noise).
Proof.
  intros H. unfold observations, np_add, sinusoid.
  rewrite !map_map.
  rewrite broadcast_same_length by (rewrite !length_map; reflexivity).
  simpl bind. rewrite zip_with_map_map.
  rewrite broadcast_same_length by (rewrite !length_map; reflexivity).
  simpl bind. rewrite zip_with_map_map.
  rewrite broadcast_same_length by (rewrite length_map; symmetry; exact H).
  reflexivity.
Qed.

Lemma entry_matvec_basis (x : vector) (k : Z) (z : vector) (i : nat) (a : Q) :
  x !! i = Some a ->
  entry (matvec (transpose (Mat (length x) (firstn (Z.to_nat k) (basis x)))) z)
    i
  = inner (firstn (Z.to_nat k) (feat a)) z.
Proof.
  intros H. pose proof (lookup_lt_Some _ _ _ H) as Hi.
  unfold matvec. rewrite (entry_map _ _ [] i).
  - rewrite (design_matrix_basis_nth x k i a H). reflexivity.
  - unfold transpose. simpl. rewrite length_map, length_seq. exact Hi.
Qed.

Lemma entry_observations (x noise : vector) (i : nat) (a : Q) :
  length noise = length x -> x !! i = Some a ->
  entry (zip_with Qplus (map signal x) noise) i == signal a + entry noise i.
Proof.
  intros Hn H. rewrite entry_zip_with_plus by (rewrite length_map; congruence).
  rewrite (entry_lookup (map signal x) i (signal a)); [reflexivity|].
  pose proof (list_lookup_fmap signal x i) as E. rewrite H in E. exact E.
Qed.

(** The weights [truths], padded with a zero for the box, give the
    noise-free value of every model that has the first four basis
    vectors. *)
Lemma signal_in_model (k : Z) (a : Q) :
  (4 <= k <= 5)%Z ->
  inner (firstn (Z.to_nat k) (feat a)) (firstn (Z.to_nat k) (truths ++ [0]))
  == signal a.
Proof.
  intros Hk. assert (k = 4 \/ k = 5)%Z as [-> | ->] by lia;
    unfold features, truths, signal; simpl; ring.
Qed.

(** X6. Row [i] of every design matrix of the notebook holds the first
    [n_basis_vectors] features of [x[i]]: one, [x[i]], its square, the
    sinusoid and the box, in this order. *)
Theorem design_matrix_features (x : vector) (k : Z) (i : nat) (a : Q) :
  (1 <= k <= 5)%Z -> x !! i = Some a ->
  exists M, design_matrix (basis x) k = OK M
    /\ nrows M = length x
    /\ ncols M = Z.to_nat k
    /\ row M (Z.of_nat i) = OK (firstn (Z.to_nat k) (feat a)).
Proof.
  intros Hk H. pose proof (lookup_lt_Some _ _ _ H) as Hi.
  eexists. split; [apply design_matrix_basis; exact Hk|].
  split; [|split].
  - unfold nrows, transpose. simpl. rewrite length_map, length_seq. reflexivity.
  - unfold transpose, nrows. simpl. rewrite length_take. simpl. lia.
  - rewrite row_transpose by (simpl; lia). rewrite Nat2Z.id.
    unfold column. simpl rows. f_equal.
    rewrite <- (basis_vectors_entries x i a H).
    rewrite <- firstn_map. reflexivity.
Qed.

(** X7. The observations minus the noise are the model with four basis vectors
    evaluated at the weights [truths]: the data are generated by the fourth
    of the nested models. *)
Theorem observations_in_model (x noise : vector) :
  length noise = length x ->
  exists y M, observations np_sin np_pi x noise = OK y
    /\ length y = length x
    /\ design_matrix (basis x) 4 = OK M
    /\ Forall2 Qeq (vsub y noise) (matvec M truths).
Proof.
  intros Hn. eexists. eexists.
  split; [apply observations_value; exact Hn|].
  assert (Hy : length (zip_with Qplus (map signal x) noise) = length x).
  { rewrite length_zip_with, length_map. lia. }
  split; [exact Hy|].
  split; [apply design_matrix_basis; lia|].
  apply (entries_Forall2_Qeq _ _ (length x)).
  - rewrite length_vsub; [exact Hy | congruence].
  - unfold matvec, transpose. simpl. rewrite !length_map, length_seq.
    reflexivity.
  - intros i Hi.
    destruct (lookup_lt_is_Some_2 x i Hi) as [a Ha].
    rewrite entry_vsub by congruence.
    rewrite (entry_observations x noise i a Hn Ha).
    rewrite (entry_matvec_basis x 4 truths i a Ha).
    rewrite <- (signal_in_model 4 a) by lia.
    change (firstn (Z.to_nat 4) (truths ++ [0])) with truths. ring.
Qed.

(** X8. Without noise, [lstsq] fits the observations exactly with four basis
    vectors and with five: the residual of the fit is zero at every
    point. *)
Theorem noise_free_fit_is_exact (x noise : vector) (k : Z) :
  (4 <= k <= 5)%Z ->
  length noise = length x -> Forall (Qeq 0) noise ->
  exists y M beta, observations np_sin np_pi x noise = OK y
    /\ design_matrix (basis x) k = OK M
    /\ lstsq M y = OK beta
    /\ Forall2 Qeq (matvec M beta) y.
Proof.
  intros Hk Hn H0.
  set (y := zip_with Qplus (map signal x) noise).
  set (M := transpose (Mat (length x) (firstn (Z.to_nat k) (basis x)))).
  assert (Hy : length y = length x).
  { unfold y. rewrite length_zip_with, length_map. lia. }
  assert (Hwf : wf_matrix M) by apply wf_transpose.
  assert (Hrows : nrows M = length y).
  { unfold M, nrows, transpose. simpl. rewrite length_map, length_seq.
    symmetry. exact Hy. }
  assert (Hcols : length (firstn (Z.to_nat k) (truths ++ [0])) = ncols M).
  { unfold M, transpose, nrows. simpl ncols. rewrite !length_take.
    simpl. lia. }
  assert (Hfit : Forall2 Qeq y
                   (matvec M (firstn (Z.to_nat k) (truths ++ [0])))).
  { apply (entries_Forall2_Qeq _ _ (length x)); [exact Hy | |].
    - unfold matvec. fold (nrows M). rewrite length_map. fold (nrows M).
      congruence.
    - intros i Hi. destruct (lookup_lt_is_Some_2 x i Hi) as [a Ha].
      unfold y, M. rewrite (entry_observations x noise i a Hn Ha).
      rewrite (entry_matvec_basis x k _ i a Ha).
      rewrite (signal_in_model k a Hk).
      assert (E : entry noise i == 0).
      { unfold entry. rewrite Forall_forall in H0.
        destruct (nth_in_or_default i noise 0) as [Hin | ->]; [|reflexivity].
        symmetry. apply H0. apply list_elem_of_In. exact Hin. }
      rewrite E. ring. }
  destruct (lstsq_consistent M y _ Hwf Hrows Hcols Hfit)
    as (beta & E & Hlen & Hrep & _).
  exists y, M, beta.
  split; [apply observations_value; exact Hn|].
  split; [apply design_matrix_basis; lia|].
  split; [exact E|].
  apply matvec_of_entries; assumption.
Qed.

(** X9. From the grid to the statistics: for [n >= 1] samples and a noise
    array of that length, [np.linspace], the observations, the basis
    vectors and the leave-one-out cell with numpy's solver all return, and
    the cell yields one statistic for each of [n_basis_vectors = 1 .. 5], in
    this order, none of them negative. *)
Theorem notebook_loo_cell_returns (start stop : Q) (n : Z) (noise : vector) :
  (1 <= n)%Z -> length noise = Z.to_nat n ->
  exists x y out,
    linspace start stop n = OK x
    /\ observations np_sin np_pi x noise = OK y
    /\ loo_cell lstsq (basis x) x y = OK out
    /\ map fst out = [1; 2; 3; 4; 5]%Z
    /\ Forall (fun ks => 0 <= snd ks) out.
Proof.
  intros Hn Hnoise.
  destruct (linspace_length start stop n) as (x & Ex & Hx); [lia|].
  assert (Hne : x <> []).
  { intros ->. simpl in Hx. lia. }
  assert (Hy : length (zip_with Qplus (map signal x) noise) = length x).
  { rewrite length_zip_with, length_map. lia. }
  destruct (loo_cell_lstsq_succeeds (basis x) x _ Hne Hy
              (basis_vectors_uniform x)) as [out Eout].
  exists x, (zip_with Qplus (map signal x) noise), out.
  split; [exact Ex|].
  split; [apply observations_value; congruence|].
  split; [exact Eout|]. split.
  - exact (loo_cell_labels _ _ _ _ _ Eout).
  - exact (loo_cell_nonneg _ _ _ _ _ Eout).
Qed.

(** X10. With at least two abscissae, the observations are computed exactly
    when the noise array has the length of [x] or a single entry, which
    numpy broadcasts to every observation; any other length raises
    [ValueError]. *)
Theorem observations_noise_length (x noise : vector) :
  (2 <= length x)%nat ->
  (succeeds (observations np_sin np_pi x noise)
   <-> length noise = length x \/ length noise = 1%nat)
  /\ (forall e, observations np_sin np_pi x noise = Raise e -> e = ValueError).
Proof.
  intros Hx. unfold observations, np_add, sinusoid. rewrite !map_map.
  rewrite broadcast_same_length by (rewrite !length_map; reflexivity).
  simpl bind. rewrite zip_with_map_map.
  rewrite broadcast_same_length by (rewrite !length_map; reflexivity).
  simpl bind. rewrite zip_with_map_map.
  destruct x as [|a [|a' x]]; simpl in Hx; try lia. simpl map.
  unfold broadcast.
  destruct noise as [|b [|b' noise]].
  - simpl. split; [|intros e H; congruence].
    split; [intros [? H]; discriminate | intros [H|H]; discriminate].
  - split; [|intros e H; discriminate].
    split; [intros _; right; reflexivity | intros _; eexists; reflexivity].
  - match goal with
    | |- context [Nat.eqb ?n ?m] => destruct (Nat.eqb_spec n m) as [E|E]
    end.
    + split; [|intros e H; discriminate].
      split; [intros _; left | intros _; eexists; reflexivity].
      simpl in *. rewrite length_map in E. lia.
    + split; [|intros e H; congruence].
      split; [intros [? H]; discriminate|].
      intros [H|H]; simpl in *; [|lia].
      exfalso. apply E. rewrite length_map. lia.
Qed.

End ObservationFacts.

(** The examples take abscissae that are multiples of half a period, where
    the sinusoid vanishes, so that [np_sin] can be the zero function; no
    statement depends on the value of [np_pi]. *)
Lemma design_matrix_features_witness :
  exists M, design_matrix (basis_vectors (fun _ => 0) 3 [0; 2 # 5; 4 # 5]) 3
            = OK M
    /\ nrows M = 3%nat
    /\ ncols M = 3%nat
    /\ row M 1 = OK [1; 2 # 5; (2 # 5) ^ 2].
Proof.
  apply (design_matrix_features (fun _ => 0) 3 [0; 2 # 5; 4 # 5] 3 1 (2 # 5)).
  - lia.
  - reflexivity.
Defined.

Lemma observations_in_model_witness :
  exists y M,
    observations (fun _ => 0) 3 [0; 2 # 5; 4 # 5] [1; -1; 0] = OK y
    /\ length y = 3%nat
    /\ design_matrix (basis_vectors (fun _ => 0) 3 [0; 2 # 5; 4 # 5]) 4 = OK M
    /\ Forall2 Qeq (vsub y [1; -1; 0]) (matvec M truths).
Proof.
  apply (observations_in_model (fun _ => 0) 3 [0; 2 # 5; 4 # 5] [1; -1; 0]).
  reflexivity.
Defined.

Lemma noise_free_fit_is_exact_witness :
  exists y M beta,
    observations (fun _ => 0) 3 [0; 2 # 5; 4 # 5] [0; 0; 0] = OK y
    /\ design_matrix (basis_vectors (fun _ => 0) 3 [0; 2 # 5; 4 # 5]) 5 = OK M
    /\ lstsq M y = OK beta
    /\ Forall2 Qeq (matvec M beta) y.
Proof.
  apply (noise_free_fit_is_exact (fun _ => 0) 3 [0; 2 # 5; 4 # 5] [0; 0; 0] 5).
  - lia.
  - reflexivity.
  - repeat constructor.
Defined.

Lemma notebook_loo_cell_returns_witness :
  exists x y out,
    linspace 0 (6 # 5) 4 = OK x
    /\ observations (fun _ => 0) 3 x [1; -1; 0; 1] = OK y
    /\ loo_cell lstsq (basis_vectors (fun _ => 0) 3 x) x y = OK out
    /\ map fst out = [1; 2; 3; 4; 5]%Z
    /\ Forall (fun ks => 0 <= snd ks) out.
Proof.
  apply (notebook_loo_cell_returns (fun _ => 0) 3 0 (6 # 5) 4 [1; -1; 0; 1]).
  - lia.
  - reflexivity.
Defined.

Lemma observations_noise_length_witness :
  (succeeds (observations (fun _ => 0) 3 [0; 2 # 5; 4 # 5] [1 # 2])
   <-> length [1 # 2] = length [0; 2 # 5; 4 # 5] \/ length [1 # 2] = 1%nat)
  /\ (forall e, observations (fun _ => 0) 3 [0; 2 # 5; 4 # 5] [1 # 2] = Raise e
                -> e = ValueError).
Proof.
  apply (observations_noise_length (fun _ => 0) 3 [0; 2 # 5; 4 # 5] [1 # 2]).
  simpl. lia.
Defined.

Local Close Scope Q_scope.

(** ** The dictionary of inference data *)

Lemma model_name_inj (j k : Z) : model_name j = model_name k -> j = k.
Proof.
  unfold model_name. intros H.
  apply (String.app_inj "n=") in H. apply (inj pretty) in H. exact H.
Qed.

Section SamplingFacts.

Context {inference_data : Type}.
Variable sample : Z -> result inference_data.

(** What the loop leaves in the dictionary: the entry of every model it
    went through, under that model's name, and the entries that were there
    under other names. *)
Lemma sampling_loop_entries (todo : list Z)
    (d d' : gmap string inference_data) :
  NoDup todo ->
  sampling_loop inference_data sample d todo = OK d' ->
  (forall k, k ∈ todo ->
     exists v, sample k = OK v /\ d' !! model_name k = Some v)
  /\ (forall s, (forall k, k ∈ todo -> s <> model_name k) -> d' !! s = d !! s).
Proof.
  revert d. induction todo as [|k todo IH]; intros d Hnd H; simpl in H.
  - inversion H; subst. split; [intros k Hk; inversion Hk | reflexivity].
  - apply bind_OK in H. destruct H as (v & Hv & H).
    apply NoDup_cons in Hnd. destruct Hnd as [Hk Hnd].
    destruct (IH _ Hnd H) as [IH1 IH2]. split.
    + intros k' Hk'. apply elem_of_cons in Hk'. destruct Hk' as [-> | Hk'].
      * exists v. split; [exact Hv|]. rewrite IH2.
        -- apply lookup_insert_eq.
        -- intros j Hj E. apply model_name_inj in E. subst j. contradiction.
      * apply IH1. exact Hk'.
    + intros s Hs. rewrite IH2.
      * apply lookup_insert_ne. intros E. apply (Hs k); [left | congruence].
      * intros j Hj. apply Hs. right. exact Hj.
Qed.

Lemma sampling_loop_size (todo : list Z) (d d' : gmap string inference_data) :
  NoDup todo -> (forall k, k ∈ todo -> d !! model_name k = None) ->
  sampling_loop inference_data sample d todo = OK d' ->
  size d' = (size d + length todo)%nat.
Proof.
  revert d. induction todo as [|k todo IH]; intros d Hnd Hfresh H; simpl in H.
  - inversion H; subst. simpl. lia.
  - apply bind_OK in H. destruct H as (v & Hv & H).
    apply NoDup_cons in Hnd. destruct Hnd as [Hk Hnd].
    rewrite (IH (<[ model_name k := v ]> d) Hnd); [| |exact H].
    + rewrite map_size_insert_None by (apply Hfresh; left). simpl. lia.
    + intros j Hj. rewrite lookup_insert_ne.
      * apply Hfresh. right. exact Hj.
      * intros E. apply model_name_inj in E. subst j. contradiction.
Qed.

Lemma NoDup_arange (start stop : Z) : NoDup (arange start stop).
Proof. unfold arange. apply NoDup_seqZ. Qed.

Lemma elem_of_arange (start stop k : Z) :
  k ∈ arange start stop <-> start <= k < stop.
Proof. unfold arange. rewrite elem_of_seqZ. lia. Qed.

(** X11. A run of the sampling cell that returns leaves exactly one entry per
    model: the names [n=1], [n=2], ... are pairwise distinct, so no
    assignment replaces an earlier entry, and the entry under the name of
    model [k] is what sampling model [k] returned. *)
Theorem sampling_cell_entries (total_basis_vectors : Z)
    (d : gmap string inference_data) :
  sampling_cell inference_data sample total_basis_vectors = OK d ->
  (forall k, 1 <= k <= total_basis_vectors ->
     exists v, sample k = OK v /\ d !! model_name k = Some v)
  /\ (forall s, is_Some (d !! s) ->
        exists k, 1 <= k <= total_basis_vectors /\ s = model_name k)
  /\ size d = Z.to_nat total_basis_vectors.
Proof.
  unfold sampling_cell. intros H.
  destruct (sampling_loop_entries _ _ _ (NoDup_arange _ _) H) as [H1 H2].
  split; [|split].
  - intros k Hk. apply H1. apply elem_of_arange. lia.
  - intros s [v Hs].
    destruct (decide (Exists (fun k => s = model_name k)
                        (arange 1 (total_basis_vectors + 1)))) as [Hex|Hno].
    + apply Exists_exists in Hex. destruct Hex as (k & Hk & E).
      exists k. apply elem_of_arange in Hk. split; [lia | exact E].
    + rewrite H2 in Hs; [rewrite lookup_empty in Hs; discriminate|].
      intros k Hk E. apply Hno. apply Exists_exists. exists k.
      split; assumption.
  - rewrite (sampling_loop_size (arange 1 (total_basis_vectors + 1)) ∅ d
               (NoDup_arange _ _)); [| |exact H].
    + rewrite map_size_empty. unfold arange. rewrite length_seqZ. lia.
    + intros k _. apply lookup_empty.
Qed.

(** X12. [inference_data_dict['n=4']] finds an entry exactly when the cell ran
    with at least four basis vectors; with fewer the name is not a key. *)
Theorem posterior_of_model_4 (total_basis_vectors : Z)
    (d : gmap string inference_data) :
  sampling_cell inference_data sample total_basis_vectors = OK d ->
  (is_Some (d !! "n=4") <-> 4 <= total_basis_vectors).
Proof.
  unfold sampling_cell. intros H.
  destruct (sampling_loop_entries _ _ _ (NoDup_arange _ _) H) as [H1 H2].
  change "n=4" with (model_name 4). split.
  - intros [v Hs]. destruct (Z.le_gt_cases 4 total_basis_vectors) as [|Hlt];
      [assumption|].
    rewrite H2 in Hs; [rewrite lookup_empty in Hs; discriminate|].
    intros k Hk E. apply model_name_inj in E. subst k.
    apply elem_of_arange in Hk. lia.
  - intros Hle. destruct (H1 4) as (v & _ & Hv).
    + apply elem_of_arange. lia.
    + exists v. exact Hv.
Qed.

End SamplingFacts.

(** Five models, each sampled to its own number. *)
Lemma sampling_cell_entries_witness :
  exists d, sampling_cell Z (fun k => OK k) 5 = OK d
    /\ (forall k, 1 <= k <= 5 ->
          exists v, OK k = OK v /\ d !! model_name k = Some v)
    /\ (forall s, is_Some (d !! s) -> exists k, 1 <= k <= 5 /\ s = model_name k)
    /\ size d = 5%nat.
Proof.
  destruct (sampling_cell Z (fun k => OK k) 5) as [d|e] eqn:E.
  - exists d. split; [reflexivity|].
    exact (sampling_cell_entries (fun k => OK k) 5 d E).
  - unfold sampling_cell in E. simpl in E. discriminate.
Defined.

(** With three basis vectors there is no entry [n=4]. *)
Lemma posterior_of_model_4_witness :
  exists d, sampling_cell Z (fun k => OK k) 3 = OK d
    /\ (is_Some (d !! "n=4") <-> 4 <= 3).
Proof.
  destruct (sampling_cell Z (fun k => OK k) 3) as [d|e] eqn:E.
  - exists d. split; [reflexivity|].
    exact (posterior_of_model_4 (fun k => OK k) 3 d E).
  - unfold sampling_cell in E. simpl in E. discriminate.
Defined.

(** ** The flat chain *)

Lemma length_concat_uniform {A} (ls : list (list A)) (d : nat) :
  Forall (fun p => length p = d) ls ->
  length (concat ls) = (length ls * d)%nat.
Proof.
  induction 1 as [|p ls Hp _ IH]; simpl; [reflexivity|].
  rewrite length_app, IH, Hp. reflexivity.
Qed.

Lemma lookup_concat_uniform {A} (ls : list (list A)) (d i j : nat) :
  Forall (fun p => length p = d) ls -> (j < d)%nat ->
  concat ls !! (i * d + j)%nat = ls !! i ≫= (fun p => p !! j).
Proof.
  intros Hall Hj. revert i. induction Hall as [|p ls Hp _ IH]; intros i.
  - reflexivity.
  - destruct i as [|i]; simpl.
    + apply lookup_app_l. lia.
    + rewrite lookup_app_r by lia.
      replace (d + i * d + j - length p)%nat with (i * d + j)%nat by lia.
      apply IH.
Qed.

(** X13. The flat chain has one row per draw of every chain: row
    [i * draws + j] is draw [j] of chain [i], so that the chains follow one
    another and no draw is lost or repeated. *)
Theorem flatchain_rows (post : array3) :
  wf_array3 post -> (shape0 post * shape1 post)%nat <> 0%nat ->
  exists F, flatchain post = OK F
    /\ nrows F = (shape0 post * shape1 post)%nat
    /\ ncols F = shape2 post
    /\ wf_matrix F
    /\ forall i j, (i < shape0 post)%nat -> (j < shape1 post)%nat ->
         rows F !! (i * shape1 post + j)%nat
         = planes post !! i ≫= (fun p => p !! j).
Proof.
  intros [Hlen Hall] Hne. unfold flatchain.
  apply Nat.eqb_neq in Hne. rewrite Hne.
  assert (Hlens : Forall (fun p => length p = shape1 post) (planes post)).
  { eapply Forall_impl; [exact Hall|]. intros p [Hp _]. exact Hp. }
  eexists. split; [reflexivity|]. split; [|split; [|split]].
  - unfold nrows. simpl. rewrite (length_concat_uniform _ _ Hlens), Hlen.
    reflexivity.
  - reflexivity.
  - unfold wf_matrix. simpl. apply Forall_forall. intros r Hr.
    apply list_elem_of_In, in_concat in Hr. destruct Hr as (p & Hp & Hr).
    rewrite Forall_forall in Hall.
    destruct (Hall p (proj2 (list_elem_of_In _ _) Hp)) as [_ Hrows].
    rewrite Forall_forall in Hrows. apply Hrows, list_elem_of_In, Hr.
  - intros i j _ Hj. simpl. apply lookup_concat_uniform; assumption.
Qed.

(** Two chains of two draws of one weight. *)
Lemma flatchain_rows_witness :
  exists F, flatchain (Arr3 2 2 1 [[[1%Q]; [2%Q]]; [[3%Q]; [4%Q]]]) = OK F
    /\ nrows F = 4%nat
    /\ ncols F = 1%nat
    /\ wf_matrix F
    /\ forall i j, (i < 2)%nat -> (j < 2)%nat ->
         rows F !! (i * 2 + j)%nat
         = ([[[1%Q]; [2%Q]]; [[3%Q]; [4%Q]]] : list (list vector)) !! i
           ≫= (fun p => p !! j).
Proof.
  apply (flatchain_rows (Arr3 2 2 1 [[[1%Q]; [2%Q]]; [[3%Q]; [4%Q]]])).
  - split; [reflexivity|]. repeat constructor.
  - simpl. lia.
Defined.

(** ** The leave-one-out cell on inputs of every shape *)

Lemma traverse_Forall2 {A B} (f : A -> result B) (P : A -> B -> Prop)
    (l : list A) :
  (forall a, a ∈ l -> exists b, f a = OK b /\ P a b) ->
  exists bs, traverse f l = OK bs /\ Forall2 P l bs.
Proof.
  induction l as [|a l IH]; intros H; simpl.
  - exists []. split; [reflexivity | constructor].
  - destruct (H a) as (b & -> & Hb); [left|].
    destruct IH as (bs & -> & Hbs); [intros a' Ha'; apply H; right; exact Ha'|].
    exists (b :: bs). split; [reflexivity|]. constructor; assumption.
Qed.

(** The term of iteration [i] with numpy's solver, on arrays of matching
    lengths. *)
Lemma loo_term_lstsq_value (M : matrix) (x y : vector) (i : Z) :
  wf_matrix M -> length x = nrows M -> length y = nrows M ->
  0 <= i < Z.of_nat (nrows M) ->
  exists beta,
    lstsq (Mat (ncols M)
             (firstn (Z.to_nat (i - 1)) (rows M)
                ++ skipn (Z.to_nat (i + 1)) (rows M)))
      (firstn (Z.to_nat (i - 1)) y ++ skipn (Z.to_nat (i + 1)) y) = OK beta
    /\ loo_term lstsq M x y i
       = OK ((nth (Z.to_nat i) y 0
              - inner (nth (Z.to_nat i) (rows M) []) beta) ^ 2)%Q.
Proof.
  intros Hwf Hx Hy Hi. rewrite loo_term_training by assumption.
  destruct (lstsq_total
              (Mat (ncols M) (firstn (Z.to_nat (i - 1)) (rows M)
                              ++ skipn (Z.to_nat (i + 1)) (rows M)))
              (firstn (Z.to_nat (i - 1)) y ++ skipn (Z.to_nat (i + 1)) y))
    as (beta & E & Hlen).
  { unfold nrows in *. simpl.
    rewrite !length_app, !length_take, !length_drop. lia. }
  exists beta. split; [exact E|]. rewrite E. simpl in Hlen. simpl bind.
  destruct (getitem_nonneg (rows M) i Hi) as (r & Hr & Er).
  unfold row. rewrite Er. simpl bind.
  assert (Hlr : length r = ncols M).
  { unfold wf_matrix in Hwf. rewrite Forall_forall in Hwf.
    apply Hwf. eapply list_elem_of_lookup_2. exact Hr. }
  unfold matmul_vec. rewrite Hlr, Hlen, Nat.eqb_refl. simpl bind.
  destruct (getitem_nonneg y i) as (v & Hv & ->); [lia|]. simpl bind.
  rewrite (nth_lookup_Some _ _ 0%Q _ Hv), (nth_lookup_Some _ _ [] _ Hr).
  reflexivity.
Qed.

(** X14. With numpy's solver, [x] not empty, [y] of the length of [x] and
    basis vectors of that length, the cell returns: one statistic for each
    [n_basis_vectors] from 1 to [len(basis_vectors)], in this order, none
    of them negative. No rank condition is needed, and none is checked. *)
Theorem loo_cell_lstsq_returns (basis_vectors : list vector) (x y : vector) :
  x <> [] -> length y = length x ->
  Forall (fun v => length v = length x) basis_vectors ->
  exists out, loo_cell lstsq basis_vectors x y = OK out
    /\ map fst out = arange 1 (Z.of_nat (length basis_vectors) + 1)
    /\ Forall (fun ks => (0 <= snd ks)%Q) out.
Proof.
  intros Hne Hy Hall.
  destruct (loo_cell_lstsq_succeeds basis_vectors x y Hne Hy Hall)
    as [out Eout].
  exists out. split; [exact Eout|]. split.
  - exact (loo_cell_labels _ _ _ _ _ Eout).
  - exact (loo_cell_nonneg _ _ _ _ _ Eout).
Qed.

Lemma loo_cell_lstsq_returns_witness :
  exists out,
    loo_cell lstsq [[1; 1; 1]; [0; 1; 2]]%Q [0; 1; 2]%Q [0; 0; 3]%Q = OK out
    /\ map fst out = arange 1 (Z.of_nat 2 + 1)
    /\ Forall (fun ks => (0 <= snd ks)%Q) out.
Proof.
  apply (loo_cell_lstsq_returns [[1; 1; 1]; [0; 1; 2]]%Q [0; 1; 2]%Q
           [0; 0; 3]%Q).
  - discriminate.
  - reflexivity.
  - repeat constructor.
Defined.

(** X15. With numpy's solver and arrays of matching lengths, the statistic
    is the mean over [i] of [(y[i] - X[i] . beta_i)^2], where [beta_i] is
    what [lstsq] returns for the rows before [i - 1] and after [i]. *)
Theorem loo_statistic_lstsq_value (M : matrix) (x y : vector) :
  wf_matrix M -> x <> [] -> length x = nrows M -> length y = nrows M ->
  exists ts,
    Forall2
      (fun i t =>
         exists beta,
           lstsq (Mat (ncols M)
                    (firstn (Z.to_nat (i - 1)) (rows M)
                       ++ skipn (Z.to_nat (i + 1)) (rows M)))
             (firstn (Z.to_nat (i - 1)) y ++ skipn (Z.to_nat (i + 1)) y)
           = OK beta
           /\ t = ((nth (Z.to_nat i) y 0
                    - inner (nth (Z.to_nat i) (rows M) []) beta) ^ 2)%Q)
      (range (Z.of_nat (length x))) ts
    /\ returns (loo_statistic lstsq M x y)
         (fold_right Qplus 0 ts / inject_Z (Z.of_nat (length x)))%Q.
Proof.
  intros Hwf Hne Hx Hy.
  destruct (traverse_Forall2 (loo_term lstsq M x y)
              (fun i t =>
                 exists beta,
                   lstsq (Mat (ncols M)
                            (firstn (Z.to_nat (i - 1)) (rows M)
                               ++ skipn (Z.to_nat (i + 1)) (rows M)))
                     (firstn (Z.to_nat (i - 1)) y
                        ++ skipn (Z.to_nat (i + 1)) y)
                   = OK beta
                   /\ t = ((nth (Z.to_nat i) y 0
                            - inner (nth (Z.to_nat i) (rows M) []) beta) ^ 2)%Q)
              (range (Z.of_nat (length x)))) as (ts & Ets & Hts).
  { intros i Hi. apply range_elem in Hi. rewrite Hx in Hi.
    destruct (loo_term_lstsq_value M x y i Hwf Hx Hy Hi) as (beta & E & Et).
    eexists. split; [exact Et|]. exists beta. split; [exact E | reflexivity]. }
  exists ts. split; [exact Hts|].
  apply loo_statistic_mean; assumption.
Qed.

Lemma loo_statistic_lstsq_value_witness :
  exists ts,
    Forall2
      (fun i t =>
         exists beta,
           lstsq (Mat 1 (firstn (Z.to_nat (i - 1)) [[1]; [1]; [1]]%Q
                         ++ skipn (Z.to_nat (i + 1)) [[1]; [1]; [1]]%Q))
             (firstn (Z.to_nat (i - 1)) [0; 0; 3]%Q
                ++ skipn (Z.to_nat (i + 1)) [0; 0; 3]%Q)
           = OK beta
           /\ t = ((nth (Z.to_nat i) [0; 0; 3]%Q 0
                    - inner (nth (Z.to_nat i) [[1]; [1]; [1]]%Q []) beta) ^ 2)%Q)
      (range (Z.of_nat 3)) ts
    /\ returns (loo_statistic lstsq (Mat 1 [[1]; [1]; [1]]%Q)
                  [0; 1; 2]%Q [0; 0; 3]%Q)
         (fold_right Qplus 0 ts / inject_Z (Z.of_nat 3))%Q.
Proof.
  apply (loo_statistic_lstsq_value (Mat 1 [[1]; [1]; [1]]%Q)
           [0; 1; 2]%Q [0; 0; 3]%Q).
  - repeat constructor.
  - discriminate.
  - reflexivity.
  - reflexivity.
Defined.

(** X16. The values of [x] play no part in the statistics: [x_in] is
    computed and never read, so two arrays [x] of the same length give the
    same result, statistic or exception. *)
Theorem loo_cell_independent_of_x solver (basis_vectors : list vector)
    (x x' y : vector) :
  length x = length x' ->
  loo_cell solver basis_vectors x y = loo_cell solver basis_vectors x' y.
Proof.
  intros Hlen. unfold loo_cell. apply traverse_ext_in. intros k _.
  destruct (design_matrix basis_vectors k) as [M|e]; [|reflexivity]. simpl.
  rewrite (loo_statistic_x_length solver M x x' y Hlen). reflexivity.
Qed.

Lemma loo_cell_independent_of_x_witness :
  loo_cell lstsq [[1; 1; 1]]%Q [0; 1; 2]%Q [0; 0; 3]%Q
  = loo_cell lstsq [[1; 1; 1]]%Q [7; 7; 7]%Q [0; 0; 3]%Q.
Proof.
  apply (loo_cell_independent_of_x lstsq [[1; 1; 1]]%Q [0; 1; 2]%Q
           [7; 7; 7]%Q [0; 0; 3]%Q).
  reflexivity.
Defined.

Lemma nth_take_lt {A} (l : list A) (n j : nat) (d : A) :
  (j < n)%nat -> nth j (firstn n l) d = nth j l d.
Proof.
  intros H. rewrite !nth_lookup. rewrite lookup_take_lt by exact H.
  reflexivity.
Qed.

(** The design matrix of truncated basis vectors is the design matrix
    without its last rows. *)
Lemma design_matrix_take (bvs : list vector) (N n : nat) (k : Z) :
  Forall (fun v => length v = N) bvs -> (n <= N)%nat ->
  1 <= k <= Z.of_nat (length bvs) ->
  exists M, design_matrix bvs k = OK M
    /\ nrows M = N
    /\ design_matrix (map (firstn n) bvs) k
       = OK (Mat (ncols M) (firstn n (rows M))).
Proof.
  intros Hall Hn Hk. eexists.
  split; [apply (design_matrix_inside _ N); assumption|].
  split.
  { unfold nrows, transpose. simpl. rewrite length_map, length_seq.
    reflexivity. }
  rewrite (design_matrix_inside _ n).
  - unfold transpose, nrows. simpl. f_equal. f_equal.
    + rewrite !length_take, length_map. reflexivity.
    + etransitivity; [|symmetry; apply firstn_map]. rewrite take_seq.
      replace (Nat.min n N) with n by lia.
      apply map_ext_in. intros j Hj.
      apply in_seq in Hj. unfold column. simpl.
      rewrite firstn_map, map_map. apply map_ext. intros v.
      apply nth_take_lt. lia.
  - apply Forall_forall. intros v Hv.
    apply list_elem_of_In, in_map_iff in Hv. destruct Hv as (w & <- & Hw).
    rewrite length_take. rewrite Forall_forall in Hall.
    rewrite (Hall w (proj2 (list_elem_of_In _ _) Hw)). lia.
  - rewrite length_map. exact Hk.
Qed.

(** X17. The cell reads [y] and the basis vectors only up to the length of
    [x]: entries past it are never looked at, so longer arrays are accepted
    silently and give the statistics of their truncations. *)
Theorem loo_cell_reads_prefix solver (basis_vectors : list vector) (N : nat)
    (x y : vector) :
  Forall (fun v => length v = N) basis_vectors ->
  (length x <= N)%nat -> (length x <= length y)%nat ->
  loo_cell solver (map (firstn (length x)) basis_vectors) x
    (firstn (length x) y)
  = loo_cell solver basis_vectors x y.
Proof.
  intros Hall HN Hy. unfold loo_cell. rewrite length_map.
  apply traverse_ext_in. intros k Hk.
  unfold arange in Hk. apply elem_of_seqZ in Hk.
  destruct (design_matrix_take basis_vectors N (length x) k Hall HN)
    as (M & -> & HM & ->); [lia|].
  simpl. rewrite loo_statistic_take by (try assumption; lia). reflexivity.
Qed.

Lemma loo_cell_reads_prefix_witness :
  loo_cell lstsq (map (firstn (length [0; 1]%Q)) [[1; 1; 1]; [0; 1; 2]]%Q)
    [0; 1]%Q (firstn (length [0; 1]%Q) [0; 0; 3]%Q)
  = loo_cell lstsq [[1; 1; 1]; [0; 1; 2]]%Q [0; 1]%Q [0; 0; 3]%Q.
Proof.
  apply (loo_cell_reads_prefix lstsq [[1; 1; 1]; [0; 1; 2]]%Q 3 [0; 1]%Q
           [0; 0; 3]%Q).
  - repeat constructor.
  - simpl. lia.
  - simpl. lia.
Defined.

(** X18. With at least two entries in [x], a [y] or basis vectors shorter
    than [x] make the first iteration index past the end: the cell raises
    [IndexError] before the solver is called, whatever the solver. *)
Theorem loo_cell_short_inputs_raise solver (basis_vectors : list vector)
    (N : nat) (x y : vector) :
  basis_vectors <> [] -> Forall (fun v => length v = N) basis_vectors ->
  (2 <= length x)%nat ->
  (length y < length x)%nat \/ (N < length x)%nat ->
  loo_cell solver basis_vectors x y = Raise IndexError.
Proof.
  intros Hne Hall Hx Hshort. unfold loo_cell.
  assert (Hlen : (0 < length basis_vectors)%nat).
  { destruct basis_vectors; [congruence | simpl; lia]. }
  unfold arange. rewrite seqZ_cons by lia. simpl.
  destruct (design_matrix_shape basis_vectors N 1 Hall) as (M & -> & _ & HM & _);
    [lia|].
  simpl.
  rewrite (loo_statistic_first_raises solver M x y IndexError);
    [reflexivity | intros ->; simpl in Hx; lia |].
  destruct (Nat.lt_ge_cases (length y) (length x)) as [Hy|Hy].
  - apply loo_term_short_y; assumption.
  - apply loo_term_short_matrix; [assumption | assumption | lia].
Qed.

Lemma loo_cell_short_inputs_raise_witness :
  loo_cell (fun _ _ => OK []) [[1; 1; 1]]%Q [0; 1; 2]%Q [0; 0]%Q
  = Raise IndexError.
Proof.
  apply (loo_cell_short_inputs_raise (fun _ _ => OK []) [[1; 1; 1]]%Q 3
           [0; 1; 2]%Q [0; 0]%Q).
  - discriminate.
  - repeat constructor.
  - simpl. lia.
  - left. simpl. lia.
Defined.

(** X19. With an empty [x] the loop body never runs and the normalisation
    [loo_statistic /= len(x)] divides the integer [0] by [0]: the cell
    raises [ZeroDivisionError] at the first model. *)
Theorem loo_cell_empty_x_divides_by_zero solver (basis_vectors : list vector)
    (N : nat) (y : vector) :
  basis_vectors <> [] -> Forall (fun v => length v = N) basis_vectors ->
  loo_cell solver basis_vectors [] y = Raise ZeroDivisionError.
Proof.
  intros Hne Hall. unfold loo_cell.
  assert (Hlen : (0 < length basis_vectors)%nat).
  { destruct basis_vectors; [congruence | simpl; lia]. }
  unfold arange. rewrite seqZ_cons by lia. simpl.
  destruct (design_matrix_shape basis_vectors N 1 Hall) as (M & -> & _); [lia|].
  reflexivity.
Qed.

Lemma loo_cell_empty_x_divides_by_zero_witness :
  loo_cell lstsq [[]; []] [] [] = Raise ZeroDivisionError.
Proof.
  apply (loo_cell_empty_x_divides_by_zero lstsq [[]; []] 0 []).
  - discriminate.
  - repeat constructor.
Defined.

(** X20. The first iteration is the one that leaves out a single row: for
    [i = 0] the slice [0:i-1] is empty, the refit uses every row but row 0,
    and the term is the squared error of the leave-one-out formula at
    [i = 0]. *)
Theorem loo_first_iteration_leaves_one_out solver (M : matrix) (x y : vector) :
  x <> [] -> length x = nrows M -> length y = nrows M ->
  loo_term solver M x y 0 =
    (let* beta := solver (Mat (ncols M) (delete 0%nat (rows M)))
                    (delete 0%nat y) in
     let* y_hat := matmul_vec (nth 0 (rows M) []) beta in
     OK ((nth 0 y 0 - y_hat) ^ 2)%Q).
Proof.
  intros Hne Hx Hy.
  assert (Hpos : (0 < nrows M)%nat).
  { rewrite <- Hx. destruct x; [congruence | simpl; lia]. }
  rewrite loo_term_training by (try assumption; lia).
  change (Z.to_nat (0 - 1)) with 0%nat. change (Z.to_nat (0 + 1)) with 1%nat.
  unfold nrows in *.
  destruct (rows M) as [|r rs] eqn:Er; [simpl in Hpos; lia|].
  destruct y as [|y0 y]; [simpl in Hy; lia|].
  simpl firstn. simpl skipn. simpl app. simpl delete. simpl nth.
  unfold row. rewrite Er.
  destruct (solver _ _) as [beta|e]; [|reflexivity]. simpl bind.
  replace (getitem (r :: rs) 0) with (OK r) by reflexivity. simpl bind.
  destruct (matmul_vec r beta); [|reflexivity]. simpl bind.
  reflexivity.
Qed.

Lemma loo_first_iteration_leaves_one_out_witness :
  loo_term lstsq (Mat 1 [[1]; [1]; [1]]%Q) [0; 1; 2]%Q [0; 0; 3]%Q 0 =
    (let* beta := lstsq (Mat 1 (delete 0%nat [[1]; [1]; [1]]%Q))
                    (delete 0%nat [0; 0; 3]%Q) in
     let* y_hat := matmul_vec (nth 0 [[1]; [1]; [1]]%Q []) beta in
     OK ((nth 0 [0; 0; 3]%Q 0 - y_hat) ^ 2)%Q).
Proof.
  apply (loo_first_iteration_leaves_one_out lstsq (Mat 1 [[1]; [1]; [1]]%Q)
           [0; 1; 2]%Q [0; 0; 3]%Q).
  - discriminate.
  - reflexivity.
  - reflexivity.
Defined.

(** X21. The index array of every iteration is strictly increasing and stays
    inside the array: no row enters a training set twice, the rows keep
    their order, and no index is negative, so that numpy never counts from
    the end. *)
Theorem indices_increasing_in_range (i len_x : Z) :
  0 <= i <= len_x ->
  StronglySorted Z.lt (indices i len_x)
  /\ forall j, j ∈ indices i len_x -> 0 <= j < len_x.
Proof.
  intros Hi. split.
  - unfold indices, arange.
    assert (Happ : forall l1 l2 : list Z,
              StronglySorted Z.lt l1 -> StronglySorted Z.lt l2 ->
              (forall a b, a ∈ l1 -> b ∈ l2 -> a < b) ->
              StronglySorted Z.lt (l1 ++ l2)).
    { intros l1 l2 H1 H2 H12. induction H1 as [|a l1 H1 IH Ha]; [exact H2|].
      simpl. constructor.
      - apply IH. intros a' b Ha' Hb. apply H12; [right|]; assumption.
      - apply Forall_app. split; [exact Ha|].
        apply Forall_forall. intros b Hb. apply H12; [left | exact Hb]. }
    apply Happ; try apply StronglySorted_seqZ.
    intros a b Ha Hb. apply elem_of_seqZ in Ha, Hb. lia.
  - intros j Hj. apply (indices_in_range i len_x j Hi Hj).
Qed.

Lemma indices_increasing_in_range_witness :
  StronglySorted Z.lt (indices 2 5)
  /\ forall j, j ∈ indices 2 5 -> 0 <= j < 5.
Proof.
  apply (indices_increasing_in_range 2 5). lia.
Defined.

(** ** The mean of the sampled model *)

Lemma inner_comm (u v : vector) : (inner u v == inner v u)%Q.
Proof.
  revert v. induction u as [|a u IH]; intros [|b v]; simpl; try reflexivity.
  rewrite (IH v). ring.
Qed.

(** X22. The mean of the model that the sampling cell builds and the
    prediction of the leave-one-out cell are the same linear function of
    the weights: [pm.math.dot(beta, basis_vectors[:k])] is the design
    matrix of [k] basis vectors applied to [beta]. *)
Theorem linear_model_is_design_matrix_product (basis_vectors : list vector)
    (N : nat) (k : Z) (beta : vector) :
  Forall (fun v => length v = N) basis_vectors ->
  1 <= k <= Z.of_nat (length basis_vectors) ->
  length beta = Z.to_nat k ->
  exists M mu, design_matrix basis_vectors k = OK M
    /\ linear_model beta basis_vectors k = OK mu
    /\ Forall2 Qeq mu (matvec M beta).
Proof.
  intros Hall Hk Hbeta.
  exists (transpose (Mat N (firstn (Z.to_nat k) basis_vectors))).
  eexists. split; [apply (design_matrix_inside _ N); assumption|].
  unfold linear_model. rewrite slice_to_inside by lia.
  rewrite (vstack_uniform _ N).
  - simpl bind. unfold nrows at 1. simpl rows.
    rewrite length_take, Hbeta.
    replace (Nat.min (Z.to_nat k) (length basis_vectors)) with (Z.to_nat k)
      by lia.
    rewrite Nat.eqb_refl. split; [reflexivity|].
    unfold matvec, transpose. simpl. rewrite map_map.
    apply Forall2_fmap, Forall_Forall2_diag, Forall_forall.
    intros i _. apply inner_comm.
  - intros E. apply (f_equal (@length vector)) in E.
    rewrite length_take in E. simpl in E. lia.
  - apply Forall_take. exact Hall.
Qed.

Lemma linear_model_is_design_matrix_product_witness :
  exists M mu, design_matrix [[1; 1; 1]; [0; 1; 2]; [0; 1; 4]]%Q 2 = OK M
    /\ linear_model [2; 3]%Q [[1; 1; 1]; [0; 1; 2]; [0; 1; 4]]%Q 2 = OK mu
    /\ Forall2 Qeq mu (matvec M [2; 3]%Q).
Proof.
  apply (linear_model_is_design_matrix_product
           [[1; 1; 1]; [0; 1; 2]; [0; 1; 4]]%Q 3 2 [2; 3]%Q).
  - repeat constructor.
  - simpl. lia.
  - reflexivity.
Defined.

(** ** The whole cell over the store *)

(** X23. On a store that holds [x], [y] and the list of basis vectors --
    whose items may be shared with [x], as the second basis vector of the
    notebook is -- the cell program returns the statistics of the pure cell
    or raises its exception, and a run that returns only adds objects to
    the store. *)
Theorem loo_cell_prog_refines_cell
    (solver : matrix -> vector -> result vector) (bvs x y : loc)
    (vs : list vector) (xv yv : vector) (h : gmap loc obj) :
  basis_at h bvs vs ->
  h !! x = Some (Array xv) ->
  h !! y = Some (Array yv) ->
  match loo_cell_prog solver bvs x y h with
  | OK (out, h') => loo_cell solver vs xv yv = OK out /\ h ⊆ h'
  | Raise e => loo_cell solver vs xv yv = Raise e
  end.
Proof.
  intros Hb Hx Hy.
  pose proof (sim_loo_cell_prog solver bvs x y vs xv yv h Hb Hx Hy) as H.
  unfold sim, same in H.
  destruct (loo_cell_prog solver bvs x y h) as [[out h']|e]; [|exact H].
  destruct H as (Hsub & b & -> & ->). split; [reflexivity | exact Hsub].
Qed.

(** The list at 3 holds the array at 4 and [x] itself. *)
Lemma loo_cell_prog_refines_cell_witness :
  match loo_cell_prog lstsq 3%positive 1%positive 2%positive example_store with
  | OK (out, h') =>
      loo_cell lstsq [[1; 1; 1]; [0; 1; 2]]%Q [0; 1; 2]%Q [0; 0; 3]%Q = OK out
      /\ example_store ⊆ h'
  | Raise e =>
      loo_cell lstsq [[1; 1; 1]; [0; 1; 2]]%Q [0; 1; 2]%Q [0; 0; 3]%Q = Raise e
  end.
Proof.
  apply (loo_cell_prog_refines_cell lstsq 3%positive 1%positive 2%positive
           [[1; 1; 1]; [0; 1; 2]]%Q [0; 1; 2]%Q [0; 0; 3]%Q example_store).
  - exists [4%positive; 1%positive]. split; [reflexivity|].
    repeat constructor.
  - reflexivity.
  - reflexivity.
Defined.
